(** * ReviewSum: vocabulary managers, batch tensorisers and the copy decoder

    Shallow embedding of
    - [code/seq2seqCopyAttr/vocab.py]   (module [CopyVocab]),
    - [code/memBasic/vocab.py]          (module [MemVocab]),
    - [code/seq2seqCopyAttr/models_linear.py] (module [Model]).

    Python dictionaries are [gmap]s, Python lists are [list]s, a raised
    exception is the [Raise] branch of [result].  Token ids, lengths and
    capacities are [nat]; frequency counts, the pruning threshold and the
    numeric fields of a memory entry are [Z]. *)

From Stdlib Require Import ZArith Ascii String List Lia Ring_theory Ring ZArithRing.
From stdpp Require Import base decidable option list gmap strings sorting.

Local Open Scope list_scope.
Local Open Scope nat_scope.

(* stdpp's solvers clear hypotheses that are already gone *)
Set Warnings "-clear-no-such-hyp".

(** ** Exceptions *)

Inductive exn := KeyError | IndexError | AssertionError | RuntimeError.

Inductive result (A : Type) : Type :=
| Ok (a : A)
| Raise (e : exn).
Arguments Ok {A} a.
Arguments Raise {A} e.

#[global] Instance result_ret : MRet result := fun A a => Ok a.
#[global] Instance result_bind : MBind result := fun A B f m =>
  match m with Ok a => f a | Raise e => Raise e end.

(** [d[k]] on a dictionary: [KeyError] when the key is absent. *)
Definition getitem `{Countable K} {V} (d : gmap K V) (k : K) : result V :=
  match d !! k with Some x => Ok x | None => Raise KeyError end.

(** [l[i]] on a list with a non-negative index: [IndexError] out of range. *)
Definition getindex {A} (l : list A) (i : nat) : result A :=
  match l !! i with Some x => Ok x | None => Raise IndexError end.

(** [l[z]] on a list with a Python integer index: negative indices count
    from the end. *)
Definition getindexZ {A} (l : list A) (z : Z) : result A :=
  if bool_decide (0 ≤ z)%Z then getindex l (Z.to_nat z)
  else if bool_decide (- Z.of_nat (length l) ≤ z)%Z
       then getindex l (Z.to_nat (Z.of_nat (length l) + z))
       else Raise IndexError.

(** ** Python text *)

(** The white-space characters of [str.split()] below code point 128. *)
Definition py_isspace (c : ascii) : bool :=
  let n := nat_of_ascii c in
  ((9 <=? n) && (n <=? 13)) || ((28 <=? n) && (n <=? 32)).

Fixpoint string_of_rev (l : list ascii) (acc : string) : string :=
  match l with
  | [] => acc
  | c :: r => string_of_rev r (String c acc)
  end.

Definition flush (cur : list ascii) : list string :=
  match cur with [] => [] | _ => [string_of_rev cur ""] end.

(** [split_go cur s]: [cur] is the token being read, last character first. *)
Fixpoint split_go (cur : list ascii) (s : string) : list string :=
  match s with
  | EmptyString => flush cur
  | String c r =>
      if py_isspace c then flush cur ++ split_go [] r
      else split_go (c :: cur) r
  end.

(** [s.split()] *)
Definition split (s : string) : list string := split_go [] s.

(** ** [list.sort(key=..., reverse=True)]: stable, descending by key *)

Section sort.
Context {A : Type} (key : A → Z).

Fixpoint insert_desc (x : A) (l : list A) : list A :=
  match l with
  | [] => [x]
  | y :: r => if (key x <? key y)%Z then y :: insert_desc x r else x :: y :: r
  end.

Definition sort_desc (l : list A) : list A := foldr insert_desc [] l.

(** [desc a b]: [a] may stand before [b] in the sorted list. *)
Definition desc (a b : A) : Prop := (key b ≤ key a)%Z.
End sort.

(** ** Reserved tokens (the same in both vocabularies) *)

Definition PAD_IDX : nat := 0.
Definition SOS_IDX : nat := 1.
Definition EOS_IDX : nat := 2.
Definition UNK_IDX : nat := 3.
Definition PAD_TOKEN : string := "<PAD>".
Definition SOS_TOKEN : string := "<SOS>".
Definition EOS_TOKEN : string := "<EOS>".
Definition UNK_TOKEN : string := "<UNK>".

(** The inflated frequency given to the reserved tokens. *)
Definition RESERVED_CNT : Z := 10000.

(** [ids + [PAD_IDX] * (n - len(ids))] *)
Definition pad_to (n : nat) (ids : list nat) : list nat :=
  ids ++ replicate (n - length ids) PAD_IDX.

(** * code/seq2seqCopyAttr/vocab.py *)

Module CopyVocab.

Record Args := {
  embed_dim : nat;
  word_min_cnt : Z;
  sum_max_len : nat
}.

Record Batch := {
  reviewText : list string;
  summary : list string;
  userID : list string;
  productID : list string
}.

Record Tensors := {
  src : list (list nat);
  trg : list (list nat);
  src_embed : list (list nat);
  trg_embed : list (list nat);
  src_user : list nat;
  src_product : list nat;
  src_mask : list (list nat);
  src_lens : list nat;
  trg_lens : list nat;
  src_text : list string;
  trg_text : list string
}.

(** [src_text] and [trg_text] as the [zip] loop leaves them. *)
Definition paired_reviews (b : Batch) : list string :=
  (zip (reviewText b) (summary b)).*1.
Definition paired_summaries (b : Batch) : list string :=
  (zip (reviewText b) (summary b)).*2.

(** The sort key [len(src_text[k].split())]. *)
Definition src_key (texts : list string) (k : nat) : Z :=
  Z.of_nat (length (split (texts !!! k))).

(** [idx] after [idx.sort(key=..., reverse=True)]. *)
Definition batch_order (b : Batch) : list nat :=
  sort_desc (src_key (paired_reviews b)) (seq 0 (length (summary b))).

(** [src_text] and [trg_text] after the reordering. *)
Definition sorted_reviews (b : Batch) : list string :=
  (λ i, paired_reviews b !!! i) <$> batch_order b.
Definition sorted_summaries (b : Batch) : list string :=
  (λ i, paired_summaries b !!! i) <$> batch_order b.

Section vocab.
(** [E] is the type of an embedding row; [normal dim n] is the vector
    [np.random.normal(size=dim)] returns when the table holds [n] rows. *)
Context {E : Type}.
Variable normal : nat → nat → E.

Record Vocab := {
  args : Args;
  embed : list E;
  word_num : nat;
  fixed_num : nat;
  word2id : gmap string nat;
  id2word : gmap nat string;
  word2cnt : gmap string Z;
  user_num : nat;
  user2id : gmap string nat;
  id2user : gmap nat string;
  product_num : nat;
  product2id : gmap string nat;
  id2product : gmap nat string
}.

(** Replace the word tables and keep everything else. *)
Definition with_words (v : Vocab) (em : list E) (wn fn : nat)
    (w2i : gmap string nat) (i2w : gmap nat string) (w2c : gmap string Z) : Vocab :=
  {| args := args v; embed := em; word_num := wn; fixed_num := fn;
     word2id := w2i; id2word := i2w; word2cnt := w2c;
     user_num := user_num v; user2id := user2id v; id2user := id2user v;
     product_num := product_num v; product2id := product2id v;
     id2product := id2product v |}.

(** *** [__init__] *)

Definition init_reserved (a : Args) : Vocab :=
  {| args := a;
     embed := [normal (embed_dim a) 0; normal (embed_dim a) 1;
               normal (embed_dim a) 2; normal (embed_dim a) 3];
     word_num := 4; fixed_num := 4;
     word2id := <[PAD_TOKEN := PAD_IDX]> (<[SOS_TOKEN := SOS_IDX]>
                (<[EOS_TOKEN := EOS_IDX]> (<[UNK_TOKEN := UNK_IDX]> ∅)));
     id2word := <[PAD_IDX := PAD_TOKEN]> (<[SOS_IDX := SOS_TOKEN]>
                (<[EOS_IDX := EOS_TOKEN]> (<[UNK_IDX := UNK_TOKEN]> ∅)));
     word2cnt := <[PAD_TOKEN := RESERVED_CNT]> (<[SOS_TOKEN := RESERVED_CNT]>
                 (<[EOS_TOKEN := RESERVED_CNT]> (<[UNK_TOKEN := RESERVED_CNT]> ∅)));
     user_num := 1; user2id := {[ "<UNK-USER>" := 0 ]};
     id2user := {[ 0 := "<UNK-USER>" ]};
     product_num := 1; product2id := {[ "<UNK-PRODUCT>" := 0 ]};
     id2product := {[ 0 := "<UNK-PRODUCT>" ]} |}.

(** One round of the loop over the pretrained words. *)
Definition init_word (v : Vocab) (we : string * E) : Vocab :=
  match word2id v !! we.1 with
  | Some _ => v
  | None =>
      with_words v (embed v ++ [we.2]) (S (word_num v)) (fixed_num v)
        (<[we.1 := word_num v]> (word2id v))
        (<[word_num v := we.1]> (id2word v))
        (<[we.1 := 0%Z]> (word2cnt v))
  end.

(** [sorted(embed.keys())], each key with its vector. *)
Definition sorted_items (pre : gmap string E) : list (string * E) :=
  merge_sort (λ a b, String.le a.1 b.1) (map_to_list pre).

Definition init (a : Args) (pre : option (gmap string E)) : Vocab :=
  let v := match pre with
           | None => init_reserved a
           | Some m => foldl init_word (init_reserved a) (sorted_items m)
           end in
  with_words v (embed v) (word_num v) (word_num v)
    (word2id v) (id2word v) (word2cnt v).

(** *** [add_sentence] *)

Definition add_word (v : Vocab) (w : string) : result Vocab :=
  match word2id v !! w with
  | None =>
      Ok (with_words v
            (embed v ++ [normal (embed_dim (args v)) (length (embed v))])
            (S (word_num v)) (fixed_num v)
            (<[w := word_num v]> (word2id v))
            (<[word_num v := w]> (id2word v))
            (<[w := 1%Z]> (word2cnt v)))
  | Some _ =>
      c ← getitem (word2cnt v) w;
      Ok (with_words v (embed v) (word_num v) (fixed_num v)
            (word2id v) (id2word v) (<[w := (c + 1)%Z]> (word2cnt v)))
  end.

Fixpoint add_words (v : Vocab) (sent : list string) : result Vocab :=
  match sent with
  | [] => Ok v
  | w :: r => v' ← add_word v w; add_words v' r
  end.

Definition add_sentence (v : Vocab) (sent : list string) : result Vocab :=
  v' ← add_words v sent;
  Ok (with_words v' (embed v') (word_num v') (word_num v')
        (word2id v') (id2word v') (word2cnt v')).

(** *** [add_user], [add_product] *)

Definition add_user (v : Vocab) (user : string) : Vocab :=
  match user2id v !! user with
  | Some _ => v
  | None =>
      {| args := args v; embed := embed v; word_num := word_num v;
         fixed_num := fixed_num v; word2id := word2id v;
         id2word := id2word v; word2cnt := word2cnt v;
         user_num := S (user_num v);
         user2id := <[user := user_num v]> (user2id v);
         id2user := <[user_num v := user]> (id2user v);
         product_num := product_num v; product2id := product2id v;
         id2product := id2product v |}
  end.

Definition add_product (v : Vocab) (product : string) : Vocab :=
  match product2id v !! product with
  | Some _ => v
  | None =>
      {| args := args v; embed := embed v; word_num := word_num v;
         fixed_num := fixed_num v; word2id := word2id v;
         id2word := id2word v; word2cnt := word2cnt v;
         user_num := user_num v; user2id := user2id v; id2user := id2user v;
         product_num := S (product_num v);
         product2id := <[product := product_num v]> (product2id v);
         id2product := <[product_num v := product]> (id2product v) |}
  end.

(** *** [trim] *)

(** The first loop: [reserved_words] and [reserved_idx]. *)
Fixpoint trim_scan (v : Vocab) (ids : list nat) : result (list string * list nat) :=
  match ids with
  | [] => Ok ([], [])
  | i :: r =>
      w ← getitem (id2word v) i;
      c ← getitem (word2cnt v) w;
      rest ← trim_scan v r;
      Ok (if bool_decide (word_min_cnt (args v) ≤ c)%Z
          then (w :: rest.1, i :: rest.2) else rest)
  end.

(** The second loop, from the counter [cnt] and the three new tables. *)
Fixpoint trim_fill (old : gmap string Z) (ws : list string) (cnt : nat)
    (w2i : gmap string nat) (i2w : gmap nat string) (w2c : gmap string Z)
    : result (nat * gmap string nat * gmap nat string * gmap string Z) :=
  match ws with
  | [] => Ok (cnt, w2i, i2w, w2c)
  | w :: r =>
      c ← getitem old w;
      trim_fill old r (S cnt) (<[w := cnt]> w2i) (<[cnt := w]> i2w) (<[w := c]> w2c)
  end.

(** The third loop: [embed.append(self.embed[i])]. *)
Fixpoint trim_rows (em : list E) (ids : list nat) : result (list E) :=
  match ids with
  | [] => Ok []
  | i :: r => e ← getindex em i; rest ← trim_rows em r; Ok (e :: rest)
  end.

Definition trim (v : Vocab) : result (Vocab * list E) :=
  '(reserved_words, reserved_idx) ← trim_scan v (seq 0 (word_num v));
  '(cnt, w2i, i2w, w2c) ← trim_fill (word2cnt v) reserved_words 0 ∅ ∅ ∅;
  em ← trim_rows (embed v) reserved_idx;
  if bool_decide (size w2i = size i2w ∧ size i2w = size w2c ∧ size w2c = length em)
  then Ok (with_words v em cnt cnt w2i i2w w2c, em)
  else Raise AssertionError.

(** *** [word_id], [id_word] *)

Definition word_id (v : Vocab) (w : string) : nat :=
  match word2id v !! w with Some i => i | None => UNK_IDX end.

Definition id_word (v : Vocab) (idx : nat) : result string :=
  if bool_decide (idx < word_num v) then getitem (id2word v) idx
  else Raise AssertionError.

(** *** [read_batch] *)

(** The loop that forgets the previous batch's dynamic words. *)
Fixpoint drop_dynamic (v : Vocab) (ids : list nat) : result Vocab :=
  match ids with
  | [] => Ok v
  | i :: r =>
      w ← id_word v i;
      _ ← getitem (id2word v) i;
      _ ← getitem (word2id v) w;
      drop_dynamic
        (with_words v (embed v) (word_num v) (fixed_num v)
           (delete w (word2id v)) (delete i (id2word v)) (word2cnt v)) r
  end.

Definition reset_dynamic (v : Vocab) : result Vocab :=
  v' ← drop_dynamic v (seq (fixed_num v) (word_num v - fixed_num v));
  Ok (with_words v' (embed v') (fixed_num v') (fixed_num v')
        (word2id v') (id2word v') (word2cnt v')).

(** One source token of the new batch. *)
Definition add_dynamic (v : Vocab) (w : string) : Vocab :=
  match word2id v !! w with
  | Some _ => v
  | None =>
      with_words v (embed v) (S (word_num v)) (fixed_num v)
        (<[w := word_num v]> (word2id v))
        (<[word_num v := w]> (id2word v)) (word2cnt v)
  end.

Definition extend_dynamic (v : Vocab) (texts : list string) : Vocab :=
  foldl (λ v review, foldl add_dynamic v (split review)) v texts.

(** [[i if i < self.fixed_num else self.UNK_IDX for i in cur_idx]] *)
Definition safe_ids (v : Vocab) (ids : list nat) : list nat :=
  (λ i, if bool_decide (i < fixed_num v) then i else UNK_IDX) <$> ids.

Definition src_tokens (src_max_len : nat) (review : string) : list string :=
  take src_max_len (split review).

Definition src_row (v : Vocab) (src_max_len : nat) (review : string) : list nat :=
  pad_to src_max_len (word_id v <$> src_tokens src_max_len review).

Definition mask_row (src_max_len : nat) (review : string) : list nat :=
  replicate (length (src_tokens src_max_len review)) 1
  ++ replicate (src_max_len - length (src_tokens src_max_len review)) 0.

Definition trg_tokens (trg_max_len : nat) (s : string) : list string :=
  take trg_max_len (split s ++ [EOS_TOKEN]).

(** The id of one target token, given the example's source row. *)
Definition trg_id (v : Vocab) (srow : list nat) (w : string) : nat :=
  let cur_id := word_id v w in
  if bool_decide (fixed_num v ≤ cur_id) && negb (bool_decide (cur_id ∈ srow))
  then UNK_IDX else cur_id.

Definition trg_row (v : Vocab) (trg_max_len : nat) (srow : list nat) (s : string)
    : list nat :=
  pad_to trg_max_len (trg_id v srow <$> trg_tokens trg_max_len s).

Definition lookup_or_zero (d : gmap string nat) (k : string) : nat :=
  match d !! k with Some i => i | None => 0 end.

(** The tensors of the last part of [read_batch], from the extended
    vocabulary and the sorted texts. *)
Definition tensors (v : Vocab) (b : Batch) (src_max_len : nat) : Tensors :=
  let trg_max_len := sum_max_len (args v) in
  let src := src_row v src_max_len <$> sorted_reviews b in
  let trg := imap (λ i s, trg_row v trg_max_len (src !!! i) s) (sorted_summaries b) in
  {| src := src;
     trg := trg;
     src_embed := safe_ids v <$> src;
     trg_embed := safe_ids v <$> trg;
     src_user := lookup_or_zero (user2id v) <$> userID b;
     src_product := lookup_or_zero (product2id v) <$> productID b;
     src_mask := mask_row src_max_len <$> sorted_reviews b;
     src_lens := (λ r, length (src_tokens src_max_len r)) <$> sorted_reviews b;
     trg_lens := (λ s, length (trg_tokens trg_max_len s)) <$> sorted_summaries b;
     src_text := sorted_reviews b;
     trg_text := sorted_summaries b |}.

Definition read_batch (v : Vocab) (b : Batch) : result (Vocab * Tensors) :=
  v1 ← reset_dynamic v;
  (* the sort key reads src_text[k] for every k < len(batch['summary']) *)
  if bool_decide (length (summary b) ≤ length (paired_reviews b)) then
    let v2 := extend_dynamic v1 (sorted_reviews b) in
    first ← getindex (sorted_reviews b) 0;
    Ok (v2, tensors v2 b (length (split first)))
  else Raise IndexError.

End vocab.

End CopyVocab.

(** * code/memBasic/vocab.py *)

Module MemVocab.

Record Args := {
  embed_dim : nat;
  word_min_cnt : Z;
  sum_max_len : nat;
  review_max_len : nat;
  mem_size : nat
}.

(** One element of [train_data]. *)
Record Example := {
  ex_reviewText : string;
  ex_summary : string;
  ex_userID : string;
  ex_productID : string
}.

(** A memory entry is a Python sequence of numbers: [p[0]] indexes
    [train_data], [p[2]] is the gold label, [p[-2]] the sort key. *)
Definition MemPiece : Type := list Z.

Record Batch := {
  reviewText : list string;
  summary : list string;
  userID : list string;
  productID : list string;
  product_review : list (list MemPiece);
  user_review : list (list MemPiece)
}.

(** The four memory lists, filled in step. *)
Record MemRows := {
  mem_up : list (list nat);
  mem_review : list (list nat);
  mem_sum : list (list nat);
  mem_gold : list Z
}.

Definition rows_app (a b : MemRows) : MemRows :=
  {| mem_up := mem_up a ++ mem_up b;
     mem_review := mem_review a ++ mem_review b;
     mem_sum := mem_sum a ++ mem_sum b;
     mem_gold := mem_gold a ++ mem_gold b |}.

Definition rows_nil : MemRows :=
  {| mem_up := []; mem_review := []; mem_sum := []; mem_gold := [] |}.

Record Tensors := {
  src : list (list nat);
  trg : list (list nat);
  mem : MemRows;
  src_text : list string;
  trg_text : list string
}.

(** [src_text] and [trg_text] as the [zip] loop leaves them. *)
Definition paired_reviews (b : Batch) : list string :=
  (zip (reviewText b) (summary b)).*1.
Definition paired_summaries (b : Batch) : list string :=
  (zip (reviewText b) (summary b)).*2.

(** The sort key [len(src_text[k].split())]. *)
Definition src_key (texts : list string) (k : nat) : Z :=
  Z.of_nat (length (split (texts !!! k))).

(** [idx] after [idx.sort(key=..., reverse=True)]. *)
Definition batch_order (b : Batch) : list nat :=
  sort_desc (src_key (paired_reviews b)) (seq 0 (length (summary b))).

(** [src_text] and [trg_text] after the reordering. *)
Definition sorted_reviews (b : Batch) : list string :=
  (λ i, paired_reviews b !!! i) <$> batch_order b.
Definition sorted_summaries (b : Batch) : list string :=
  (λ i, paired_summaries b !!! i) <$> batch_order b.

Section vocab.
Context {E : Type}.

Record Vocab := {
  args : Args;
  embed : list E;
  next_idx : nat;
  word2id : gmap string nat;
  id2word : gmap nat string;
  word2cnt : gmap string Z
}.

Definition word_id (v : Vocab) (w : string) : nat :=
  match word2id v !! w with Some i => i | None => UNK_IDX end.

Definition id_word (v : Vocab) (idx : nat) : result string :=
  if bool_decide (idx < size (id2word v)) then getitem (id2word v) idx
  else Raise AssertionError.

(** [[self.word_id(w) for w in toks[:n]]] padded to [n]. *)
Definition text_row (v : Vocab) (n : nat) (toks : list string) : list nat :=
  pad_to n (word_id v <$> take n toks).

(** The sort key [p[-2]]. *)
Definition score (p : MemPiece) : result Z := getindexZ p (-2).

Fixpoint keyed (ps : list MemPiece) : result (list (Z * MemPiece)) :=
  match ps with
  | [] => Ok []
  | p :: r => k ← score p; rest ← keyed r; Ok ((k, p) :: rest)
  end.

(** [mem.sort(key=lambda p: p[-2], reverse=True); mem = mem[:mem_size]] *)
Definition retained (cap : nat) (ps : list MemPiece) : result (list (Z * MemPiece)) :=
  ks ← keyed ps; Ok (take cap (sort_desc fst ks)).

(** The rows of one retained entry. *)
Definition piece_rows (v : Vocab) (train_data : list Example)
    (cur_user cur_product : string) (p : MemPiece) : result MemRows :=
  gold ← getindexZ p 2;
  k ← getindexZ p 0;
  mem_data ← getindexZ train_data k;
  if bool_decide (ex_userID mem_data = cur_user ∨ ex_productID mem_data = cur_product)
  then
    Ok {| mem_up := [[ if bool_decide (ex_userID mem_data = cur_user) then 1 else 0;
                       if bool_decide (ex_productID mem_data = cur_product) then 1 else 0 ]];
          mem_review := [text_row v (review_max_len (args v))
                           (split (ex_reviewText mem_data))];
          mem_sum := [text_row v (sum_max_len (args v)) (split (ex_summary mem_data))];
          mem_gold := [gold] |}
  else Raise AssertionError.

Fixpoint pieces_rows (v : Vocab) (train_data : list Example)
    (cur_user cur_product : string) (ps : list MemPiece) : result MemRows :=
  match ps with
  | [] => Ok rows_nil
  | p :: r =>
      a ← piece_rows v train_data cur_user cur_product p;
      rest ← pieces_rows v train_data cur_user cur_product r;
      Ok (rows_app a rest)
  end.

(** [n] placeholder rows. *)
Definition filler (v : Vocab) (n : nat) : MemRows :=
  {| mem_up := replicate n [0; 0];
     mem_review := replicate n (replicate (review_max_len (args v)) PAD_IDX);
     mem_sum := replicate n (replicate (sum_max_len (args v)) PAD_IDX);
     mem_gold := replicate n 0%Z |}.

(** The body of [for i in idx]. *)
Definition mem_example (v : Vocab) (b : Batch) (train_data : list Example)
    (i : nat) : result MemRows :=
  cur_user ← getindex (userID b) i;
  cur_product ← getindex (productID b) i;
  pr ← getindex (product_review b) i;
  ur ← getindex (user_review b) i;
  kept ← retained (mem_size (args v)) (pr ++ ur);
  rows ← pieces_rows v train_data cur_user cur_product kept.*2;
  Ok (rows_app rows (filler v (mem_size (args v) - length kept))).

Fixpoint mem_examples (v : Vocab) (b : Batch) (train_data : list Example)
    (idx : list nat) : result MemRows :=
  match idx with
  | [] => Ok rows_nil
  | i :: r =>
      a ← mem_example v b train_data i;
      rest ← mem_examples v b train_data r;
      Ok (rows_app a rest)
  end.

Definition trg_tokens (trg_max_len : nat) (s : string) : list string :=
  take trg_max_len (split s ++ [EOS_TOKEN]).

Definition trg_row (v : Vocab) (trg_max_len : nat) (s : string) : list nat :=
  pad_to trg_max_len (word_id v <$> trg_tokens trg_max_len s).

Definition make_tensors (v : Vocab) (b : Batch) (train_data : list Example)
    : result Tensors :=
  (* the sort key reads src_text[k] for every k < len(batch['summary']) *)
  if bool_decide (length (summary b) ≤ length (paired_reviews b)) then
    first ← getindex (sorted_reviews b) 0;
    let src_max_len := length (split first) in
    let trg_max_len := sum_max_len (args v) in
    rows ← mem_examples v b train_data (batch_order b);
    Ok {| src := (λ r, text_row v src_max_len (split r)) <$> sorted_reviews b;
          trg := trg_row v trg_max_len <$> sorted_summaries b;
          mem := rows;
          src_text := sorted_reviews b;
          trg_text := sorted_summaries b |}
  else Raise IndexError.

End vocab.

(** *** [__init__], [add_sentence], [trim]

    [normal dim n] is the vector [np.random.normal(size=dim)] returns
    when the table holds [n] rows. *)

Section build.
Context {E : Type}.
Variable normal : nat → nat → E.

Definition init_reserved (a : Args) : @Vocab E :=
  {| args := a;
     embed := [normal (embed_dim a) 0; normal (embed_dim a) 1;
               normal (embed_dim a) 2; normal (embed_dim a) 3];
     next_idx := 4;
     word2id := <[PAD_TOKEN := PAD_IDX]> (<[SOS_TOKEN := SOS_IDX]>
                (<[EOS_TOKEN := EOS_IDX]> (<[UNK_TOKEN := UNK_IDX]> ∅)));
     id2word := <[PAD_IDX := PAD_TOKEN]> (<[SOS_IDX := SOS_TOKEN]>
                (<[EOS_IDX := EOS_TOKEN]> (<[UNK_IDX := UNK_TOKEN]> ∅)));
     word2cnt := <[PAD_TOKEN := RESERVED_CNT]> (<[SOS_TOKEN := RESERVED_CNT]>
                 (<[EOS_TOKEN := RESERVED_CNT]> (<[UNK_TOKEN := RESERVED_CNT]> ∅))) |}.

(** One round of the loop over the pretrained words. *)
Definition init_word (v : @Vocab E) (we : string * E) : @Vocab E :=
  match word2id v !! we.1 with
  | Some _ => v
  | None =>
      {| args := args v; embed := embed v ++ [we.2]; next_idx := S (next_idx v);
         word2id := <[we.1 := next_idx v]> (word2id v);
         id2word := <[next_idx v := we.1]> (id2word v);
         word2cnt := <[we.1 := 0%Z]> (word2cnt v) |}
  end.

(** [sorted(embed.keys())], each key with its vector. *)
Definition sorted_items (pre : gmap string E) : list (string * E) :=
  merge_sort (λ a b, String.le a.1 b.1) (map_to_list pre).

Definition init (a : Args) (pre : option (gmap string E)) : @Vocab E :=
  match pre with
  | None => init_reserved a
  | Some m => foldl init_word (init_reserved a) (sorted_items m)
  end.

Definition add_word (v : @Vocab E) (w : string) : result (@Vocab E) :=
  match word2id v !! w with
  | None =>
      Ok {| args := args v;
            embed := embed v ++ [normal (embed_dim (args v)) (length (embed v))];
            next_idx := S (next_idx v);
            word2id := <[w := next_idx v]> (word2id v);
            id2word := <[next_idx v := w]> (id2word v);
            word2cnt := <[w := 1%Z]> (word2cnt v) |}
  | Some _ =>
      c ← getitem (word2cnt v) w;
      Ok {| args := args v; embed := embed v; next_idx := next_idx v;
            word2id := word2id v; id2word := id2word v;
            word2cnt := <[w := (c + 1)%Z]> (word2cnt v) |}
  end.

Fixpoint add_sentence (v : @Vocab E) (sent : list string) : result (@Vocab E) :=
  match sent with
  | [] => Ok v
  | w :: r => v' ← add_word v w; add_sentence v' r
  end.

(** The first loop of [trim]: [reserved_words] and [reserved_idx]. *)
Fixpoint trim_scan (v : @Vocab E) (ids : list nat) : result (list string * list nat) :=
  match ids with
  | [] => Ok ([], [])
  | i :: r =>
      w ← getitem (id2word v) i;
      c ← getitem (word2cnt v) w;
      rest ← trim_scan v r;
      Ok (if bool_decide (word_min_cnt (args v) ≤ c)%Z
          then (w :: rest.1, i :: rest.2) else rest)
  end.

(** The second loop, from the counter [cnt] and the three new tables. *)
Fixpoint trim_fill (old : gmap string Z) (ws : list string) (cnt : nat)
    (w2i : gmap string nat) (i2w : gmap nat string) (w2c : gmap string Z)
    : result (nat * gmap string nat * gmap nat string * gmap string Z) :=
  match ws with
  | [] => Ok (cnt, w2i, i2w, w2c)
  | w :: r =>
      c ← getitem old w;
      trim_fill old r (S cnt) (<[w := cnt]> w2i) (<[cnt := w]> i2w) (<[w := c]> w2c)
  end.

(** The third loop: [embed.append(self.embed[i])]. *)
Fixpoint trim_rows (em : list E) (ids : list nat) : result (list E) :=
  match ids with
  | [] => Ok []
  | i :: r => e ← getindex em i; rest ← trim_rows em r; Ok (e :: rest)
  end.

(** [trim] replaces the three tables and the embedding list; it does not
    assign [next_idx]. *)
Definition trim (v : @Vocab E) : result (@Vocab E * list E) :=
  '(reserved_words, reserved_idx) ← trim_scan v (seq 0 (next_idx v));
  '(cnt, w2i, i2w, w2c) ← trim_fill (word2cnt v) reserved_words 0 ∅ ∅ ∅;
  em ← trim_rows (embed v) reserved_idx;
  if bool_decide (size w2i = size i2w ∧ size i2w = size w2c ∧ size w2c = length em)
  then Ok ({| args := args v; embed := em; next_idx := next_idx v;
              word2id := w2i; id2word := i2w; word2cnt := w2c |}, em)
  else Raise AssertionError.

End build.

End MemVocab.

(** * code/seq2seqCopyAttr/models_linear.py

    One row of the batch dimension: every tensor operation of
    [decode_step] and [Attention.forward] works on the rows of a batch
    independently.  The scalar type [T] and its operations are abstract. *)

Module Model.

Section model.
Context {T : Type}.
Variables (zero one neg_inf : T).
Variables (add sub mul div : T → T → T).
Variables (exp tanh sigmoid : T → T).
(** [x == float('-inf')] *)
Variable is_neg_inf : T → bool.
(** [nn.Dropout] and [nn.GRU] on one input step. *)
Variable dropout : list T → list T.
Variable gru : list T → list (list T) → list T * list (list T).

Definition vsum (xs : list T) : T := foldl add zero xs.
Definition dot (xs ys : list T) : T := vsum (zip_with mul xs ys).

(** [nn.Linear]: one weight row per output feature. *)
Record Linear := {
  weight : list (list T);
  bias : option (list T)
}.

Definition linear (l : Linear) (x : list T) : list T :=
  let y := (λ row, dot row x) <$> weight l in
  match bias l with
  | None => y
  | Some b => zip_with add y b
  end.

(** [nn.Linear(n, 1)] *)
Record Linear1 := {
  weight1 : list T;
  bias1 : T
}.

Definition linear1 (l : Linear1) (x : list T) : T :=
  add (dot (weight1 l) x) (bias1 l).

(** [F.softmax(x, dim=-1)] *)
Definition softmax (xs : list T) : list T :=
  let es := exp <$> xs in (λ e, div e (vsum es)) <$> es.

(** *** [Attention] *)

Record Attention := {
  key_layer : Linear;
  query_layer : Linear;
  energy_layer : list T   (* nn.Linear(hidden_size, 1, bias=False) *)
}.

(** [scores.masked_fill_(mask == 0, -inf)] *)
Definition masked_fill (scores : list T) (mask : option (list nat)) : result (list T) :=
  match mask with
  | None => Ok scores
  | Some m =>
      if bool_decide (length m = length scores)
      then Ok (zip_with (λ (k : nat) s, if bool_decide (k = 0) then neg_inf else s) m scores)
      else Raise RuntimeError
  end.

(** [torch.bmm(alphas, value)]: the sum of the value rows weighted by
    [alphas], over [width] columns. *)
Definition weighted_sum (alphas : list T) (value : list (list T)) : list T :=
  foldl (zip_with add) (replicate (length (default [] (head value))) zero)
    (zip_with (λ a row, mul a <$> row) alphas value).

Definition attention_forward (att : Attention) (query : list T)
    (proj_key value : list (list T)) (mask : option (list nat))
    : result (list T * list T) :=
  let q := linear (query_layer att) query in
  let scores := (λ k, dot (energy_layer att) (tanh <$> zip_with add q k)) <$> proj_key in
  scores' ← masked_fill scores mask;
  let alphas := softmax scores' in
  Ok (weighted_sum alphas value, alphas).

(** *** [EncoderDecoder.decode_step] *)

Record Decoder := {
  attention : Attention;
  attention_attr : Attention;
  context_hidden_layer : Linear;
  gen_p_layer : Linear1;
  generator : Linear
}.

(** The zero padding of the generation distribution. *)
Definition pad_gen (vocab_size : nat) (gen_prob : list T) : list T :=
  if bool_decide (length gen_prob < vocab_size)
  then gen_prob ++ replicate (vocab_size - length gen_prob) zero
  else gen_prob.

(** [acc.scatter_add(dim, index, src)] along the last dimension. *)
Fixpoint scatter_add (acc : list T) (index : list nat) (vals : list T)
    : result (list T) :=
  match index with
  | [] => Ok acc
  | i :: index' =>
      match vals with
      | [] => Raise RuntimeError
      | x :: vals' =>
          match acc !! i with
          | None => Raise RuntimeError
          | Some a => scatter_add (<[i := add a x]> acc) index' vals'
          end
      end
  end.

Definition copy_dist (vocab_size : nat) (src : list nat) (attn_probs : list T)
    : result (list T) :=
  scatter_add (replicate vocab_size zero) src attn_probs.

(** Elementwise [x + y] with broadcasting of a dimension of size one. *)
Definition bcast_add (xs ys : list T) : result (list T) :=
  if bool_decide (length xs = length ys) then Ok (zip_with add xs ys)
  else match xs, ys with
       | [x], _ => Ok (add x <$> ys)
       | _, [y] => Ok ((λ x, add x y) <$> xs)
       | _, _ => Raise RuntimeError
       end.

(** [gen_p * gen_prob + (1 - gen_p) * copy_prob] *)
Definition mix (gen_p : T) (gen_prob copy_prob : list T) : result (list T) :=
  bcast_add (mul gen_p <$> gen_prob) (mul (sub one gen_p) <$> copy_prob).

(** The quantities a decode step computes from the decoder state. *)
Record StepTrace := {
  st_hidden : list (list T);
  st_query : list T;
  st_context : list T;
  st_attn_probs : list T;
  st_context_attr : list T;
  st_context_hidden : list T
}.

Definition step_trace (d : Decoder) (prev_embed : list T)
    (encoder_hidden : list (list T)) (src_mask : list nat)
    (proj_key encoder_attr proj_key_attr hidden : list (list T))
    (context_hidden : list T) : result StepTrace :=
  let rnn_input := prev_embed ++ context_hidden in
  let '(_, hidden') := gru rnn_input hidden in
  query ← match last hidden' with Some q => Ok q | None => Raise IndexError end;
  '(context, attn_probs) ←
    attention_forward (attention d) query proj_key encoder_hidden (Some src_mask);
  '(context_attr, _) ←
    attention_forward (attention_attr d) query proj_key_attr encoder_attr None;
  Ok {| st_hidden := hidden'; st_query := query; st_context := context;
        st_attn_probs := attn_probs; st_context_attr := context_attr;
        st_context_hidden :=
          tanh <$> linear (context_hidden_layer d) (query ++ context ++ context_attr) |}.

Definition gen_dist (d : Decoder) (vocab_size : nat) (s : StepTrace) : list T :=
  pad_gen vocab_size (softmax (linear (generator d) (dropout (st_context_hidden s)))).

Definition gate (d : Decoder) (prev_embed : list T) (s : StepTrace) : T :=
  sigmoid (linear1 (gen_p_layer d)
             (st_context s ++ st_context_attr s ++ st_query s ++ prev_embed)).

Definition decode_step (d : Decoder) (src : list nat) (prev_embed : list T)
    (encoder_hidden : list (list T)) (src_mask : list nat)
    (proj_key encoder_attr proj_key_attr hidden : list (list T))
    (context_hidden : list T) (vocab_size : nat)
    : result (list (list T) * list T * list T) :=
  s ← step_trace d prev_embed encoder_hidden src_mask proj_key encoder_attr
        proj_key_attr hidden context_hidden;
  let gen_prob := gen_dist d vocab_size s in
  copy_prob ← copy_dist vocab_size src (st_attn_probs s);
  let gen_p := gate d prev_embed s in
  mix_prob ← mix gen_p gen_prob copy_prob;
  Ok (st_hidden s, st_context_hidden s, mix_prob).

(** *** [myNLLLoss.forward]

    The outcome is the text printed and the value returned; [exit()]
    is the outcome [Exited]. *)

Inductive outcome :=
| Returned (rst : T)
| Exited (stdout : list string)
| Raised (e : exn).

Fixpoint nll_loop (rst : T) (output : list (list T)) (target : list nat) : outcome :=
  match output, target with
  | dis :: output', idx :: target' =>
      if bool_decide (idx = 0) then nll_loop rst output' target'
      else match dis !! idx with
           | None => Raised IndexError
           | Some x =>
               if is_neg_inf x then Exited ["error!"]
               else nll_loop (sub rst x) output' target'
           end
  | _, _ => Returned rst
  end.

Definition myNLLLoss (output : list (list T)) (target : list nat) : outcome :=
  nll_loop zero output target.

End model.

End Model.

(** * Invariants and well-formed inputs *)

(** [r1] has at least as many tokens as [r2]. *)
Definition by_token_count (r1 r2 : string) : Prop :=
  length (split r2) ≤ length (split r1).

(** ** Word tables

    [wordmaps n w2i i2w]: the two directions list the same [n] words,
    with the ids [0 .. n-1].  [counted f w2i w2c]: the words that have a
    frequency are those with an id below [f]. *)

Record wordmaps (n : nat) (w2i : gmap string nat) (i2w : gmap nat string) : Prop := {
  wm_bij : ∀ w i, w2i !! w = Some i ↔ i2w !! i = Some w;
  wm_dom : ∀ i, is_Some (i2w !! i) ↔ i < n;
  wm_size_w2i : size w2i = n;
  wm_size_i2w : size i2w = n
}.

Record counted (f : nat) (w2i : gmap string nat) (w2c : gmap string Z) : Prop := {
  ct_dom : ∀ w, is_Some (w2c !! w) ↔ ∃ i, w2i !! w = Some i ∧ i < f;
  ct_size : size w2c = f
}.

(** ** States of the copy vocabulary *)

Section copy_states.
Import CopyVocab.
Context {E : Type}.
Variable normal : nat → nat → E.
Implicit Types v : @Vocab E.

(** Every word has a frequency and an embedding row. *)
Definition full v : Prop :=
  wordmaps (word_num v) (word2id v) (id2word v)
  ∧ counted (word_num v) (word2id v) (word2cnt v)
  ∧ length (embed v) = word_num v.

(** A full state whose dynamic segment is empty. *)
Definition synced v : Prop := full v ∧ fixed_num v = word_num v.

(** The words below [fixed_num] have a frequency and a row, the words
    from [fixed_num] on are the dynamic segment. *)
Definition consistent v : Prop :=
  wordmaps (word_num v) (word2id v) (id2word v)
  ∧ counted (fixed_num v) (word2id v) (word2cnt v)
  ∧ length (embed v) = fixed_num v
  ∧ fixed_num v ≤ word_num v.

Definition reserved : list (nat * string) :=
  [(PAD_IDX, PAD_TOKEN); (SOS_IDX, SOS_TOKEN); (EOS_IDX, EOS_TOKEN); (UNK_IDX, UNK_TOKEN)].

(** The reserved tokens hold the ids 0 to 3 with their inflated counts. *)
Definition reserved_ok v : Prop :=
  ∀ i tok, (i, tok) ∈ reserved →
    id2word v !! i = Some tok
    ∧ ∃ c, word2cnt v !! tok = Some c ∧ (RESERVED_CNT ≤ c)%Z.

(** [v'] differs from [v] in the dynamic segment only: the counter
    and the two word tables. *)
Definition same_fixed v v' : Prop :=
  v' = with_words v (embed v) (word_num v') (fixed_num v)
         (word2id v') (id2word v') (word2cnt v).

(** [v'] is [v] with more dynamic words, every one of them from [toks]. *)
Definition grows (toks : list string) v v' : Prop :=
  same_fixed v v'
  ∧ word2id v ⊆ word2id v' ∧ id2word v ⊆ id2word v'
  ∧ (∀ w, w ∈ toks → is_Some (word2id v' !! w))
  ∧ ∀ i w, id2word v' !! i = Some w →
      id2word v !! i = Some w ∨ (w ∈ toks ∧ word_num v ≤ i).

(** A batch: parallel lists, at least one example. *)
Definition batch_ok (b : Batch) : Prop :=
  reviewText b ≠ [] ∧ length (reviewText b) = length (summary b).

(** The states of the corpus scan: construction, [add_sentence],
    [add_user], [add_product] and [trim]. *)
Inductive built : Vocab → Prop :=
| built_init a pre : built (init normal a pre)
| built_add_sentence v sent v' :
    built v → add_sentence normal v sent = Ok v' → built v'
| built_add_user v user : built v → built (add_user v user)
| built_add_product v product : built v → built (add_product v product)
| built_trim v v' em : built v → trim v = Ok (v', em) → built v'.

(** The states between batches, once [read_batch] has been called. *)
Inductive running : Vocab → Prop :=
| running_first v b v' t : built v → read_batch v b = Ok (v', t) → running v'
| running_next v b v' t : running v → read_batch v b = Ok (v', t) → running v'.
End copy_states.

(** ** Inputs of the memory tensoriser *)

Section mem_inputs.
Import MemVocab.
Context {E : Type}.
Implicit Types v : @Vocab E.

(** The entries of example [i] that survive the truncation, in order. *)
Definition retained_pieces v (b : Batch) (i : nat) : list MemPiece :=
  match product_review b !! i, user_review b !! i with
  | Some pr, Some ur =>
      match retained (mem_size (args v)) (pr ++ ur) with
      | Ok kept => kept.*2
      | Raise _ => []
      end
  | _, _ => []
  end.

(** The entry points to an example of another user and another product. *)
Definition foreign (train_data : list Example) (user product : string)
    (p : MemPiece) : Prop :=
  ∃ k ex, getindexZ p 0 = Ok k ∧ getindexZ train_data k = Ok ex
    ∧ ex_userID ex ≠ user ∧ ex_productID ex ≠ product.

Definition ownership_violation v (b : Batch) (train_data : list Example) : Prop :=
  ∃ i user product p,
    userID b !! i = Some user ∧ productID b !! i = Some product
    ∧ p ∈ retained_pieces v b i ∧ foreign train_data user product p.

(** A well-formed entry: at least three fields, the first a valid index. *)
Definition piece_ok (train_data : list Example) (p : MemPiece) : Prop :=
  3 ≤ length p
  ∧ ∃ k ex, p !! 0 = Some k ∧ getindexZ train_data k = Ok ex.

(** A well-formed batch: six parallel lists, at least one example, and
    well-formed memory entries. *)
Definition mem_batch_ok (b : Batch) (train_data : list Example) : Prop :=
  reviewText b ≠ []
  ∧ length (summary b) = length (reviewText b)
  ∧ length (userID b) = length (reviewText b)
  ∧ length (productID b) = length (reviewText b)
  ∧ length (product_review b) = length (reviewText b)
  ∧ length (user_review b) = length (reviewText b)
  ∧ Forall (Forall (piece_ok train_data)) (product_review b)
  ∧ Forall (Forall (piece_ok train_data)) (user_review b).

(** All four lists of [rows] have length [n]. *)
Definition rows_len (n : nat) (rows : MemRows) : Prop :=
  length (mem_up rows) = n ∧ length (mem_review rows) = n
  ∧ length (mem_sum rows) = n ∧ length (mem_gold rows) = n.

(** The only word with the id of EOS is the EOS token. *)
Definition eos_unique v : Prop :=
  ∀ w, word2id v !! w = Some EOS_IDX → w = EOS_TOKEN.
End mem_inputs.

(** ** Quantities of the decoder step and of the loss *)

Section spec_model.
Context {T : Type}.

(** The attention weights that [scatter_add] adds at [id], in order. *)
Fixpoint masses (id : nat) (index : list nat) (vals : list T) : list T :=
  match index, vals with
  | i :: index', x :: vals' =>
      if decide (i = id) then x :: masses id index' vals' else masses id index' vals'
  | _, _ => []
  end.

(** The positions that are not padding, each distribution with its
    gold index. *)
Definition scored (output : list (list T)) (target : list nat) : list (list T * nat) :=
  filter (λ p, p.2 ≠ 0) (zip output target).
End spec_model.

(** ** Example inputs *)

Definition demo_args : CopyVocab.Args :=
  {| CopyVocab.embed_dim := 1; CopyVocab.word_min_cnt := 1; CopyVocab.sum_max_len := 2 |}.

Definition demo_normal (dim n : nat) : nat := n.

Definition demo_vocab : CopyVocab.Vocab := CopyVocab.init demo_normal demo_args None.

Definition demo_batch : CopyVocab.Batch :=
  {| CopyVocab.reviewText := ["good x"%string];
     CopyVocab.summary := ["<EOS> x"%string];
     CopyVocab.userID := ["u"%string];
     CopyVocab.productID := ["p"%string] |}.

Definition demo_read : CopyVocab.Vocab * CopyVocab.Tensors :=
  match CopyVocab.read_batch demo_vocab demo_batch with
  | Ok r => r
  | Raise _ => (demo_vocab, CopyVocab.tensors demo_vocab demo_batch 0)
  end.

(** The vocabulary of the sentence [a b c], pruned with the threshold 1,
    and a batch whose source holds the unknown word [x]. *)
Definition abc_args : CopyVocab.Args :=
  {| CopyVocab.embed_dim := 1; CopyVocab.word_min_cnt := 1; CopyVocab.sum_max_len := 4 |}.

Definition abc_vocab : CopyVocab.Vocab :=
  match CopyVocab.add_sentence demo_normal (CopyVocab.init demo_normal abc_args None)
          ["a"%string; "b"%string; "c"%string] with
  | Ok v => match CopyVocab.trim v with Ok r => r.1 | Raise _ => v end
  | Raise _ => CopyVocab.init demo_normal abc_args None
  end.

Definition abc_batch : CopyVocab.Batch :=
  {| CopyVocab.reviewText := ["a b x"%string];
     CopyVocab.summary := ["x y"%string];
     CopyVocab.userID := ["u"%string];
     CopyVocab.productID := ["p"%string] |}.

(** Three examples for the vocabulary of [a b c]: the longest review
    stands in the middle, one summary is longer than [sum_max_len] and
    two are shorter. *)
Definition pad_batch : CopyVocab.Batch :=
  {| CopyVocab.reviewText := ["a x"%string; "a b c y"%string; "b"%string];
     CopyVocab.summary := ["a"%string; "x y z w v"%string; "b c"%string];
     CopyVocab.userID := ["u"%string; "v"%string; "w"%string];
     CopyVocab.productID := ["p"%string; "q"%string; "r"%string] |}.

Definition pad_read : CopyVocab.Vocab * CopyVocab.Tensors :=
  match CopyVocab.read_batch abc_vocab pad_batch with
  | Ok r => r
  | Raise _ => (abc_vocab, CopyVocab.tensors abc_vocab pad_batch 0)
  end.

Definition strict_args : CopyVocab.Args :=
  {| CopyVocab.embed_dim := 1; CopyVocab.word_min_cnt := 10001; CopyVocab.sum_max_len := 2 |}.

Definition mem_args : MemVocab.Args :=
  {| MemVocab.embed_dim := 2; MemVocab.word_min_cnt := 1; MemVocab.sum_max_len := 3;
     MemVocab.review_max_len := 4; MemVocab.mem_size := 2 |}.

Definition mem_vocab : @MemVocab.Vocab nat :=
  {| MemVocab.args := mem_args; MemVocab.embed := [0; 1; 2; 3; 4; 5];
     MemVocab.next_idx := 6;
     MemVocab.word2id :=
       list_to_map [(PAD_TOKEN, 0); (SOS_TOKEN, 1); (EOS_TOKEN, 2); (UNK_TOKEN, 3);
                    ("a"%string, 4); ("b"%string, 5)];
     MemVocab.id2word :=
       list_to_map [(0, PAD_TOKEN); (1, SOS_TOKEN); (2, EOS_TOKEN); (3, UNK_TOKEN);
                    (4, "a"%string); (5, "b"%string)];
     MemVocab.word2cnt :=
       list_to_map [(PAD_TOKEN, 10000%Z); (SOS_TOKEN, 10000%Z); (EOS_TOKEN, 10000%Z);
                    (UNK_TOKEN, 10000%Z); ("a"%string, 3%Z); ("b"%string, 2%Z)] |}.

Definition mem_corpus : list MemVocab.Example :=
  [ {| MemVocab.ex_reviewText := "a b a"; MemVocab.ex_summary := "b";
       MemVocab.ex_userID := "u1"; MemVocab.ex_productID := "p9" |};
    {| MemVocab.ex_reviewText := "b b"; MemVocab.ex_summary := "a a a a";
       MemVocab.ex_userID := "u7"; MemVocab.ex_productID := "p1" |};
    {| MemVocab.ex_reviewText := "zz"; MemVocab.ex_summary := "a";
       MemVocab.ex_userID := "u7"; MemVocab.ex_productID := "p9" |} ].

(** Two examples; the first has three memory entries, the second none. *)
Definition mem_batch : MemVocab.Batch :=
  {| MemVocab.reviewText := ["a b"%string; "a b c d"%string];
     MemVocab.summary := ["a"%string; "b b b b"%string];
     MemVocab.userID := ["u1"%string; "u2"%string];
     MemVocab.productID := ["p1"%string; "p2"%string];
     MemVocab.product_review := [[[1; 5; 7; 0]%Z]; []];
     MemVocab.user_review := [[[0; 3; 1; 0]%Z; [0; 9; 2; 0]%Z]; []] |}.

(** One example whose only entry points to a review of another user
    about another product. *)
Definition bad_batch : MemVocab.Batch :=
  {| MemVocab.reviewText := ["a b"%string];
     MemVocab.summary := ["a"%string];
     MemVocab.userID := ["u1"%string];
     MemVocab.productID := ["p1"%string];
     MemVocab.product_review := [[[2; 5; 7; 0]%Z]];
     MemVocab.user_review := [[]] |}.

Definition mem_tensors : MemVocab.Tensors :=
  match MemVocab.make_tensors mem_vocab mem_batch mem_corpus with
  | Ok t => t
  | Raise _ =>
      {| MemVocab.src := []; MemVocab.trg := []; MemVocab.mem := MemVocab.rows_nil;
         MemVocab.src_text := []; MemVocab.trg_text := [] |}
  end.

(** A decoder over the integers: two source positions that hold the same
    id, a generator with two outputs, a vocabulary of four ids. *)
Definition toy_attention : Model.Attention :=
  {| Model.key_layer := {| Model.weight := [[1%Z]]; Model.bias := None |};
     Model.query_layer := {| Model.weight := [[1%Z]]; Model.bias := None |};
     Model.energy_layer := [1%Z] |}.

Definition toy_decoder : Model.Decoder :=
  {| Model.attention := toy_attention;
     Model.attention_attr := toy_attention;
     Model.context_hidden_layer :=
       {| Model.weight := [[1; 1; 1]%Z]; Model.bias := None |};
     Model.gen_p_layer := {| Model.weight1 := [1; 0; 0; 0]%Z; Model.bias1 := 0%Z |};
     Model.generator := {| Model.weight := [[1%Z]; [2%Z]]; Model.bias := None |} |}.

Definition toy_gru (x : list Z) (h : list (list Z)) : list Z * list (list Z) := (x, [[1%Z]]).

(** ** Definitions for the further properties *)

(** ** Frequencies *)

(** How often [w] occurs in [sent]. *)
Definition occurrences (w : string) (sent : list string) : nat :=
  length (filter (λ x, x = w) sent).

(** The frequency of a word after [n] more occurrences. *)
Definition bumped (n : nat) (c : option Z) : option Z :=
  match c with
  | Some c => Some (c + Z.of_nat n)%Z
  | None => if decide (n = 0) then None else Some (Z.of_nat n)
  end.

(** ** What [trim] keeps *)

(** The word with the id [i] has a frequency of at least [word_min_cnt]. *)
Definition frequent {E : Type} (v : @CopyVocab.Vocab E) (i : nat) : Prop :=
  ∃ w c, CopyVocab.id2word v !! i = Some w ∧ CopyVocab.word2cnt v !! w = Some c
    ∧ (CopyVocab.word_min_cnt (CopyVocab.args v) ≤ c)%Z.

(** ** Pretrained words and registries *)

(** [w] is one of the four reserved tokens. *)
Definition is_reserved (w : string) : Prop :=
  w ∈ [PAD_TOKEN; SOS_TOKEN; EOS_TOKEN; UNK_TOKEN].

(** The order of [sorted(embed.keys())] on the items. *)
Definition key_le {E : Type} (a b : string * E) : Prop := String.le a.1 b.1.

(** The two registries list their names under the ids below their
    counters, with the unknown name at 0. *)
Definition registries_ok {E : Type} (v : @CopyVocab.Vocab E) : Prop :=
  wordmaps (CopyVocab.user_num v) (CopyVocab.user2id v) (CopyVocab.id2user v)
  ∧ CopyVocab.id2user v !! 0 = Some "<UNK-USER>"%string
  ∧ wordmaps (CopyVocab.product_num v) (CopyVocab.product2id v) (CopyVocab.id2product v)
  ∧ CopyVocab.id2product v !! 0 = Some "<UNK-PRODUCT>"%string.

(** ** Ties of the descending sort *)

(** [a] stands before [b] after a stable descending sort of a list in
    which [R] relates every element to the later ones. *)
Definition stable_desc {A : Type} (key : A → Z) (R : relation A) (a b : A) : Prop :=
  (key b < key a)%Z ∨ (key a = key b ∧ R a b).

(** The batch without the reviews that [zip] never pairs with a summary. *)
Definition clip (b : CopyVocab.Batch) : CopyVocab.Batch :=
  {| CopyVocab.reviewText := take (length (CopyVocab.summary b)) (CopyVocab.reviewText b);
     CopyVocab.summary := CopyVocab.summary b;
     CopyVocab.userID := CopyVocab.userID b;
     CopyVocab.productID := CopyVocab.productID b |}.

(** Two reviews of two tokens around one of three, and a spare review. *)
Definition tie_batch : CopyVocab.Batch :=
  {| CopyVocab.reviewText := ["a b"%string; "c d e"%string; "f g"%string; "h"%string];
     CopyVocab.summary := ["s1"%string; "s2"%string; "s3"%string];
     CopyVocab.userID := ["u"%string; "<UNK-USER>"%string; "w"%string];
     CopyVocab.productID := ["p"%string; "q"%string; "r"%string] |}.

(** ** The memory vocabulary seen as a copy vocabulary *)

Definition copy_args (a : MemVocab.Args) : CopyVocab.Args :=
  {| CopyVocab.embed_dim := MemVocab.embed_dim a;
     CopyVocab.word_min_cnt := MemVocab.word_min_cnt a;
     CopyVocab.sum_max_len := MemVocab.sum_max_len a |}.

(** The word tables of [v] with [next_idx] as the word counter, [f] as
    the size of the fixed segment, and the registries of a new
    vocabulary. *)
Definition as_copy_at {E : Type} (f : nat) (v : @MemVocab.Vocab E) : @CopyVocab.Vocab E :=
  {| CopyVocab.args := copy_args (MemVocab.args v);
     CopyVocab.embed := MemVocab.embed v;
     CopyVocab.word_num := MemVocab.next_idx v;
     CopyVocab.fixed_num := f;
     CopyVocab.word2id := MemVocab.word2id v;
     CopyVocab.id2word := MemVocab.id2word v;
     CopyVocab.word2cnt := MemVocab.word2cnt v;
     CopyVocab.user_num := 1;
     CopyVocab.user2id := {[ "<UNK-USER>"%string := 0 ]};
     CopyVocab.id2user := {[ 0 := "<UNK-USER>"%string ]};
     CopyVocab.product_num := 1;
     CopyVocab.product2id := {[ "<UNK-PRODUCT>"%string := 0 ]};
     CopyVocab.id2product := {[ 0 := "<UNK-PRODUCT>"%string ]} |}.

Definition as_copy {E : Type} (v : @MemVocab.Vocab E) : @CopyVocab.Vocab E :=
  as_copy_at (MemVocab.next_idx v) v.

(** Every word of the memory vocabulary has a frequency and a row, and
    [next_idx] is the number of words. *)
Definition mem_full {E : Type} (v : @MemVocab.Vocab E) : Prop := full (as_copy v).

(** The tables of [v'] are those of [c]. *)
Definition same_tables {E : Type} (v' : @MemVocab.Vocab E) (c : @CopyVocab.Vocab E) : Prop :=
  MemVocab.embed v' = CopyVocab.embed c
  ∧ MemVocab.word2id v' = CopyVocab.word2id c
  ∧ MemVocab.id2word v' = CopyVocab.id2word c
  ∧ MemVocab.word2cnt v' = CopyVocab.word2cnt c.

(** The memory vocabulary of the sentence [a b a c], before pruning with
    the threshold 2. *)
Definition mem_build_args : MemVocab.Args :=
  {| MemVocab.embed_dim := 1; MemVocab.word_min_cnt := 2; MemVocab.sum_max_len := 3;
     MemVocab.review_max_len := 4; MemVocab.mem_size := 2 |}.

Definition mem_scanned : @MemVocab.Vocab nat :=
  match MemVocab.add_sentence demo_normal (MemVocab.init demo_normal mem_build_args None)
          ["a"%string; "b"%string; "a"%string; "c"%string] with
  | Ok v => v
  | Raise _ => MemVocab.init demo_normal mem_build_args None
  end.

(** An exponential over the integers for the examples: [-1000], which
    stands for minus infinity, goes to 0. *)
Definition toy_exp (x : Z) : Z := if (x =? -1000)%Z then 0%Z else 1%Z.

(** The attention score of one key: [energy_layer(tanh(query_layer(query) + key))]. *)
Definition key_score {T : Type} (zero : T) (add mul : T → T → T) (tanh : T → T)
    (att : @Model.Attention T) (query key : list T) : T :=
  Model.dot zero add mul (Model.energy_layer att)
    (tanh <$> zip_with add (Model.linear zero add mul (Model.query_layer att) query) key).

(** ** The decoder loop of [EncoderDecoder.forward]

    One example of the batch.  The loop reads what the encoder part of
    [forward] has computed and does not change it. *)

Record Encoded {T : Type} := {
  enc_src : list nat;
  enc_hidden : list (list T);
  enc_mask : list nat;
  enc_proj_key : list (list T);
  enc_attr : list (list T);
  enc_proj_key_attr : list (list T);
  enc_vocab_size : nat
}.
Arguments Encoded : clear implicits.

Section decoder_loop.
Context {T : Type}.
Variables (zero one neg_inf : T).
Variables (add sub mul div : T → T → T).
Variables (exp tanh sigmoid : T → T).
Variable dropout : list T → list T.
Variable gru : list T → list (list T) → list T * list (list T).
(** [torch.argmax(x, dim=-1)] *)
Variable argmax : list T → nat.

(** [nn.Embedding] on one index. *)
Definition embedding (table : list (list T)) (i : nat) : result (list T) :=
  getindex table i.

(** [self.embed(trg_)] on one row. *)
Fixpoint embed_row (table : list (list T)) (ids : list nat) : result (list (list T)) :=
  match ids with
  | [] => Ok []
  | i :: r => e ← embedding table i; rest ← embed_row table r; Ok (e :: rest)
  end.

(** The index of the last prediction, with an id outside the embedding
    table replaced by UNK. *)
Definition feed_idx (embed_num : nat) (word_prob : list T) : nat :=
  let prev_idx := argmax word_prob in
  if bool_decide (embed_num ≤ prev_idx) then UNK_IDX else prev_idx.

(** [prev_embed] at step [i]. *)
Definition prev_embed_of (test : bool) (table : list (list T)) (embed_num : nat)
    (trg_embed outs : list (list T)) (i : nat) : result (list T) :=
  match i with
  | 0 => embedding table SOS_IDX
  | S i' =>
      if test then
        match last outs with
        | Some word_prob => embedding table (feed_idx embed_num word_prob)
        | None => Raise IndexError
        end
      else getindex trg_embed i'
  end.

(** [n] rounds of the loop from step [i]. *)
Fixpoint unroll (d : Model.Decoder) (test : bool) (table : list (list T))
    (embed_num : nat) (enc : Encoded T) (trg_embed : list (list T)) (n i : nat)
    (hidden : list (list T)) (context_hidden : list T) (outs : list (list T))
    : result (list (list T)) :=
  match n with
  | 0 => Ok outs
  | S n' =>
      prev_embed ← prev_embed_of test table embed_num trg_embed outs i;
      '(hidden', context_hidden', word_prob) ←
        Model.decode_step zero one neg_inf add sub mul div exp tanh sigmoid dropout gru d
          (enc_src enc) prev_embed (enc_hidden enc) (enc_mask enc) (enc_proj_key enc)
          (enc_attr enc) (enc_proj_key_attr enc) hidden context_hidden
          (enc_vocab_size enc);
      unroll d test table embed_num enc trg_embed n' (S i) hidden' context_hidden'
        (outs ++ [word_prob])
  end.

(** From [trg_embed = self.embed(trg_)] to the end of [forward].
    [torch.cat] refuses an empty list. *)
Definition decoder_loop (d : Model.Decoder) (test : bool) (table : list (list T))
    (embed_num max_len : nat) (enc : Encoded T) (trg_ : list nat)
    (hidden : list (list T)) : result (list (list T)) :=
  trg_embed ← embed_row table trg_;
  context_hidden ← match last hidden with Some h => Ok h | None => Raise IndexError end;
  outs ← unroll d test table embed_num enc trg_embed max_len 0 hidden context_hidden [];
  match outs with [] => Raise RuntimeError | _ => Ok outs end.

End decoder_loop.

(** The inputs of a decoding step fit together: one mask entry, one
    key, one encoder state and one id per source position, one key per
    attribute row, every source id below the vocabulary size. *)
Definition encoded_ok {T : Type} (enc : Encoded T) : Prop :=
  length (enc_mask enc) = length (enc_proj_key enc)
  ∧ length (enc_hidden enc) = length (enc_proj_key enc)
  ∧ length (enc_attr enc) = length (enc_proj_key_attr enc)
  ∧ length (enc_src enc) = length (enc_proj_key enc)
  ∧ ∀ id, id ∈ enc_src enc → id < enc_vocab_size enc.

(** An example over the integers: four embedding rows, two source
    positions of which the second holds an id of the dynamic segment. *)
Definition toy_table : list (list Z) := [[0%Z]; [1%Z]; [2%Z]; [3%Z]].

Definition toy_encoded : Encoded Z :=
  {| enc_src := [3; 5]; enc_hidden := [[1%Z]; [2%Z]]; enc_mask := [1; 1];
     enc_proj_key := [[1%Z]; [2%Z]]; enc_attr := [[1%Z]]; enc_proj_key_attr := [[1%Z]];
     enc_vocab_size := 6 |}.

(** ** Shapes of the memory rows

    Every flag row has two entries, 0 or 1; every id row has the length
    given and holds ids below [n]. *)
Definition id_row (len n : nat) (row : list nat) : Prop :=
  length row = len ∧ Forall (λ i, i < n) row.

Definition rows_wf {E : Type} (v : @MemVocab.Vocab E) (n : nat)
    (rows : MemVocab.MemRows) : Prop :=
  Forall (λ f, length f = 2 ∧ Forall (λ x, x ≤ 1) f) (MemVocab.mem_up rows)
  ∧ Forall (id_row (MemVocab.review_max_len (MemVocab.args v)) n) (MemVocab.mem_review rows)
  ∧ Forall (id_row (MemVocab.sum_max_len (MemVocab.args v)) n) (MemVocab.mem_sum rows).

(** The only exceptions of [r] are those of a list index and of [assert]. *)
Definition index_or_assertion {A : Type} (r : result A) : Prop :=
  ∀ e, r = Raise e → e = IndexError ∨ e = AssertionError.

(** * Facts *)

(** ** The stable descending sort *)

Section sort_facts.
Context {A : Type} (key : A → Z).

Lemma insert_desc_perm x l : insert_desc key x l ≡ₚ x :: l.
Proof.
  induction l as [|y l IH]; simpl; [done|].
  destruct (key x <? key y)%Z; [|done].
  rewrite IH. apply Permutation_swap.
Qed.

Lemma sort_desc_perm l : sort_desc key l ≡ₚ l.
Proof.
  induction l as [|x l IH]; simpl; [done|].
  fold (sort_desc key l). by rewrite insert_desc_perm, IH.
Qed.

Lemma sort_desc_length l : length (sort_desc key l) = length l.
Proof. by rewrite sort_desc_perm. Qed.

Lemma insert_desc_sorted x l :
  StronglySorted (desc key) l → StronglySorted (desc key) (insert_desc key x l).
Proof.
  induction 1 as [|y l Hl IH Hy]; simpl.
  - repeat constructor.
  - destruct (key x <? key y)%Z eqn:Hxy.
    + constructor; [done|].
      rewrite insert_desc_perm. constructor; [|done].
      unfold desc. apply Z.ltb_lt in Hxy. lia.
    + apply Z.ltb_ge in Hxy.
      constructor; [by constructor|].
      constructor; [done|].
      eapply Forall_impl; [exact Hy|]. unfold desc. intros; lia.
Qed.

Lemma sort_desc_sorted l : StronglySorted (desc key) (sort_desc key l).
Proof.
  induction l as [|x l IH]; simpl; [constructor|].
  by apply insert_desc_sorted.
Qed.

(** The head of the sorted list carries the largest key. *)
Lemma sort_desc_head_max l x r y :
  sort_desc key l = x :: r → y ∈ l → (key y ≤ key x)%Z.
Proof.
  intros Hs Hy.
  pose proof (sort_desc_sorted l) as Hsorted. rewrite Hs in Hsorted.
  rewrite <- (sort_desc_perm l), Hs in Hy.
  apply StronglySorted_inv in Hsorted as [_ Hall].
  apply elem_of_cons in Hy as [->|Hy]; [lia|].
  rewrite Forall_forall in Hall. by apply Hall.
Qed.
End sort_facts.

(** ** Results *)

Lemma bind_Ok {A B} (m : result A) (f : A → result B) b :
  m ≫= f = Ok b ↔ ∃ a, m = Ok a ∧ f a = Ok b.
Proof.
  destruct m as [a|e]; simpl.
  - split; [eauto|]. by intros (? & [= <-] & ?).
  - split; [done|]. by intros (? & ? & ?).
Qed.

Lemma getitem_Ok `{Countable K} {V} (d : gmap K V) k x :
  getitem d k = Ok x ↔ d !! k = Some x.
Proof. unfold getitem. destruct (d !! k); naive_solver. Qed.

Lemma getindex_Ok {A} (l : list A) i x :
  getindex l i = Ok x ↔ l !! i = Some x.
Proof. unfold getindex. destruct (l !! i); naive_solver. Qed.

Lemma getitem_Some `{Countable K} {V} (d : gmap K V) k x :
  d !! k = Some x → getitem d k = Ok x.
Proof. apply getitem_Ok. Qed.

Lemma getindex_Some {A} (l : list A) i x :
  l !! i = Some x → getindex l i = Ok x.
Proof. apply getindex_Ok. Qed.

(** ** Word tables *)

Lemma wordmaps_empty : wordmaps 0 ∅ ∅.
Proof.
  split; [| |done|done].
  - intros w i. by rewrite !lookup_empty.
  - intros i. rewrite lookup_empty. split; [by intros [? ?]|lia].
Qed.

Lemma counted_empty : counted 0 ∅ ∅.
Proof.
  split; [|done]. intros w. rewrite lookup_empty.
  split; [by intros [? ?]|]. intros (? & ? & ?); lia.
Qed.

Lemma wordmaps_id_lt n w2i i2w w i :
  wordmaps n w2i i2w → w2i !! w = Some i → i < n.
Proof. intros Hm Hw. apply Hm. exists w. by apply Hm. Qed.

Lemma wordmaps_fresh n w2i i2w : wordmaps n w2i i2w → i2w !! n = None.
Proof.
  intros Hm. apply eq_None_not_Some. rewrite (wm_dom _ _ _ Hm). lia.
Qed.

Lemma wordmaps_insert n w2i i2w w :
  wordmaps n w2i i2w → w2i !! w = None →
  wordmaps (S n) (<[w := n]> w2i) (<[n := w]> i2w).
Proof.
  intros Hm Hw. pose proof (wordmaps_fresh _ _ _ Hm) as Hn. split.
  - intros w' i. rewrite !lookup_insert_Some. split.
    + intros [[-> <-]|[Hne Hl]]; [by left|]. right. split.
      * intros <-. apply (wordmaps_id_lt _ _ _ _ _ Hm) in Hl. lia.
      * by apply Hm.
    + intros [[<- ->]|[Hne Hl]]; [by left|]. right. split.
      * intros <-. apply Hm in Hl. congruence.
      * by apply Hm.
  - intros i. rewrite lookup_insert_is_Some, (wm_dom _ _ _ Hm). lia.
  - rewrite map_size_insert_None by done. by rewrite (wm_size_w2i _ _ _ Hm).
  - rewrite map_size_insert_None by done. by rewrite (wm_size_i2w _ _ _ Hm).
Qed.

Lemma counted_fresh f w2i w2c w :
  counted f w2i w2c → w2i !! w = None → w2c !! w = None.
Proof.
  intros Hc Hw. apply eq_None_not_Some. rewrite (ct_dom _ _ _ Hc).
  intros (i & Hi & _). congruence.
Qed.

Lemma counted_insert_full n w2i i2w w2c w c :
  wordmaps n w2i i2w → counted n w2i w2c → w2i !! w = None →
  counted (S n) (<[w := n]> w2i) (<[w := c]> w2c).
Proof.
  intros Hm Hc Hw. split.
  - intros w'. rewrite lookup_insert_is_Some, (ct_dom _ _ _ Hc). split.
    + intros [<-|[Hne (i & Hi & Hlt)]].
      * exists n. rewrite lookup_insert_eq. split; [done|lia].
      * exists i. rewrite lookup_insert_ne by done. split; [done|lia].
    + intros (i & Hi & Hlt). apply lookup_insert_Some in Hi as [[-> <-]|[Hne Hi]].
      * by left.
      * right. split; [done|]. exists i. split; [done|].
        by eapply wordmaps_id_lt.
  - rewrite map_size_insert_None by (by eapply counted_fresh).
    by rewrite (ct_size _ _ _ Hc).
Qed.

Lemma counted_insert_dyn f n w2i w2c w :
  counted f w2i w2c → w2i !! w = None → f ≤ n →
  counted f (<[w := n]> w2i) w2c.
Proof.
  intros Hc Hw Hle. split; [|by apply Hc].
  intros w'. rewrite (ct_dom _ _ _ Hc). split.
  - intros (i & Hi & Hlt). exists i. split; [|done].
    rewrite lookup_insert_ne; [done|]. intros <-. congruence.
  - intros (i & Hi & Hlt). apply lookup_insert_Some in Hi as [[-> <-]|[Hne Hi]]; [lia|].
    eauto.
Qed.

Lemma counted_bump f w2i w2c w c :
  counted f w2i w2c → is_Some (w2c !! w) → counted f w2i (<[w := c]> w2c).
Proof.
  intros Hc [c0 Hw]. split.
  - intros w'. rewrite lookup_insert_is_Some, <- (ct_dom _ _ _ Hc).
    split; [|intros ?; destruct (decide (w = w')); [by left|by right]].
    intros [<-|[_ ?]]; [eauto|done].
  - rewrite map_size_insert_Some by eauto. by apply Hc.
Qed.

(** ** The copy vocabulary: construction and corpus scan *)

Section copy_build.
Import CopyVocab.
Context {E : Type}.
Variable normal : nat → nat → E.
Implicit Types v : @Vocab E.

Lemma synced_consistent v : synced v → consistent v.
Proof.
  intros [(Hm & Hc & He) Hf]. unfold consistent. rewrite Hf. split_and!; auto.
Qed.

Lemma reserved_ok_lt v i tok :
  wordmaps (word_num v) (word2id v) (id2word v) → reserved_ok v →
  (i, tok) ∈ reserved → i < word_num v.
Proof.
  intros Hm Hr Hi. destruct (Hr _ _ Hi) as [Hl _].
  apply (wm_dom _ _ _ Hm). eauto.
Qed.

Lemma reserved_ok_word_num v :
  wordmaps (word_num v) (word2id v) (id2word v) → reserved_ok v → 4 ≤ word_num v.
Proof.
  intros Hm Hr.
  assert (UNK_IDX < word_num v) as Hlt; [|unfold UNK_IDX in Hlt; lia].
  apply (reserved_ok_lt v UNK_IDX UNK_TOKEN); [done|done|].
  unfold reserved. set_solver.
Qed.

Lemma init_reserved_full a : full (init_reserved normal a).
Proof.
  unfold full, init_reserved; simpl. split; [|split; [|done]].
  - split; [| |done|done].
    + intros w i. rewrite !lookup_insert_Some, !lookup_empty.
      unfold PAD_TOKEN, SOS_TOKEN, EOS_TOKEN, UNK_TOKEN, PAD_IDX, SOS_IDX, EOS_IDX, UNK_IDX.
      naive_solver.
    + intros i. unfold PAD_IDX, SOS_IDX, EOS_IDX, UNK_IDX.
      destruct i as [|[|[|[|i]]]];
        [split; [lia|intros _; eexists; reflexivity]..|].
      split; [|lia]. intros [x Hx].
      rewrite !lookup_insert_ne, lookup_empty in Hx by lia. done.
  - split; [|done].
    intros w. rewrite !lookup_insert_is_Some, lookup_empty.
    split.
    + intros Hw.
      repeat (destruct Hw as [<-|[_ Hw]];
              [eexists; split; [reflexivity|unfold PAD_IDX, SOS_IDX, EOS_IDX, UNK_IDX; lia]|]).
      by destruct Hw.
    + intros (i & Hi & _). rewrite !lookup_insert_Some, lookup_empty in Hi.
      unfold PAD_TOKEN, SOS_TOKEN, EOS_TOKEN, UNK_TOKEN in *.
      destruct (decide ("<PAD>"%string = w)); [by left|right; split; [done|]].
      destruct (decide ("<SOS>"%string = w)); [by left|right; split; [done|]].
      destruct (decide ("<EOS>"%string = w)); [by left|right; split; [done|]].
      destruct (decide ("<UNK>"%string = w)); [by left|naive_solver].
Qed.

Lemma init_reserved_reserved a : reserved_ok (init_reserved normal a).
Proof.
  intros i tok Hi. unfold reserved in Hi.
  repeat (apply elem_of_cons in Hi as [[= -> ->]|Hi]);
    [..|by apply elem_of_nil in Hi];
    (split; [done|exists RESERVED_CNT; split; [done|lia]]).
Qed.

(** Fields that [with_words] leaves alone. *)
Lemma with_words_full v em wn fn w2i i2w w2c :
  wordmaps wn w2i i2w → counted wn w2i w2c → length em = wn →
  full (with_words v em wn fn w2i i2w w2c).
Proof. by unfold full. Qed.

Lemma reserved_ok_add v em wn fn w c :
  wordmaps (word_num v) (word2id v) (id2word v) →
  reserved_ok v → word2id v !! w = None →
  reserved_ok (with_words v em wn fn (<[w := word_num v]> (word2id v))
                 (<[word_num v := w]> (id2word v)) (<[w := c]> (word2cnt v))).
Proof.
  intros Hm Hr Hw i tok Hi. simpl.
  destruct (Hr _ _ Hi) as (Hl & c0 & Hc & Hle).
  pose proof (reserved_ok_lt _ _ _ Hm Hr Hi).
  rewrite !lookup_insert_ne; [eauto| |lia].
  intros <-. apply Hm in Hl. congruence.
Qed.

Lemma init_word_full v we : full v → full (init_word v we).
Proof.
  intros (Hm & Hc & He). unfold init_word.
  destruct (word2id v !! we.1) eqn:Hw; [by unfold full|].
  apply with_words_full.
  - by apply wordmaps_insert.
  - by eapply counted_insert_full.
  - rewrite length_app; simpl; lia.
Qed.

Lemma init_word_reserved v we :
  full v → reserved_ok v → reserved_ok (init_word v we).
Proof.
  intros (Hm & Hc & He) Hr. unfold init_word.
  destruct (word2id v !! we.1) eqn:Hw; [done|]. by apply reserved_ok_add.
Qed.

Lemma init_words_inv v l :
  full v → reserved_ok v →
  full (foldl init_word v l) ∧ reserved_ok (foldl init_word v l).
Proof.
  revert v. induction l as [|we l IH]; intros v Hf Hr; simpl; [done|].
  apply IH; [by apply init_word_full|by apply init_word_reserved].
Qed.

Lemma init_synced a pre : synced (init normal a pre) ∧ reserved_ok (init normal a pre).
Proof.
  unfold init.
  set (v := match pre with None => _ | Some m => _ end).
  assert (full v ∧ reserved_ok v) as [(Hm & Hc & He) Hr].
  { subst v. destruct pre.
    - apply init_words_inv; [apply init_reserved_full|apply init_reserved_reserved].
    - split; [apply init_reserved_full|apply init_reserved_reserved]. }
  split; [|done]. split; [|done]. by apply with_words_full.
Qed.

Lemma add_word_full v w : full v → ∃ v', add_word normal v w = Ok v' ∧ full v'.
Proof.
  intros (Hm & Hc & He). unfold add_word.
  destruct (word2id v !! w) as [i|] eqn:Hw.
  - assert (is_Some (word2cnt v !! w)) as [c Hcw].
    { apply (ct_dom _ _ _ Hc). exists i. split; [done|]. by eapply wordmaps_id_lt. }
    rewrite (getitem_Some _ _ _ Hcw). simpl. eexists. split; [done|].
    apply with_words_full; [done| |done]. apply counted_bump; eauto.
  - eexists. split; [done|]. apply with_words_full.
    + by apply wordmaps_insert.
    + by eapply counted_insert_full.
    + rewrite length_app; simpl; lia.
Qed.

Lemma add_word_reserved v w v' :
  full v → reserved_ok v → add_word normal v w = Ok v' → reserved_ok v'.
Proof.
  intros (Hm & Hc & He) Hr. unfold add_word.
  destruct (word2id v !! w) as [i|] eqn:Hw.
  - intros (c & Hcw%getitem_Ok & [= <-])%bind_Ok.
    intros j tok Hj. simpl. destruct (Hr _ _ Hj) as (Hl & c0 & Hc0 & Hle).
    split; [done|].
    destruct (decide (w = tok)) as [->|Hne].
    + rewrite lookup_insert_eq. eexists. split; [done|].
      rewrite Hc0 in Hcw. injection Hcw as <-. lia.
    + rewrite lookup_insert_ne by done. eauto.
  - intros [= <-]. by apply reserved_ok_add.
Qed.

Lemma add_words_full v sent :
  full v → ∃ v', add_words normal v sent = Ok v' ∧ full v'.
Proof.
  revert v. induction sent as [|w sent IH]; intros v Hf; simpl; [eauto|].
  destruct (add_word_full v w Hf) as (v1 & -> & Hf1). simpl. by apply IH.
Qed.

Lemma add_words_reserved v sent v' :
  full v → reserved_ok v → add_words normal v sent = Ok v' → reserved_ok v'.
Proof.
  revert v. induction sent as [|w sent IH]; intros v Hf Hr; simpl.
  - by intros [= <-].
  - destruct (add_word_full v w Hf) as (v1 & Hv1 & Hf1). rewrite Hv1. simpl.
    apply IH; [done|]. by apply (add_word_reserved v w v1).
Qed.

(** [add_sentence] returns on a full state, and the new state is synced. *)
Lemma add_sentence_full v sent :
  full v → ∃ v', add_sentence normal v sent = Ok v' ∧ synced v'.
Proof.
  intros Hf. unfold add_sentence.
  destruct (add_words_full v sent Hf) as (v1 & -> & (Hm & Hc & He)). simpl.
  eexists. split; [done|]. split; [|done]. by apply with_words_full.
Qed.

Lemma add_sentence_reserved v sent v' :
  full v → reserved_ok v → add_sentence normal v sent = Ok v' → reserved_ok v'.
Proof.
  intros Hf Hr. unfold add_sentence.
  intros (v1 & Hv1 & [= <-])%bind_Ok.
  by apply (add_words_reserved v sent v1).
Qed.

Lemma add_user_fields v user :
  (word_num (add_user v user), fixed_num (add_user v user), word2id (add_user v user),
   id2word (add_user v user), word2cnt (add_user v user), embed (add_user v user))
  = (word_num v, fixed_num v, word2id v, id2word v, word2cnt v, embed v).
Proof. unfold add_user. by destruct (user2id v !! user). Qed.

Lemma add_product_fields v product :
  (word_num (add_product v product), fixed_num (add_product v product),
   word2id (add_product v product), id2word (add_product v product),
   word2cnt (add_product v product), embed (add_product v product))
  = (word_num v, fixed_num v, word2id v, id2word v, word2cnt v, embed v).
Proof. unfold add_product. by destruct (product2id v !! product). Qed.
End copy_build.

(** ** The copy vocabulary: [trim] *)

Section copy_trim.
Import CopyVocab.
Context {E : Type}.
Implicit Types v : @Vocab E.

Lemma trim_scan_counts v ids ws js :
  trim_scan v ids = Ok (ws, js) →
  length ws = length js
  ∧ ∀ w, w ∈ ws → ∃ c, word2cnt v !! w = Some c ∧ (word_min_cnt (args v) ≤ c)%Z.
Proof.
  revert ws js. induction ids as [|i ids IH]; intros ws js; simpl.
  - intros [= <- <-]. split; [done|]. intros w Hw. by apply elem_of_nil in Hw.
  - intros (w & Hw & Hrest)%bind_Ok. apply bind_Ok in Hrest as (c & Hc & Hrest).
    apply bind_Ok in Hrest as ([ws' js'] & Hscan & Hret).
    destruct (IH _ _ Hscan) as [Hlen Hall]. apply getitem_Ok in Hc.
    case_bool_decide; simplify_eq/=.
    + split; [by rewrite Hlen|]. intros w' [->|Hw']%elem_of_cons; eauto.
    + done.
Qed.

Lemma trim_scan_self v ws s :
  (∀ k w, ws !! k = Some w → id2word v !! (s + k) = Some w) →
  (∀ w, w ∈ ws → ∃ c, word2cnt v !! w = Some c ∧ (word_min_cnt (args v) ≤ c)%Z) →
  trim_scan v (seq s (length ws)) = Ok (ws, seq s (length ws)).
Proof.
  revert s. induction ws as [|w ws IH]; intros s Hid Hcnt; simpl; [done|].
  pose proof (Hid 0 w eq_refl) as H0. rewrite Nat.add_0_r in H0.
  rewrite (getitem_Some _ _ _ H0). simpl.
  destruct (Hcnt w) as (c & Hc & Hle); [by left|].
  rewrite (getitem_Some _ _ _ Hc). simpl.
  rewrite IH.
  - simpl. by rewrite bool_decide_eq_true_2.
  - intros k w' Hk. replace (S s + k) with (s + S k) by lia. by apply Hid.
  - intros w' Hw'. apply Hcnt. by right.
Qed.

Lemma trim_fill_ext old old' ws cnt w2i i2w w2c :
  (∀ w, w ∈ ws → old !! w = old' !! w) →
  trim_fill old ws cnt w2i i2w w2c = trim_fill old' ws cnt w2i i2w w2c.
Proof.
  revert cnt w2i i2w w2c. induction ws as [|w ws IH]; intros cnt w2i i2w w2c Hext;
    simpl; [done|].
  unfold getitem. rewrite <- (Hext w) by (by left).
  destruct (old !! w); simpl; [|done].
  apply IH. intros w' Hw'. apply Hext. by right.
Qed.

Lemma trim_fill_lookup old ws cnt w2i i2w w2c n w2i' i2w' w2c' :
  trim_fill old ws cnt w2i i2w w2c = Ok (n, w2i', i2w', w2c') →
  n = cnt + length ws
  ∧ (∀ j, j < cnt → i2w' !! j = i2w !! j)
  ∧ (∀ k w, ws !! k = Some w → i2w' !! (cnt + k) = Some w)
  ∧ (∀ w, w ∉ ws → w2c' !! w = w2c !! w)
  ∧ (∀ w, w ∈ ws → w2c' !! w = old !! w ∧ is_Some (old !! w)).
Proof.
  revert cnt w2i i2w w2c. induction ws as [|w ws IH]; intros cnt w2i i2w w2c; simpl.
  - intros [= <- <- <- <-]. split_and!; [lia|done| |done|].
    + intros k w Hk. by rewrite lookup_nil in Hk.
    + intros w Hw. by apply elem_of_nil in Hw.
  - intros (c & Hc%getitem_Ok & Hfill)%bind_Ok.
    destruct (IH _ _ _ _ Hfill) as (-> & Hlow & Hnew & Hout & Hin).
    split_and!.
    + lia.
    + intros j Hj. rewrite Hlow by lia. apply lookup_insert_ne. lia.
    + intros [|k] w' Hk; simplify_eq/=.
      * rewrite Nat.add_0_r, Hlow by lia. apply lookup_insert_eq.
      * replace (cnt + S k) with (S cnt + k) by lia. by apply Hnew.
    + intros w' Hw'. apply not_elem_of_cons in Hw' as [Hne Hw'].
      rewrite Hout by done. by apply lookup_insert_ne.
    + intros w' Hw'. destruct (decide (w' ∈ ws)) as [Hr|Hr]; [by apply Hin|].
      apply elem_of_cons in Hw' as [->|?]; [|done].
      rewrite Hout by done. rewrite lookup_insert_eq, Hc. eauto.
Qed.

Lemma trim_rows_length (em : list E) ids rows :
  trim_rows em ids = Ok rows → length rows = length ids.
Proof.
  revert rows. induction ids as [|i ids IH]; intros rows; simpl.
  - by intros [= <-].
  - intros (e & _ & (rest & Hrest & [= <-])%bind_Ok)%bind_Ok. simpl.
    by rewrite (IH _ Hrest).
Qed.

Lemma trim_rows_self (em : list E) s :
  trim_rows (take s em ++ drop s em) (seq s (length (drop s em))) = Ok (drop s em).
Proof.
  remember (drop s em) as tl eqn:Htl. revert s Htl.
  induction tl as [|e tl IH]; intros s Htl; simpl; [done|].
  assert (em !! s = Some e) as He.
  { rewrite <- (Nat.add_0_r s), <- lookup_drop, <- Htl. done. }
  unfold getindex. rewrite lookup_app_r by (rewrite length_take; lia).
  rewrite length_take_le by (apply lookup_lt_Some in He; lia).
  rewrite Nat.sub_diag. simpl.
  assert (tl = drop (S s) em) as Htl'.
  { rewrite (drop_S _ _ _ He) in Htl. by injection Htl. }
  specialize (IH (S s) Htl').
  rewrite (take_S_r _ _ _ He), <- app_assoc in IH. simpl in IH.
  by rewrite IH.
Qed.

Lemma trim_rows_all (em : list E) : trim_rows em (seq 0 (length em)) = Ok em.
Proof. apply (trim_rows_self em 0). Qed.

(** A second [trim] changes nothing. *)
Lemma trim_again v v1 e1 : trim v = Ok (v1, e1) → trim v1 = Ok (v1, e1).
Proof.
  unfold trim.
  intros ([ws js] & Hscan & Hrest)%bind_Ok.
  apply bind_Ok in Hrest as ([[[cnt w2i] i2w] w2c] & Hfill & Hrest).
  apply bind_Ok in Hrest as (em & Hrows & Hrest).
  case_bool_decide as Hassert; [|done]. injection Hrest as <- <-.
  destruct (trim_scan_counts _ _ _ _ Hscan) as [Hlen Hcnt].
  destruct (trim_fill_lookup _ _ _ _ _ _ _ _ _ _ Hfill) as (-> & _ & Hnew & _ & Hin).
  apply trim_rows_length in Hrows as Hlen'.
  simpl.
  replace (trim_scan (with_words v em (length ws) (length ws) w2i i2w w2c)
             (seq 0 (length ws))) with (Ok (ws, seq 0 (length ws)) : result _).
  2:{ symmetry. apply trim_scan_self; simpl.
      - intros k w Hk. by apply Hnew.
      - intros w Hw. destruct (Hin w Hw) as [-> _]. by apply Hcnt. }
  simpl.
  rewrite (trim_fill_ext w2c (word2cnt v)) by (intros w Hw; by apply Hin).
  rewrite Hfill. simpl.
  replace (length ws) with (length em) by lia.
  rewrite trim_rows_all. simpl.
  rewrite bool_decide_eq_true_2 by done. done.
Qed.
End copy_trim.

Section copy_trim_total.
Import CopyVocab.
Context {E : Type}.
Implicit Types v : @Vocab E.

Lemma trim_scan_total v ids :
  full v → (∀ i, i ∈ ids → i < word_num v) → NoDup ids →
  ∃ ws js, trim_scan v ids = Ok (ws, js)
    ∧ Forall2 (λ w i, id2word v !! i = Some w) ws js
    ∧ (∀ i, i ∈ js → i ∈ ids) ∧ NoDup js.
Proof.
  intros (Hm & Hc & He). induction ids as [|i ids IH]; intros Hlt Hnd; simpl.
  - exists [], []. split_and!; [done|constructor|done|constructor].
  - apply NoDup_cons in Hnd as [Hi Hnd].
    destruct IH as (ws & js & Hscan & Hall & Hsub & Hndj);
      [intros j Hj; apply Hlt; by right|done|].
    assert (is_Some (id2word v !! i)) as [w Hw].
    { apply (wm_dom _ _ _ Hm), Hlt. by left. }
    assert (is_Some (word2cnt v !! w)) as [c Hcw].
    { apply (ct_dom _ _ _ Hc). exists i. split; [by apply Hm|]. apply Hlt. by left. }
    rewrite (getitem_Some _ _ _ Hw). simpl.
    rewrite (getitem_Some _ _ _ Hcw). simpl. rewrite Hscan. simpl.
    case_bool_decide.
    + exists (w :: ws), (i :: js). split_and!; [done|by constructor| |].
      * intros j [->|Hj]%elem_of_cons; [by left|right; by apply Hsub].
      * apply NoDup_cons. split; [|done]. intros Hj. by apply Hi, Hsub.
    + exists ws, js. split_and!; [done|done| |done].
      intros j Hj. right. by apply Hsub.
Qed.

Lemma scan_words_NoDup v ws js :
  wordmaps (word_num v) (word2id v) (id2word v) →
  Forall2 (λ w i, id2word v !! i = Some w) ws js → NoDup js → NoDup ws.
Proof.
  intros Hm. induction 1 as [|w i ws js Hw Hall IH]; intros Hnd; [constructor|].
  apply NoDup_cons in Hnd as [Hi Hnd]. apply NoDup_cons. split; [|by apply IH].
  intros Hin. apply Hi.
  apply list_elem_of_lookup in Hin as [k Hk].
  destruct (Forall2_lookup_l _ _ _ _ _ Hall Hk) as (j & Hj & Hjw).
  apply Hm in Hw, Hjw. rewrite Hw in Hjw. injection Hjw as ->.
  by eapply list_elem_of_lookup_2.
Qed.

Lemma trim_scan_head v i ids ws js w c :
  trim_scan v (i :: ids) = Ok (ws, js) →
  id2word v !! i = Some w → word2cnt v !! w = Some c →
  (word_min_cnt (args v) ≤ c)%Z →
  ∃ ws' js', ws = w :: ws' ∧ js = i :: js' ∧ trim_scan v ids = Ok (ws', js').
Proof.
  simpl. intros Hscan Hw Hc Hle.
  rewrite (getitem_Some _ _ _ Hw) in Hscan. simpl in Hscan.
  rewrite (getitem_Some _ _ _ Hc) in Hscan. simpl in Hscan.
  apply bind_Ok in Hscan as ([ws' js'] & Hrest & Hret).
  rewrite bool_decide_eq_true_2 in Hret by done. injection Hret as <- <-.
  by exists ws', js'.
Qed.

Lemma trim_fill_total old ws cnt w2i i2w w2c :
  wordmaps cnt w2i i2w → counted cnt w2i w2c → NoDup ws →
  (∀ w, w ∈ ws → w2i !! w = None ∧ is_Some (old !! w)) →
  ∃ w2i' i2w' w2c',
    trim_fill old ws cnt w2i i2w w2c = Ok (cnt + length ws, w2i', i2w', w2c')
    ∧ wordmaps (cnt + length ws) w2i' i2w'
    ∧ counted (cnt + length ws) w2i' w2c'.
Proof.
  revert cnt w2i i2w w2c.
  induction ws as [|w ws IH]; intros cnt w2i i2w w2c Hm Hc Hnd Hws; simpl.
  - rewrite Nat.add_0_r. by exists w2i, i2w, w2c.
  - apply NoDup_cons in Hnd as [Hw Hnd].
    destruct (Hws w) as [Hfresh [c Hold]]; [by left|].
    rewrite (getitem_Some _ _ _ Hold). simpl.
    replace (cnt + S (length ws)) with (S cnt + length ws) by lia.
    apply IH; [by apply wordmaps_insert|by eapply counted_insert_full|done|].
    intros w' Hw'. destruct (Hws w') as [? ?]; [by right|]. split; [|done].
    rewrite lookup_insert_ne; [done|]. by intros ->.
Qed.

Lemma trim_rows_total (em : list E) ids :
  (∀ i, i ∈ ids → i < length em) → ∃ rows, trim_rows em ids = Ok rows.
Proof.
  induction ids as [|i ids IH]; intros Hlt; simpl; [eauto|].
  destruct (lookup_lt_is_Some_2 em i) as [e He]; [apply Hlt; by left|].
  rewrite (getindex_Some _ _ _ He). simpl.
  destruct IH as [rows ->]; [intros j Hj; apply Hlt; by right|]. simpl. eauto.
Qed.

(** On a full state [trim] returns, and the new state is synced. *)
Lemma trim_full v :
  full v → ∃ v' em, trim v = Ok (v', em) ∧ synced v' ∧ embed v' = em.
Proof.
  intros Hf. pose proof Hf as (Hm & Hc & He).
  destruct (trim_scan_total v (seq 0 (word_num v)) Hf)
    as (ws & js & Hscan & Hall & Hsub & Hnd).
  { intros i Hi%elem_of_seq. lia. }
  { apply NoDup_seq. }
  pose proof (scan_words_NoDup _ _ _ Hm Hall Hnd) as Hndw.
  destruct (trim_scan_counts _ _ _ _ Hscan) as [Hlen Hcnt].
  destruct (trim_fill_total (word2cnt v) ws 0 ∅ ∅ ∅ wordmaps_empty counted_empty Hndw)
    as (w2i & i2w & w2c & Hfill & Hm' & Hc').
  { intros w Hw. split; [done|]. destruct (Hcnt w Hw) as (c & -> & _). eauto. }
  destruct (trim_rows_total (embed v) js) as [em Hrows].
  { intros i Hi. rewrite He. apply Hsub, elem_of_seq in Hi. lia. }
  pose proof (trim_rows_length _ _ _ Hrows) as Hlen'.
  unfold trim. rewrite Hscan. simpl. rewrite Hfill. simpl. rewrite Hrows. simpl.
  rewrite bool_decide_eq_true_2.
  - eexists _, _. split; [done|]. split; [|done]. split; [|done].
    apply with_words_full; [done|done|lia].
  - rewrite (wm_size_w2i _ _ _ Hm'), (wm_size_i2w _ _ _ Hm'), (ct_size _ _ _ Hc'). lia.
Qed.

(** With a threshold of at most 10000 the reserved tokens keep their ids. *)
Lemma trim_reserved v v' em :
  full v → reserved_ok v → (word_min_cnt (args v) ≤ RESERVED_CNT)%Z →
  trim v = Ok (v', em) → reserved_ok v'.
Proof.
  intros Hf Hr Hthr Htrim. pose proof Hf as (Hm & _ & _).
  pose proof (reserved_ok_word_num _ Hm Hr) as Hwn.
  unfold trim in Htrim.
  apply bind_Ok in Htrim as ([ws js] & Hscan & Hrest).
  apply bind_Ok in Hrest as ([[[cnt w2i] i2w] w2c] & Hfill & Hrest).
  apply bind_Ok in Hrest as (em' & Hrows & Hrest).
  case_bool_decide; [|done]. injection Hrest as <- <-.
  assert (seq 0 (word_num v) = 0 :: 1 :: 2 :: 3 :: seq 4 (word_num v - 4)) as Hseq.
  { replace (word_num v) with (4 + (word_num v - 4)) at 1 by lia. done. }
  rewrite Hseq in Hscan.
  assert (∀ i tok, (i, tok) ∈ reserved →
    ∃ c, id2word v !! i = Some tok ∧ word2cnt v !! tok = Some c
         ∧ (word_min_cnt (args v) ≤ c)%Z) as Hres.
  { intros i tok Hi. destruct (Hr _ _ Hi) as (? & c & ? & ?). exists c.
    split_and!; [done|done|lia]. }
  destruct (Hres PAD_IDX PAD_TOKEN) as (c0 & Hi0 & Hc0 & Hle0); [unfold reserved; set_solver|].
  destruct (Hres SOS_IDX SOS_TOKEN) as (c1 & Hi1 & Hc1 & Hle1); [unfold reserved; set_solver|].
  destruct (Hres EOS_IDX EOS_TOKEN) as (c2 & Hi2 & Hc2 & Hle2); [unfold reserved; set_solver|].
  destruct (Hres UNK_IDX UNK_TOKEN) as (c3 & Hi3 & Hc3 & Hle3); [unfold reserved; set_solver|].
  destruct (trim_scan_head _ _ _ _ _ _ _ Hscan Hi0 Hc0 Hle0) as (ws0 & js0 & -> & -> & Hs0).
  destruct (trim_scan_head _ _ _ _ _ _ _ Hs0 Hi1 Hc1 Hle1) as (ws1 & js1 & -> & -> & Hs1).
  destruct (trim_scan_head _ _ _ _ _ _ _ Hs1 Hi2 Hc2 Hle2) as (ws2 & js2 & -> & -> & Hs2).
  destruct (trim_scan_head _ _ _ _ _ _ _ Hs2 Hi3 Hc3 Hle3) as (ws3 & js3 & -> & -> & Hs3).
  destruct (trim_fill_lookup _ _ _ _ _ _ _ _ _ _ Hfill) as (-> & _ & Hnew & _ & Hin).
  intros i tok Hi. simpl.
  destruct (Hr _ _ Hi) as (_ & c & Hc & Hle).
  unfold reserved in Hi.
  repeat (apply elem_of_cons in Hi as [[= -> ->]|Hi]); [..|by apply elem_of_nil in Hi].
  - split; [by apply (Hnew 0)|]. exists c. destruct (Hin PAD_TOKEN) as [-> _]; [set_solver|done].
  - split; [by apply (Hnew 1)|]. exists c. destruct (Hin SOS_TOKEN) as [-> _]; [set_solver|done].
  - split; [by apply (Hnew 2)|]. exists c. destruct (Hin EOS_TOKEN) as [-> _]; [set_solver|done].
  - split; [by apply (Hnew 3)|]. exists c. destruct (Hin UNK_TOKEN) as [-> _]; [set_solver|done].
Qed.
End copy_trim_total.

(** ** The copy vocabulary: the dynamic segment *)

Section copy_dynamic.
Import CopyVocab.
Context {E : Type}.
Implicit Types v : @Vocab E.

Lemma with_words_id v :
  with_words v (embed v) (word_num v) (fixed_num v)
    (word2id v) (id2word v) (word2cnt v) = v.
Proof. by destruct v. Qed.

Lemma same_fixed_refl v : same_fixed v v.
Proof. unfold same_fixed. by rewrite with_words_id. Qed.

Lemma same_fixed_trans v1 v2 v3 :
  same_fixed v1 v2 → same_fixed v2 v3 → same_fixed v1 v3.
Proof. unfold same_fixed. intros -> ->. done. Qed.

Lemma same_fixed_fields v v' :
  same_fixed v v' →
  args v' = args v ∧ embed v' = embed v ∧ fixed_num v' = fixed_num v
  ∧ word2cnt v' = word2cnt v ∧ user2id v' = user2id v
  ∧ product2id v' = product2id v.
Proof. intros ->. done. Qed.

(** The loop of [reset_dynamic] removes exactly the ids it visits. *)
Lemma drop_dynamic_spec v ids :
  (∀ w i, word2id v !! w = Some i ↔ id2word v !! i = Some w) →
  NoDup ids →
  (∀ i, i ∈ ids → is_Some (id2word v !! i) ∧ i < word_num v) →
  ∃ v', drop_dynamic v ids = Ok v'
    ∧ same_fixed v v' ∧ word_num v' = word_num v
    ∧ (∀ i w, id2word v' !! i = Some w ↔ id2word v !! i = Some w ∧ i ∉ ids)
    ∧ (∀ w i, word2id v' !! w = Some i ↔ word2id v !! w = Some i ∧ i ∉ ids)
    ∧ size (id2word v') + length ids = size (id2word v)
    ∧ size (word2id v') + length ids = size (word2id v).
Proof.
  revert v. induction ids as [|i ids IH]; intros v Hbij Hnd Hids; simpl.
  - exists v. split_and!; [done|apply same_fixed_refl|done| | |lia|lia].
    + intros i w. split; [|by intros [? _]]. split; [done|]. apply not_elem_of_nil.
    + intros w i. split; [|by intros [? _]]. split; [done|]. apply not_elem_of_nil.
  - apply NoDup_cons in Hnd as [Hi Hnd].
    destruct (Hids i) as [[w Hw] Hlt]; [by left|].
    unfold id_word. rewrite bool_decide_eq_true_2 by done.
    rewrite (getitem_Some _ _ _ Hw). simpl.
    assert (word2id v !! w = Some i) as Hwi by (by apply Hbij).
    rewrite (getitem_Some _ _ _ Hwi). simpl.
    set (v1 := with_words v (embed v) (word_num v) (fixed_num v)
                 (delete w (word2id v)) (delete i (id2word v)) (word2cnt v)).
    destruct (IH v1) as (v' & Hdrop & Hsame & Hwn & Hi2w & Hw2i & Hs1 & Hs2).
    { intros w' j. simpl. rewrite !lookup_delete_Some, Hbij. split.
      - intros [Hne Hj]. split; [|done]. intros <-. congruence.
      - intros [Hne Hj]. split; [|done]. intros <-. apply Hbij in Hj. congruence. }
    { done. }
    { intros j Hj. simpl. destruct (Hids j) as [? ?]; [by right|].
      split; [|done]. rewrite lookup_delete_ne; [done|]. by intros <-. }
    exists v'. split; [done|]. simpl in *. split_and!.
    + eapply same_fixed_trans; [|done]. unfold same_fixed, v1. done.
    + done.
    + intros j w'. rewrite Hi2w, lookup_delete_Some, not_elem_of_cons. naive_solver.
    + intros w' j. rewrite Hw2i, lookup_delete_Some, not_elem_of_cons.
      split; [|naive_solver]. intros [[Hne Hj] ?]. split_and!; [done| |done].
      intros ->. apply Hbij in Hj. congruence.
    + rewrite (map_size_delete_Some i (id2word v)) in Hs1 by eauto.
      assert (size (id2word v) ≠ 0); [|lia].
      intros Hz%map_size_empty_inv. by rewrite Hz in Hw.
    + rewrite (map_size_delete_Some w (word2id v)) in Hs2 by eauto.
      assert (size (word2id v) ≠ 0); [|lia].
      intros Hz%map_size_empty_inv. by rewrite Hz in Hwi.
Qed.

(** [reset_dynamic] keeps the fixed segment and nothing else. *)
Lemma reset_dynamic_spec v :
  consistent v →
  ∃ v0, reset_dynamic v = Ok v0
    ∧ synced v0 ∧ same_fixed v v0
    ∧ (∀ i w, id2word v0 !! i = Some w ↔ id2word v !! i = Some w ∧ i < fixed_num v)
    ∧ (∀ w i, word2id v0 !! w = Some i ↔ word2id v !! w = Some i ∧ i < fixed_num v).
Proof.
  intros (Hm & Hc & He & Hle).
  destruct (drop_dynamic_spec v (seq (fixed_num v) (word_num v - fixed_num v)))
    as (v' & Hdrop & Hsame & Hwn & Hi2w & Hw2i & Hs1 & Hs2).
  { apply Hm. } { apply NoDup_seq. }
  { intros i Hi%elem_of_seq. split; [apply (wm_dom _ _ _ Hm)|]; lia. }
  rewrite length_seq in Hs1, Hs2.
  rewrite (wm_size_i2w _ _ _ Hm) in Hs1. rewrite (wm_size_w2i _ _ _ Hm) in Hs2.
  assert (∀ i, i < word_num v → (i ∉ seq (fixed_num v) (word_num v - fixed_num v)
                                   ↔ i < fixed_num v)) as Hseq.
  { intros i Hi. rewrite elem_of_seq. lia. }
  assert (∀ i w, id2word v' !! i = Some w ↔ id2word v !! i = Some w ∧ i < fixed_num v)
    as Hi2w'.
  { intros i w. rewrite Hi2w. split; intros [Hl Hi]; (split; [done|]);
      apply Hseq; try done; apply (wm_dom _ _ _ Hm); eauto. }
  assert (∀ w i, word2id v' !! w = Some i ↔ word2id v !! w = Some i ∧ i < fixed_num v)
    as Hw2i'.
  { intros w i. rewrite Hw2i. split; intros [Hl Hi]; (split; [done|]);
      apply Hseq; try done; by eapply wordmaps_id_lt. }
  destruct (same_fixed_fields _ _ Hsame) as (Ha & Hem & Hfn & Hcn & _).
  unfold reset_dynamic. rewrite Hdrop. simpl.
  eexists. split; [done|]. simpl. split_and!; [| |done|done].
  - split; [|done]. apply with_words_full.
    + split.
      * intros w i. rewrite Hw2i', Hi2w'. by rewrite (wm_bij _ _ _ Hm).
      * intros i. rewrite Hfn. split.
        -- intros [w Hw]. by apply Hi2w' in Hw as [_ ?].
        -- intros Hi. destruct (proj2 (wm_dom _ _ _ Hm i)) as [w Hw]; [lia|].
           exists w. by apply Hi2w'.
      * lia.
      * lia.
    + rewrite Hcn, Hfn. split; [|apply Hc].
      intros w. rewrite (ct_dom _ _ _ Hc). split.
      * intros (i & Hi & Hlt). exists i. split; [|done]. by apply Hw2i'.
      * intros (i & Hi & Hlt). exists i. split; [|done]. by apply Hw2i' in Hi as [? _].
    + by rewrite Hem, Hfn.
  - unfold same_fixed in *. rewrite Hsame. done.
Qed.

(** Without a dynamic segment the reset does nothing. *)
Lemma reset_dynamic_synced v :
  fixed_num v = word_num v → reset_dynamic v = Ok v.
Proof.
  intros Hf. unfold reset_dynamic. rewrite Hf, Nat.sub_diag. simpl.
  f_equal. destruct v; simpl in *. by subst.
Qed.

Lemma grows_refl v : grows [] v v.
Proof.
  split_and!; [apply same_fixed_refl|done|done| |by left].
  intros w Hw. by apply elem_of_nil in Hw.
Qed.

Lemma grows_trans t1 t2 v1 v2 v3 :
  word_num v1 ≤ word_num v2 →
  grows t1 v1 v2 → grows t2 v2 v3 → grows (t1 ++ t2) v1 v3.
Proof.
  intros Hle (Hs1 & Hw1 & Hi1 & Hin1 & Hnew1) (Hs2 & Hw2 & Hi2 & Hin2 & Hnew2).
  split_and!.
  - by eapply same_fixed_trans.
  - by etrans.
  - by etrans.
  - intros w [Hw|Hw]%elem_of_app; [|by apply Hin2].
    destruct (Hin1 w Hw) as [i Hi]. exists i. by eapply lookup_weaken.
  - intros i w Hi. destruct (Hnew2 i w Hi) as [Hold|[Hw Hge]].
    + destruct (Hnew1 i w Hold) as [?|[? ?]]; [by left|right].
      split; [|done]. apply elem_of_app. by left.
    + right. split; [|lia]. apply elem_of_app. by right.
Qed.

Lemma add_dynamic_spec v w :
  consistent v →
  consistent (add_dynamic v w) ∧ grows [w] v (add_dynamic v w)
  ∧ word_num v ≤ word_num (add_dynamic v w).
Proof.
  intros (Hm & Hc & He & Hle). unfold add_dynamic.
  destruct (word2id v !! w) as [i|] eqn:Hw.
  - split_and!; [by unfold consistent| |done].
    split_and!; [apply same_fixed_refl|done|done| |by left].
    intros w' ->%list_elem_of_singleton. eauto.
  - pose proof (wordmaps_fresh _ _ _ Hm) as Hfresh.
    split_and!; [|split_and!|simpl; lia].
    + unfold consistent. simpl. split_and!; [|by apply counted_insert_dyn|done|lia].
      by apply wordmaps_insert.
    + done.
    + by apply insert_subseteq.
    + by apply insert_subseteq.
    + intros w' ->%list_elem_of_singleton. simpl. rewrite lookup_insert_eq. eauto.
    + intros i w'. simpl. rewrite lookup_insert_Some.
      intros [[<- <-]|[_ ?]]; [right|by left]. split; [set_solver|done].
Qed.

Lemma add_dynamics_spec v toks :
  consistent v →
  consistent (foldl add_dynamic v toks) ∧ grows toks v (foldl add_dynamic v toks)
  ∧ word_num v ≤ word_num (foldl add_dynamic v toks).
Proof.
  revert v. induction toks as [|w toks IH]; intros v Hv; simpl.
  - split_and!; [done|apply grows_refl|done].
  - destruct (add_dynamic_spec v w Hv) as (Hc1 & Hg1 & Hle1).
    destruct (IH _ Hc1) as (Hc2 & Hg2 & Hle2).
    split_and!; [done| |lia].
    by apply (grows_trans [w] toks v (add_dynamic v w)).
Qed.

(** All the source tokens of the batch, in reading order. *)
Lemma extend_dynamic_spec v texts :
  consistent v →
  consistent (extend_dynamic v texts)
  ∧ grows (concat (split <$> texts)) v (extend_dynamic v texts)
  ∧ word_num v ≤ word_num (extend_dynamic v texts).
Proof.
  unfold extend_dynamic.
  revert v. induction texts as [|r texts IH]; intros v Hv; simpl.
  - split_and!; [done|apply grows_refl|done].
  - destruct (add_dynamics_spec v (split r) Hv) as (Hc1 & Hg1 & Hle1).
    destruct (IH _ Hc1) as (Hc2 & Hg2 & Hle2).
    split_and!; [done| |lia].
    by eapply grows_trans.
Qed.

(** A map is determined by its [Some] entries. *)
Lemma map_eq_Some `{Countable K} {V} (m1 m2 : gmap K V) :
  (∀ k x, m1 !! k = Some x ↔ m2 !! k = Some x) → m1 = m2.
Proof.
  intros Hm. apply map_eq. intros k. apply option_eq. intros x. apply Hm.
Qed.

(** The reset undoes the extension of a synced state. *)
Lemma reset_extend v texts :
  synced v → reset_dynamic (extend_dynamic v texts) = Ok v.
Proof.
  intros Hs. pose proof (synced_consistent _ Hs) as Hv.
  destruct Hs as [(Hm & _ & _) Hfn].
  destruct (extend_dynamic_spec v texts Hv) as (Hc2 & (Hsame & Hw & Hi & _ & _) & Hle).
  destruct (reset_dynamic_spec _ Hc2) as (v0 & -> & [_ Hfn0] & Hsame0 & Hi2w & Hw2i).
  f_equal.
  pose proof (same_fixed_trans _ _ _ Hsame Hsame0) as Hs3.
  destruct (same_fixed_fields _ _ Hsame) as (_ & _ & Hfn2 & _).
  destruct Hc2 as (Hm2 & _ & _ & _).
  assert (word_num v0 = word_num v) as Hwn.
  { destruct (same_fixed_fields _ _ Hsame0) as (_ & _ & Hfn3 & _). congruence. }
  assert (id2word v0 = id2word v) as Hid.
  { apply map_eq_Some. intros i w. rewrite Hi2w, Hfn2, Hfn. split.
    - intros [Hl Hlt]. destruct (proj2 (wm_dom _ _ _ Hm i) Hlt) as [w' Hw'].
      pose proof (lookup_weaken _ _ _ _ Hw' Hi). congruence.
    - intros Hl. split; [by eapply lookup_weaken|]. apply (wm_dom _ _ _ Hm). eauto. }
  assert (word2id v0 = word2id v) as Hwd.
  { apply map_eq_Some. intros w i. rewrite Hw2i, Hfn2, Hfn. split.
    - intros [Hl Hlt]. destruct (proj2 (wm_dom _ _ _ Hm i) Hlt) as [w' Hw'].
      pose proof (lookup_weaken _ _ _ _ Hw' Hi) as Hw2.
      apply Hm2 in Hl. rewrite Hl in Hw2. injection Hw2 as <-. by apply Hm.
    - intros Hl. split; [by eapply lookup_weaken|]. by eapply wordmaps_id_lt. }
  rewrite Hs3, Hwn, Hid, Hwd. apply with_words_id.
Qed.
End copy_dynamic.

(** ** Lists *)


Lemma StronglySorted_fmap_2 {A B} (R : relation A) (S : relation B) (f : A → B) l :
  (∀ x y, R x y → S (f x) (f y)) →
  StronglySorted R l → StronglySorted S (f <$> l).
Proof.
  intros HRS. induction 1 as [|x l Hl IH Hx]; simpl; constructor; [done|].
  apply Forall_fmap. eapply Forall_impl; [exact Hx|]. intros y. apply HRS.
Qed.

(** ** The copy vocabulary: the batch *)

Section copy_batch.
Import CopyVocab.

Lemma paired_ok b :
  batch_ok b → paired_reviews b = reviewText b ∧ paired_summaries b = summary b.
Proof.
  intros [_ Hlen]. unfold paired_reviews, paired_summaries.
  rewrite fst_zip, snd_zip by lia. done.
Qed.

Lemma batch_order_perm b : batch_order b ≡ₚ seq 0 (length (summary b)).
Proof. apply sort_desc_perm. Qed.

Lemma sorted_reviews_length b : length (sorted_reviews b) = length (summary b).
Proof.
  unfold sorted_reviews. by rewrite length_fmap, batch_order_perm, length_seq.
Qed.

Lemma sorted_summaries_length b : length (sorted_summaries b) = length (summary b).
Proof.
  unfold sorted_summaries. by rewrite length_fmap, batch_order_perm, length_seq.
Qed.


Lemma sorted_reviews_sorted b : StronglySorted by_token_count (sorted_reviews b).
Proof.
  unfold sorted_reviews.
  eapply StronglySorted_fmap_2; [|apply (sort_desc_sorted (src_key (paired_reviews b)))].
  intros i j. unfold desc, src_key, by_token_count. lia.
Qed.

Lemma sorted_reviews_head_max b first r :
  sorted_reviews b !! 0 = Some first → r ∈ sorted_reviews b →
  length (split r) ≤ length (split first).
Proof.
  intros Hh Hr. pose proof (sorted_reviews_sorted b) as Hs.
  destruct (sorted_reviews b) as [|x l]; [done|]. injection Hh as ->.
  apply StronglySorted_inv in Hs as [_ Hall].
  apply elem_of_cons in Hr as [->|Hr]; [done|].
  rewrite Forall_forall in Hall. by apply Hall.
Qed.

Lemma sorted_reviews_head b :
  batch_ok b → ∃ first, sorted_reviews b !! 0 = Some first.
Proof.
  intros [Hne Hlen]. apply lookup_lt_is_Some_2.
  rewrite sorted_reviews_length, <- Hlen. destruct (reviewText b); [done|simpl; lia].
Qed.

Context {E : Type}.
Implicit Types v : @Vocab E.

Lemma read_batch_inv v b v' t :
  read_batch v b = Ok (v', t) →
  ∃ v1 first, reset_dynamic v = Ok v1
    ∧ sorted_reviews b !! 0 = Some first
    ∧ v' = extend_dynamic v1 (sorted_reviews b)
    ∧ t = tensors v' b (length (split first)).
Proof.
  unfold read_batch. intros (v1 & Hreset & Hrest)%bind_Ok.
  case_bool_decide; [|done].
  apply bind_Ok in Hrest as (first & Hfirst%getindex_Ok & [= <- <-]).
  by exists v1, first.
Qed.

Lemma read_batch_total v b :
  consistent v → batch_ok b →
  ∃ v1 first, reset_dynamic v = Ok v1
    ∧ sorted_reviews b !! 0 = Some first
    ∧ read_batch v b
      = Ok (extend_dynamic v1 (sorted_reviews b),
            tensors (extend_dynamic v1 (sorted_reviews b)) b (length (split first))).
Proof.
  intros Hv Hb.
  destruct (reset_dynamic_spec v Hv) as (v1 & Hreset & _).
  destruct (sorted_reviews_head b Hb) as [first Hfirst].
  exists v1, first. split_and!; [done|done|].
  unfold read_batch. rewrite Hreset. simpl.
  destruct (paired_ok b Hb) as [-> _]. destruct Hb as [_ ->].
  rewrite bool_decide_eq_true_2 by done.
  by rewrite (getindex_Some _ _ _ Hfirst).
Qed.

(** What [read_batch] leaves behind. *)
Lemma read_batch_state v b v' t :
  consistent v → read_batch v b = Ok (v', t) →
  ∃ v1, reset_dynamic v = Ok v1 ∧ synced v1 ∧ same_fixed v v1
    ∧ consistent v'
    ∧ grows (concat (split <$> sorted_reviews b)) v1 v'
    ∧ word_num v1 ≤ word_num v'.
Proof.
  intros Hv (v1 & first & Hreset & _ & -> & _)%read_batch_inv.
  destruct (reset_dynamic_spec v Hv) as (v1' & Hreset' & Hs & Hsame & _).
  rewrite Hreset in Hreset'. injection Hreset' as <-.
  destruct (extend_dynamic_spec v1 (sorted_reviews b) (synced_consistent _ Hs))
    as (Hc & Hg & Hle).
  by exists v1.
Qed.
End copy_batch.

(** ** The copy vocabulary: reachable states *)

Section copy_reach.
Import CopyVocab.
Context {E : Type}.
Variable normal : nat → nat → E.
Implicit Types v : @Vocab E.

Lemma built_synced v : built normal v → synced v.
Proof.
  induction 1 as [a pre|v sent v' _ IH Hadd|v user _ IH|v product _ IH|v v' em _ IH Htrim].
  - apply init_synced.
  - destruct IH as [Hf _].
    destruct (add_sentence_full normal v sent Hf) as (v1 & Hv1 & Hs). congruence.
  - unfold add_user. by destruct (user2id v !! user).
  - unfold add_product. by destruct (product2id v !! product).
  - destruct IH as [Hf _].
    destruct (trim_full v Hf) as (v1 & em1 & Hv1 & Hs & _). congruence.
Qed.

Lemma running_consistent v : running normal v → consistent v.
Proof.
  induction 1 as [v b v' t Hb Hread|v b v' t _ IH Hread].
  - apply built_synced, synced_consistent in Hb.
    by destruct (read_batch_state v b v' t Hb Hread) as (_ & _ & _ & _ & ? & _).
  - by destruct (read_batch_state v b v' t IH Hread) as (_ & _ & _ & _ & ? & _).
Qed.

Lemma consistent_sizes v :
  consistent v →
  size (id2word v) = word_num v ∧ size (word2id v) = word_num v
  ∧ size (word2cnt v) = fixed_num v ∧ length (embed v) = fixed_num v
  ∧ fixed_num v ≤ word_num v.
Proof.
  intros (Hm & Hc & He & Hle).
  by rewrite (wm_size_i2w _ _ _ Hm), (wm_size_w2i _ _ _ Hm), (ct_size _ _ _ Hc).
Qed.
End copy_reach.

(** ** Padding *)

Lemma pad_to_length n ids : length ids ≤ n → length (pad_to n ids) = n.
Proof. intros Hle. unfold pad_to. rewrite length_app, length_replicate. lia. Qed.

Lemma pad_to_full n ids : n ≤ length ids → pad_to n ids = ids.
Proof.
  intros Hle. unfold pad_to. replace (n - length ids) with 0 by lia.
  apply app_nil_r.
Qed.

Lemma elem_of_pad_to n ids i : i ∈ pad_to n ids → i ∈ ids ∨ i = PAD_IDX.
Proof.
  unfold pad_to. intros [?|Hi]%elem_of_app; [by left|right].
  by apply elem_of_replicate_inv in Hi.
Qed.

Lemma take_snoc_length {A} (l : list A) x n :
  length (take n (l ++ [x])) = min (length l + 1) n.
Proof. rewrite length_take, length_app. simpl. lia. Qed.

Lemma take_snoc_le {A} (l : list A) x n :
  n ≤ length l → take n (l ++ [x]) = take n l.
Proof. apply take_app_le. Qed.

(** ** The copy vocabulary: the tensors of a batch *)

Section copy_tensors.
Import CopyVocab.
Context {E : Type}.
Implicit Types v : @Vocab E.

Lemma consistent_reserved_fixed v :
  consistent v → reserved_ok v → 4 ≤ fixed_num v.
Proof.
  intros (Hm & Hc & _ & _) Hr.
  destruct (Hr UNK_IDX UNK_TOKEN) as (Hl & c & Hcnt & _); [unfold reserved; set_solver|].
  destruct (proj1 (ct_dom _ _ _ Hc UNK_TOKEN)) as (i & Hi & Hlt); [eauto|].
  apply Hm in Hl. rewrite Hl in Hi. injection Hi as <-. unfold UNK_IDX in Hlt. lia.
Qed.

(** What [read_batch] does not touch. *)
Lemma read_batch_frame v b v' t :
  consistent v → read_batch v b = Ok (v', t) →
  consistent v'
  ∧ args v' = args v
  ∧ word2cnt v' = word2cnt v
  ∧ embed v' = embed v
  ∧ fixed_num v' = fixed_num v
  ∧ (∀ i, i < fixed_num v → id2word v' !! i = id2word v !! i)
  ∧ (∀ w i, i < fixed_num v → (word2id v' !! w = Some i ↔ word2id v !! w = Some i))
  ∧ (∀ i w, fixed_num v ≤ i → id2word v' !! i = Some w →
       w ∈ concat (split <$> sorted_reviews b)).
Proof.
  intros Hv Hread.
  destruct (reset_dynamic_spec v Hv) as (v0 & Hreset & Hs & Hsame & Hi2w & Hw2i).
  pose proof Hs as [(Hm0 & _ & _) Hfn0].
  destruct (same_fixed_fields _ _ Hsame) as (Ha0 & Hem0 & Hf0 & Hc0 & _).
  destruct (read_batch_state v b v' t Hv Hread)
    as (v1 & Hreset1 & _ & _ & Hv' & (Hsame' & Hsub1 & Hsub2 & _ & Hnew) & Hle).
  rewrite Hreset in Hreset1. injection Hreset1 as <-.
  destruct (same_fixed_fields _ _ Hsame') as (Ha' & Hem' & Hf' & Hc' & _).
  pose proof Hv' as (Hm' & _ & _ & _).
  assert (∀ i w, i < fixed_num v → id2word v' !! i = Some w →
                 id2word v !! i = Some w) as Hback.
  { intros i w Hi Hl. destruct (Hnew i w Hl) as [Hl0|[_ ?]]; [|lia].
    by apply Hi2w in Hl0 as [? _]. }
  split_and!; [done|congruence|congruence|congruence|congruence| | |].
  - intros i Hi. apply option_eq. intros w. split; [by apply Hback|].
    intros Hl. eapply lookup_weaken; [|exact Hsub2]. by apply Hi2w.
  - intros w i Hi. split.
    + intros Hl. apply Hv. apply Hback; [done|]. by apply Hm'.
    + intros Hl. eapply lookup_weaken; [|exact Hsub1]. by apply Hw2i.
  - intros i w Hi Hl. destruct (Hnew i w Hl) as [Hl0|[? _]]; [|done].
    apply Hi2w in Hl0 as [_ ?]. lia.
Qed.

Lemma read_batch_reserved v b v' t :
  consistent v → reserved_ok v → read_batch v b = Ok (v', t) → reserved_ok v'.
Proof.
  intros Hv Hr Hread.
  pose proof (consistent_reserved_fixed v Hv Hr) as H4.
  destruct (read_batch_frame v b v' t Hv Hread) as (_ & _ & Hc & _ & _ & Hid & _).
  intros i tok Hi. destruct (Hr i tok Hi) as [Hl Hcnt].
  rewrite Hc. split; [|done]. rewrite Hid; [done|].
  unfold reserved, PAD_IDX, SOS_IDX, EOS_IDX, UNK_IDX in Hi.
  repeat (apply elem_of_cons in Hi as [[= -> ->]|Hi]); [lia..|by apply elem_of_nil in Hi].
Qed.

Lemma word_id_lt v w :
  consistent v → 4 ≤ fixed_num v → word_id v w < word_num v.
Proof.
  intros (Hm & _ & _ & Hle) H4. unfold word_id.
  destruct (word2id v !! w) as [i|] eqn:Hw.
  - by eapply wordmaps_id_lt.
  - unfold UNK_IDX. lia.
Qed.

(** The only word with the id of EOS is the EOS token. *)
Lemma word_id_EOS v w :
  consistent v → reserved_ok v → word_id v w = EOS_IDX → w = EOS_TOKEN.
Proof.
  intros (Hm & _) Hr. unfold word_id.
  destruct (word2id v !! w) as [i|] eqn:Hw; [|done]. intros ->.
  destruct (Hr EOS_IDX EOS_TOKEN) as [Hl _]; [unfold reserved; set_solver|].
  apply Hm in Hw. congruence.
Qed.


Lemma src_row_eq v L r :
  length (split r) ≤ L →
  src_row v L r = (word_id v <$> split r) ++ replicate (L - length (split r)) PAD_IDX.
Proof.
  intros Hle. unfold src_row, src_tokens, pad_to.
  by rewrite take_ge, length_fmap by done.
Qed.


Lemma trg_tokens_length M s :
  length (trg_tokens M s) = min (length (split s) + 1) M.
Proof. apply take_snoc_length. Qed.


Lemma safe_ids_length v ids : length (safe_ids v ids) = length ids.
Proof. apply length_fmap. Qed.

(** Row [i] of [src] and of [trg]. *)
Lemma tensors_src_lookup v b L i :
  src (tensors v b L) !! i = src_row v L <$> sorted_reviews b !! i.
Proof. apply list_lookup_fmap. Qed.

Lemma tensors_rows v b L i s :
  sorted_summaries b !! i = Some s →
  ∃ r, sorted_reviews b !! i = Some r
    ∧ src (tensors v b L) !! i = Some (src_row v L r)
    ∧ trg (tensors v b L) !! i
      = Some (trg_row v (sum_max_len (args v)) (src_row v L r) s).
Proof.
  intros Hs.
  destruct (lookup_lt_is_Some_2 (sorted_reviews b) i) as [r Hr].
  { rewrite sorted_reviews_length, <- sorted_summaries_length.
    by eapply lookup_lt_Some. }
  exists r. split; [done|].
  assert (src (tensors v b L) !! i = Some (src_row v L r)) as Hsrc.
  { by rewrite tensors_src_lookup, Hr. }
  split; [done|]. simpl. rewrite list_lookup_imap, Hs. simpl.
  do 2 f_equal. by apply list_lookup_total_correct.
Qed.
End copy_tensors.

(** ** The memory tensoriser *)

Lemma take_drop_sorted {A} (key : A → Z) (l : list A) n :
  StronglySorted (desc key) l →
  StronglySorted (desc key) (take n l)
  ∧ ∀ x y, x ∈ take n l → y ∈ drop n l → (key y ≤ key x)%Z.
Proof.
  intros Hs. rewrite <- (take_drop n l) in Hs.
  apply StronglySorted_app in Hs as (Hle & Hl & _).
  split; [done|]. intros x y Hx Hy. by apply (Hle x y).
Qed.

Section mem_facts.
Import MemVocab.
Context {E : Type}.
Implicit Types v : @Vocab E.

Lemma mem_batch_order_perm b : batch_order b ≡ₚ seq 0 (length (summary b)).
Proof. apply sort_desc_perm. Qed.

Lemma mem_sorted_reviews_head b :
  summary b ≠ [] → ∃ first, sorted_reviews b !! 0 = Some first.
Proof.
  intros Hne. apply lookup_lt_is_Some_2.
  unfold sorted_reviews. rewrite length_fmap, mem_batch_order_perm, length_seq.
  destruct (summary b); [done|simpl; lia].
Qed.

Lemma make_tensors_inv v b td t :
  make_tensors v b td = Ok t →
  ∃ first rows, sorted_reviews b !! 0 = Some first
    ∧ mem_examples v b td (batch_order b) = Ok rows
    ∧ t = {| src := (λ r, text_row v (length (split first)) (split r))
                     <$> sorted_reviews b;
             trg := trg_row v (sum_max_len (args v)) <$> sorted_summaries b;
             mem := rows;
             src_text := sorted_reviews b;
             trg_text := sorted_summaries b |}.
Proof.
  unfold make_tensors. case_bool_decide; [|done].
  intros (first & Hfirst%getindex_Ok & (rows & Hrows & [= <-])%bind_Ok)%bind_Ok.
  by exists first, rows.
Qed.

(** *** Sorting and truncating the entries *)

Lemma keyed_spec ps ks :
  keyed ps = Ok ks → ks.*2 = ps ∧ Forall (λ kp, score kp.2 = Ok kp.1) ks.
Proof.
  revert ks. induction ps as [|p ps IH]; intros ks; simpl.
  - by intros [= <-].
  - intros (k & Hk & (rest & Hrest & [= <-])%bind_Ok)%bind_Ok.
    destruct (IH _ Hrest) as [<- Hall]. split; [done|]. by constructor.
Qed.

Lemma retained_spec cap ps kept :
  retained cap ps = Ok kept →
  ∃ ks dropped, keyed ps = Ok ks
    ∧ kept ++ dropped ≡ₚ ks
    ∧ length kept = min cap (length ps)
    ∧ StronglySorted (desc fst) kept
    ∧ ∀ x y, x ∈ kept → y ∈ dropped → (y.1 ≤ x.1)%Z.
Proof.
  unfold retained. intros (ks & Hks & [= <-])%bind_Ok.
  exists ks, (drop cap (sort_desc fst ks)).
  destruct (keyed_spec _ _ Hks) as [Hps _].
  destruct (take_drop_sorted fst (sort_desc fst ks) cap (sort_desc_sorted fst ks))
    as [Hsorted Hle].
  split_and!; [done| | |done|done].
  - by rewrite take_drop, sort_desc_perm.
  - by rewrite length_take, sort_desc_length, <- Hps, length_fmap.
Qed.

(** *** The rows of the retained entries *)

Lemma rows_len_app n m a r : rows_len n a → rows_len m r → rows_len (n + m) (rows_app a r).
Proof.
  intros (? & ? & ? & ?) (? & ? & ? & ?).
  unfold rows_len. simpl. rewrite !length_app. lia.
Qed.

Lemma piece_rows_len v td u p x rows :
  piece_rows v td u p x = Ok rows → rows_len 1 rows.
Proof.
  unfold piece_rows.
  intros (gold & _ & (k & _ & (ex & _ & Hrest)%bind_Ok)%bind_Ok)%bind_Ok.
  case_bool_decide; [|done]. by injection Hrest as <-.
Qed.

Lemma pieces_rows_len v td u p ps rows :
  pieces_rows v td u p ps = Ok rows → rows_len (length ps) rows.
Proof.
  revert rows. induction ps as [|x ps IH]; intros rows; simpl.
  - by intros [= <-].
  - intros (a & Ha & (rest & Hrest & [= <-])%bind_Ok)%bind_Ok.
    apply (rows_len_app 1 (length ps)); [by eapply piece_rows_len|by apply IH].
Qed.

(** What one retained entry writes. *)
Lemma piece_rows_inv v td user product p rows :
  piece_rows v td user product p = Ok rows →
  ∃ gold k ex,
    getindexZ p 2 = Ok gold ∧ getindexZ p 0 = Ok k ∧ getindexZ td k = Ok ex
    ∧ (ex_userID ex = user ∨ ex_productID ex = product)
    ∧ rows = {| mem_up := [[ if bool_decide (ex_userID ex = user) then 1 else 0;
                             if bool_decide (ex_productID ex = product) then 1 else 0 ]];
                mem_review := [text_row v (review_max_len (args v))
                                 (split (ex_reviewText ex))];
                mem_sum := [text_row v (sum_max_len (args v)) (split (ex_summary ex))];
                mem_gold := [gold] |}.
Proof.
  unfold piece_rows.
  intros (gold & Hg & (k & Hk & (ex & Hex & Hrest)%bind_Ok)%bind_Ok)%bind_Ok.
  case_bool_decide as Hown; [|done]. injection Hrest as <-.
  by exists gold, k, ex.
Qed.

Lemma pieces_rows_lookup v td user product ps rows j piece :
  pieces_rows v td user product ps = Ok rows → ps !! j = Some piece →
  ∃ gold k ex,
    getindexZ piece 2 = Ok gold ∧ getindexZ piece 0 = Ok k ∧ getindexZ td k = Ok ex
    ∧ (ex_userID ex = user ∨ ex_productID ex = product)
    ∧ mem_gold rows !! j = Some gold
    ∧ mem_up rows !! j
      = Some [ if bool_decide (ex_userID ex = user) then 1 else 0;
               if bool_decide (ex_productID ex = product) then 1 else 0 ]
    ∧ mem_review rows !! j
      = Some (text_row v (review_max_len (args v)) (split (ex_reviewText ex)))
    ∧ mem_sum rows !! j
      = Some (text_row v (sum_max_len (args v)) (split (ex_summary ex))).
Proof.
  revert rows j. induction ps as [|p ps IH]; intros rows j; simpl; [done|].
  intros (a & Ha & (rest & Hrest & [= <-])%bind_Ok)%bind_Ok Hj.
  apply piece_rows_inv in Ha as (gold & k & ex & Hg & Hk & Hex & Hown & ->).
  destruct j as [|j]; simpl in *.
  - injection Hj as <-. by exists gold, k, ex.
  - by apply IH.
Qed.

Lemma filler_len v n : rows_len n (filler v n).
Proof. unfold rows_len. simpl. by rewrite !length_replicate. Qed.

(** *** One example, then all of them *)

Lemma mem_example_inv v b td i blk :
  mem_example v b td i = Ok blk →
  ∃ user product pr ur kept rows,
    userID b !! i = Some user ∧ productID b !! i = Some product
    ∧ product_review b !! i = Some pr ∧ user_review b !! i = Some ur
    ∧ retained (mem_size (args v)) (pr ++ ur) = Ok kept
    ∧ pieces_rows v td user product kept.*2 = Ok rows
    ∧ blk = rows_app rows (filler v (mem_size (args v) - length kept)).
Proof.
  unfold mem_example.
  intros (user & Hu%getindex_Ok & (product & Hp%getindex_Ok & Hrest)%bind_Ok)%bind_Ok.
  apply bind_Ok in Hrest as (pr & Hpr%getindex_Ok & Hrest).
  apply bind_Ok in Hrest as (ur & Hur%getindex_Ok & Hrest).
  apply bind_Ok in Hrest as (kept & Hkept & Hrest).
  apply bind_Ok in Hrest as (rows & Hrows & [= <-]).
  by exists user, product, pr, ur, kept, rows.
Qed.

Lemma mem_examples_blocks v b td idx rows :
  mem_examples v b td idx = Ok rows →
  ∃ blocks, rows = foldr rows_app rows_nil blocks
    ∧ Forall2 (λ i blk, mem_example v b td i = Ok blk) idx blocks.
Proof.
  revert rows. induction idx as [|i idx IH]; intros rows; simpl.
  - intros [= <-]. exists []. split; [done|constructor].
  - intros (a & Ha & (rest & Hrest & [= <-])%bind_Ok)%bind_Ok.
    destruct (IH _ Hrest) as (blocks & -> & Hall).
    exists (a :: blocks). split; [done|]. by constructor.
Qed.
End mem_facts.

Section mem_cases.
Import MemVocab.
Context {E : Type}.
Implicit Types v : @Vocab E.

Lemma bind_Ok_l {A B} (a : A) (f : A → result B) : Ok a ≫= f = f a.
Proof. done. Qed.

Lemma getindexZ_nat {A} (l : list A) (i : nat) : getindexZ l (Z.of_nat i) = getindex l i.
Proof.
  unfold getindexZ. rewrite bool_decide_eq_true_2 by lia. by rewrite Nat2Z.id.
Qed.

Lemma score_total td p : piece_ok td p → ∃ k, score p = Ok k.
Proof.
  intros [Hlen _]. unfold score, getindexZ.
  rewrite bool_decide_eq_false_2 by lia. rewrite bool_decide_eq_true_2 by lia.
  destruct (lookup_lt_is_Some_2 p (Z.to_nat (Z.of_nat (length p) + -2))) as [k Hk]; [lia|].
  exists k. by apply getindex_Some.
Qed.

Lemma keyed_total td ps :
  Forall (piece_ok td) ps → ∃ ks, keyed ps = Ok ks.
Proof.
  induction 1 as [|p ps Hp _ [ks IH]]; simpl; [eauto|].
  destruct (score_total td p Hp) as [k ->]. simpl. rewrite IH. simpl. eauto.
Qed.

Lemma retained_total td cap ps :
  Forall (piece_ok td) ps →
  ∃ kept, retained cap ps = Ok kept ∧ Forall (piece_ok td) kept.*2.
Proof.
  intros Hps. destruct (keyed_total td ps Hps) as [ks Hks].
  unfold retained. rewrite Hks. simpl. eexists. split; [done|].
  destruct (keyed_spec _ _ Hks) as [Hsnd _].
  apply Forall_forall. intros p Hp.
  rewrite Forall_forall in Hps. apply Hps. rewrite <- Hsnd.
  apply list_elem_of_fmap in Hp as (kp & -> & Hkp). apply list_elem_of_fmap_2.
  rewrite <- (sort_desc_perm fst ks). eapply elem_of_take in Hkp as (j & Hj & _).
  by eapply list_elem_of_lookup_2.
Qed.

Lemma piece_rows_cases v td u p x :
  piece_ok td x →
  (∃ rows, piece_rows v td u p x = Ok rows ∧ ¬ foreign td u p x)
  ∨ (piece_rows v td u p x = Raise AssertionError ∧ foreign td u p x).
Proof.
  intros (Hlen & k & ex & Hk & Hex).
  assert (getindexZ x 0 = Ok k) as H0.
  { change (getindexZ x (Z.of_nat 0) = Ok k).
    rewrite getindexZ_nat. by apply getindex_Some. }
  destruct (lookup_lt_is_Some_2 x 2) as [g Hg]; [lia|].
  assert (getindexZ x 2 = Ok g) as H2.
  { change (getindexZ x (Z.of_nat 2) = Ok g).
    rewrite getindexZ_nat. by apply getindex_Some. }
  unfold piece_rows. rewrite H2. simpl. rewrite H0. simpl. rewrite Hex. simpl.
  case_bool_decide as Hown.
  - left. eexists. split; [done|].
    intros (k' & ex' & Hk' & Hex' & Hu & Hp).
    rewrite H0 in Hk'. injection Hk' as <-.
    rewrite Hex in Hex'. injection Hex' as <-. by destruct Hown.
  - right. split; [done|]. exists k, ex. split_and!; [done|done| |].
    + intros Heq. apply Hown. by left.
    + intros Heq. apply Hown. by right.
Qed.

Lemma pieces_rows_cases v td u p ps :
  Forall (piece_ok td) ps →
  (∃ rows, pieces_rows v td u p ps = Ok rows ∧ ∀ x, x ∈ ps → ¬ foreign td u p x)
  ∨ (pieces_rows v td u p ps = Raise AssertionError
     ∧ ∃ x, x ∈ ps ∧ foreign td u p x).
Proof.
  induction 1 as [|x ps Hx _ IH]; simpl.
  - left. eexists. split; [done|]. intros x Hx. by apply elem_of_nil in Hx.
  - destruct (piece_rows_cases v td u p x Hx) as [(a & -> & Ha)|[-> Ha]]; simpl.
    + destruct IH as [(rest & -> & Hrest)|[-> (y & Hy & Hf)]]; simpl.
      * left. eexists. split; [done|].
        intros y [->|Hy]%elem_of_cons; [done|by apply Hrest].
      * right. split; [done|]. exists y. split; [by right|done].
    + right. split; [done|]. exists x. split; [by left|done].
Qed.

Lemma mem_example_cases v b td i :
  mem_batch_ok b td → i < length (reviewText b) →
  ∃ user product,
    userID b !! i = Some user ∧ productID b !! i = Some product
    ∧ ((∃ blk, mem_example v b td i = Ok blk
          ∧ ∀ x, x ∈ retained_pieces v b i → ¬ foreign td user product x)
       ∨ (mem_example v b td i = Raise AssertionError
          ∧ ∃ x, x ∈ retained_pieces v b i ∧ foreign td user product x)).
Proof.
  intros (_ & _ & Hu & Hp & Hpr & Hur & Hprs & Hurs) Hi.
  destruct (lookup_lt_is_Some_2 (userID b) i) as [user Huser]; [lia|].
  destruct (lookup_lt_is_Some_2 (productID b) i) as [product Hproduct]; [lia|].
  destruct (lookup_lt_is_Some_2 (product_review b) i) as [pr Hpri]; [lia|].
  destruct (lookup_lt_is_Some_2 (user_review b) i) as [ur Huri]; [lia|].
  exists user, product. split_and!; [done|done|].
  assert (Forall (piece_ok td) (pr ++ ur)) as Hok.
  { apply Forall_app. split.
    - rewrite Forall_forall in Hprs. by eapply Hprs, list_elem_of_lookup_2.
    - rewrite Forall_forall in Hurs. by eapply Hurs, list_elem_of_lookup_2. }
  destruct (retained_total td (mem_size (args v)) _ Hok) as (kept & Hkept & Hkok).
  unfold mem_example, retained_pieces.
  rewrite (getindex_Some _ _ _ Huser), (getindex_Some _ _ _ Hproduct),
    (getindex_Some _ _ _ Hpri), (getindex_Some _ _ _ Huri), Hpri, Huri, Hkept.
  rewrite !bind_Ok_l, Hkept, bind_Ok_l.
  destruct (pieces_rows_cases v td user product _ Hkok)
    as [(rows & -> & Hrows)|[-> Hbad]]; simpl.
  - left. eexists. by split.
  - by right.
Qed.

Lemma mem_examples_cases v b td idx :
  mem_batch_ok b td → (∀ i, i ∈ idx → i < length (reviewText b)) →
  (∃ rows, mem_examples v b td idx = Ok rows
     ∧ ∀ i user product x, i ∈ idx →
         userID b !! i = Some user → productID b !! i = Some product →
         x ∈ retained_pieces v b i → ¬ foreign td user product x)
  ∨ (mem_examples v b td idx = Raise AssertionError
     ∧ ∃ i user product x, i ∈ idx
         ∧ userID b !! i = Some user ∧ productID b !! i = Some product
         ∧ x ∈ retained_pieces v b i ∧ foreign td user product x).
Proof.
  intros Hb. induction idx as [|i idx IH]; intros Hidx; simpl.
  - left. eexists. split; [done|]. intros i ? ? ? Hi. by apply elem_of_nil in Hi.
  - destruct (mem_example_cases v b td i Hb) as (user & product & Hu & Hp & Hcase);
      [apply Hidx; by left|].
    destruct Hcase as [(blk & -> & Hgood)|[-> (x & Hx & Hf)]]; simpl.
    + destruct IH as [(rest & -> & Hrest)|[-> (j & u' & p' & x & Hj & ? & ? & ? & ?)]];
        [intros j Hj; apply Hidx; by right| |]; simpl.
      * left. eexists. split; [done|].
        intros j u' p' x [->|Hj]%elem_of_cons Hu' Hp' Hx.
        -- rewrite Hu in Hu'. rewrite Hp in Hp'. injection Hu' as <-.
           injection Hp' as <-. by apply Hgood.
        -- by eapply Hrest.
      * right. split; [done|]. exists j, u', p', x. split_and!; [by right|done..].
    + right. split; [done|]. exists i, user, product, x. split_and!; [by left|done..].
Qed.
End mem_cases.

Section model_facts.
Import Model.
Context {T : Type}.
Variables (zero one neg_inf : T).
Variables (add sub mul div : T → T → T).
Variables (exp tanh sigmoid : T → T).
Variable is_neg_inf : T → bool.
Variable dropout : list T → list T.
Variable gru : list T → list (list T) → list T * list (list T).

Lemma masses_not_in id index (vals : list T) : id ∉ index → masses id index vals = [].
Proof.
  revert vals. induction index as [|i index IH]; intros vals Hid; [by destruct vals|].
  apply not_elem_of_cons in Hid as [Hne Hid]. destruct vals as [|x vals]; [done|].
  simpl. rewrite decide_False by done. by apply IH.
Qed.

Lemma scatter_add_spec acc index vals :
  length index ≤ length vals → (∀ i, i ∈ index → i < length acc) →
  ∃ acc', scatter_add add acc index vals = Ok acc'
    ∧ length acc' = length acc
    ∧ ∀ id, acc' !! id = (λ a, foldl add a (masses id index vals)) <$> acc !! id.
Proof.
  revert acc vals. induction index as [|i index IH]; intros acc vals Hlen Hidx; simpl.
  - exists acc. split_and!; [done|done|]. intros id. by destruct (acc !! id).
  - destruct vals as [|x vals]; [simpl in Hlen; lia|].
    destruct (lookup_lt_is_Some_2 acc i) as [a Ha]; [apply Hidx; by left|].
    rewrite Ha.
    destruct (IH (<[i := add a x]> acc) vals) as (acc' & -> & Hl & Hspec).
    { simpl in Hlen. lia. }
    { intros j Hj. rewrite length_insert. apply Hidx. by right. }
    exists acc'. split_and!; [done|by rewrite Hl, length_insert|].
    intros id. rewrite Hspec. destruct (decide (i = id)) as [->|Hne].
    + rewrite list_lookup_insert_eq by (by eapply lookup_lt_Some). by rewrite Ha.
    + by rewrite list_lookup_insert_ne by done.
Qed.

Lemma copy_dist_spec vocab_size src attn_probs :
  length src ≤ length attn_probs → (∀ i, i ∈ src → i < vocab_size) →
  ∃ copy_prob, copy_dist zero add vocab_size src attn_probs = Ok copy_prob
    ∧ length copy_prob = vocab_size
    ∧ ∀ id, id < vocab_size →
        copy_prob !! id = Some (foldl add zero (masses id src attn_probs)).
Proof.
  intros Hlen Hidx. unfold copy_dist.
  destruct (scatter_add_spec (replicate vocab_size zero) src attn_probs Hlen)
    as (cp & Hcp & Hl & Hspec).
  { intros i Hi. rewrite length_replicate. by apply Hidx. }
  exists cp. split_and!; [done|by rewrite Hl, length_replicate|].
  intros id Hid. by rewrite Hspec, lookup_replicate_2.
Qed.

Lemma pad_gen_spec vocab_size gen_prob :
  length gen_prob ≤ vocab_size →
  length (pad_gen zero vocab_size gen_prob) = vocab_size
  ∧ (∀ id, id < length gen_prob → pad_gen zero vocab_size gen_prob !! id = gen_prob !! id)
  ∧ (∀ id, length gen_prob ≤ id → id < vocab_size →
       pad_gen zero vocab_size gen_prob !! id = Some zero).
Proof.
  intros Hle. unfold pad_gen. case_bool_decide as Hlt.
  - split_and!.
    + rewrite length_app, length_replicate. lia.
    + intros id Hid. by apply lookup_app_l.
    + intros id Hge Hid. rewrite lookup_app_r by done.
      apply lookup_replicate_2. lia.
  - split_and!; [lia|done|]. intros id ? ?. lia.
Qed.

Lemma mix_spec g gen_prob copy_prob :
  length gen_prob = length copy_prob →
  ∃ mix_prob, mix one add sub mul g gen_prob copy_prob = Ok mix_prob
    ∧ length mix_prob = length gen_prob
    ∧ ∀ id gp cp, gen_prob !! id = Some gp → copy_prob !! id = Some cp →
        mix_prob !! id = Some (add (mul g gp) (mul (sub one g) cp)).
Proof.
  intros Hlen. unfold mix, bcast_add.
  rewrite bool_decide_eq_true_2 by (by rewrite !length_fmap).
  eexists. split_and!; [done| |].
  - rewrite length_zip_with, !length_fmap. lia.
  - intros id gp cp Hg Hc.
    rewrite lookup_zip_with, !list_lookup_fmap, Hg, Hc. done.
Qed.

Lemma softmax_length xs : length (softmax zero add div exp xs) = length xs.
Proof. unfold softmax. by rewrite !length_fmap. Qed.

Lemma linear_length (l : Linear) x :
  length (linear zero add mul l x) ≤ length (weight l).
Proof.
  unfold linear. destruct (bias l).
  - rewrite length_zip_with, length_fmap. lia.
  - by rewrite length_fmap.
Qed.

Lemma attention_forward_masked att query proj_key value mask :
  length mask = length proj_key →
  ∃ context alphas,
    attention_forward zero neg_inf add mul div exp tanh att query proj_key value
      (Some mask) = Ok (context, alphas)
    ∧ length alphas = length proj_key.
Proof.
  intros Hlen. unfold attention_forward, masked_fill.
  rewrite bool_decide_eq_true_2 by (by rewrite length_fmap).
  simpl. eexists _, _. split; [done|].
  rewrite softmax_length, length_zip_with, length_fmap. lia.
Qed.

Lemma step_trace_total d prev_embed encoder_hidden src_mask proj_key encoder_attr
    proj_key_attr hidden context_hidden :
  (gru (prev_embed ++ context_hidden) hidden).2 ≠ [] →
  length src_mask = length proj_key →
  ∃ s, step_trace zero neg_inf add mul div exp tanh gru d prev_embed encoder_hidden
         src_mask proj_key encoder_attr proj_key_attr hidden context_hidden = Ok s
    ∧ length (st_attn_probs s) = length proj_key.
Proof.
  intros Hgru Hmask. unfold step_trace.
  destruct (gru (prev_embed ++ context_hidden) hidden) as [out hidden'].
  simpl in Hgru.
  destruct (last hidden') as [query|] eqn:Hlast;
    [|by apply last_None in Hlast].
  simpl.
  destruct (attention_forward_masked (attention d) query proj_key encoder_hidden
              src_mask Hmask) as (context & alphas & -> & Halphas).
  simpl. eexists. split; [done|]. done.
Qed.
End model_facts.

(** ** The example inputs *)

Lemma demo_read_ok : CopyVocab.read_batch demo_vocab demo_batch = Ok demo_read.
Proof. vm_compute. reflexivity. Qed.

Lemma mem_tensors_ok :
  MemVocab.make_tensors mem_vocab mem_batch mem_corpus = Ok mem_tensors.
Proof. vm_compute. reflexivity. Qed.

Lemma piece_ok_intro td (p : MemVocab.MemPiece) k ex :
  3 ≤ length p → p !! 0 = Some k → getindexZ td k = Ok ex → piece_ok td p.
Proof. intros. split; [done|]. by exists k, ex. Qed.

Lemma bad_batch_ok : mem_batch_ok bad_batch mem_corpus.
Proof.
  unfold mem_batch_ok. simpl. split_and!; try done.
  - repeat constructor. eapply piece_ok_intro; [simpl; lia|reflexivity|reflexivity].
  - repeat constructor.
Qed.

(** The fixed ids are PAD 0, SOS 1, EOS 2, UNK 3, a 4, b 5, c 6; the
    source word [x] gets the id 7 and keeps it in the target, the target
    word [y] becomes UNK. *)
Example abc_read_batch :
  ∃ v' t, CopyVocab.read_batch abc_vocab abc_batch = Ok (v', t)
    ∧ CopyVocab.fixed_num v' = 7 ∧ CopyVocab.word_num v' = 8
    ∧ CopyVocab.word2id v' !! "x"%string = Some 7
    ∧ CopyVocab.src t = [[4; 5; 7]] ∧ CopyVocab.src_embed t = [[4; 5; 3]]
    ∧ CopyVocab.trg t = [[7; 3; 2; 0]] ∧ CopyVocab.trg_embed t = [[3; 3; 2; 0]]
    ∧ CopyVocab.src_mask t = [[1; 1; 1]]
    ∧ CopyVocab.src_lens t = [3] ∧ CopyVocab.trg_lens t = [3].
Proof. eexists _, _. split; [vm_compute; reflexivity|]. by vm_compute. Qed.


Lemma pad_read_ok : CopyVocab.read_batch abc_vocab pad_batch = Ok pad_read.
Proof. vm_compute. reflexivity. Qed.

(** The batch is reordered to [a b c y], [a x], [b]; the rows are padded
    on the right with 0, and the ids 7 and 8 of the dynamic words [y] and
    [x] are 3 in the rows for the embedding layer. *)
Example pad_read_tensors :
  CopyVocab.src_text pad_read.2 = ["a b c y"%string; "a x"%string; "b"%string]
  ∧ CopyVocab.trg_text pad_read.2 = ["x y z w v"%string; "a"%string; "b c"%string]
  ∧ CopyVocab.src pad_read.2 = [[4; 5; 6; 7]; [4; 8; 0; 0]; [5; 0; 0; 0]]
  ∧ CopyVocab.src_embed pad_read.2 = [[4; 5; 6; 3]; [4; 3; 0; 0]; [5; 0; 0; 0]]
  ∧ CopyVocab.src_mask pad_read.2 = [[1; 1; 1; 1]; [1; 1; 0; 0]; [1; 0; 0; 0]]
  ∧ CopyVocab.src_lens pad_read.2 = [4; 2; 1]
  ∧ CopyVocab.trg pad_read.2 = [[3; 7; 3; 3]; [4; 2; 0; 0]; [5; 6; 2; 0]]
  ∧ CopyVocab.trg_embed pad_read.2 = [[3; 3; 3; 3]; [4; 2; 0; 0]; [5; 6; 2; 0]]
  ∧ CopyVocab.trg_lens pad_read.2 = [4; 2; 3].
Proof. vm_compute. done. Qed.

(** The three entries of the first example have the keys 7, 1 and 2: the
    entries with the keys 7 and 2 are kept, in this order; the second
    example gets two placeholder rows. *)
Example mem_tensors_rows :
  MemVocab.src_text mem_tensors = ["a b c d"%string; "a b"%string]
  ∧ MemVocab.mem_gold (MemVocab.mem mem_tensors) = [0; 0; 7; 2]%Z
  ∧ MemVocab.mem_up (MemVocab.mem mem_tensors) = [[0; 0]; [0; 0]; [0; 1]; [1; 0]]
  ∧ MemVocab.mem_review (MemVocab.mem mem_tensors)
    = [[0; 0; 0; 0]; [0; 0; 0; 0]; [5; 5; 0; 0]; [4; 5; 4; 0]]
  ∧ MemVocab.mem_sum (MemVocab.mem mem_tensors)
    = [[0; 0; 0]; [0; 0; 0]; [4; 4; 4]; [5; 0; 0]].
Proof. by vm_compute. Qed.

(** * The claims *)

(** C1.  On a consistent state whose fixed segment holds the four
    reserved ids, [read_batch] returns for every batch, and in every row
    of [trg] each id is below [word_num] (the vocabulary size after the
    dynamic extension) and each id at or above [fixed_num] occurs in the
    row of [src] of the same example; the id written for a target token
    is UNK (3) when the token's vocabulary id is at or above [fixed_num]
    and not in that source row, and the vocabulary id otherwise. *)
Theorem copy_reachability {E : Type} (v : @CopyVocab.Vocab E) (b : CopyVocab.Batch) :
  consistent v → 4 ≤ CopyVocab.fixed_num v → batch_ok b →
  ∃ v' t, CopyVocab.read_batch v b = Ok (v', t)
    ∧ ∀ i row, CopyVocab.trg t !! i = Some row →
        ∃ srow s, CopyVocab.src t !! i = Some srow
          ∧ CopyVocab.trg_text t !! i = Some s
          ∧ (∀ id, id ∈ row →
               id < CopyVocab.word_num v'
               ∧ (CopyVocab.fixed_num v' ≤ id → id ∈ srow))
          ∧ (∀ j w,
               CopyVocab.trg_tokens (CopyVocab.sum_max_len (CopyVocab.args v')) s !! j
                 = Some w →
               row !! j
               = Some (if decide (CopyVocab.fixed_num v' ≤ CopyVocab.word_id v' w
                                  ∧ CopyVocab.word_id v' w ∉ srow)
                       then UNK_IDX else CopyVocab.word_id v' w)).
Proof.
  intros Hv H4 Hb.
  destruct (read_batch_total v b Hv Hb) as (v1 & first & Hreset & Hfirst & Hread).
  eexists _, _. split; [exact Hread|].
  destruct (read_batch_frame _ _ _ _ Hv Hread) as (Hv' & _ & _ & _ & Hfn & _).
  set (v' := CopyVocab.extend_dynamic v1 (CopyVocab.sorted_reviews b)) in *.
  assert (4 ≤ CopyVocab.fixed_num v') as H4' by lia.
  assert (CopyVocab.fixed_num v' ≤ CopyVocab.word_num v') as Hle by apply Hv'.
  intros i row Hrow.
  assert (is_Some (CopyVocab.sorted_summaries b !! i)) as [s Hs].
  { apply lookup_lt_is_Some_2. apply lookup_lt_Some in Hrow.
    simpl in Hrow. by rewrite length_imap in Hrow. }
  destruct (tensors_rows v' b (length (split first)) i s Hs) as (r & Hr & Hsrc & Htrg).
  rewrite Htrg in Hrow. injection Hrow as <-.
  eexists _, s. split_and!; [exact Hsrc|exact Hs| |].
  - intros id Hid. unfold CopyVocab.trg_row in Hid.
    apply elem_of_pad_to in Hid as [Hid| ->]; [|unfold PAD_IDX; lia].
    apply list_elem_of_fmap in Hid as (w & -> & _).
    unfold CopyVocab.trg_id.
    pose proof (word_id_lt v' w Hv' H4').
    case_bool_decide as Hge; simpl; [|split; [done|lia]].
    case_bool_decide as Hin; simpl; [by split|]. unfold UNK_IDX. split; lia.
  - intros j w Hj. unfold CopyVocab.trg_row, pad_to.
    rewrite lookup_app_l by (rewrite length_fmap; by eapply lookup_lt_Some).
    rewrite list_lookup_fmap, Hj. simpl. f_equal. unfold CopyVocab.trg_id.
    case_decide as Hd.
    + destruct Hd as [Hge Hnin].
      by rewrite bool_decide_eq_true_2, bool_decide_eq_false_2 by done.
    + case_bool_decide as Hge; simpl; [|done].
      case_bool_decide as Hin; simpl; [done|]. by destruct Hd.
Qed.

Lemma copy_reachability_witness :
  ∃ v' t, CopyVocab.read_batch demo_vocab demo_batch = Ok (v', t)
    ∧ ∀ i row, CopyVocab.trg t !! i = Some row →
        ∃ srow s, CopyVocab.src t !! i = Some srow
          ∧ CopyVocab.trg_text t !! i = Some s
          ∧ (∀ id, id ∈ row →
               id < CopyVocab.word_num v'
               ∧ (CopyVocab.fixed_num v' ≤ id → id ∈ srow))
          ∧ (∀ j w,
               CopyVocab.trg_tokens (CopyVocab.sum_max_len (CopyVocab.args v')) s !! j
                 = Some w →
               row !! j
               = Some (if decide (CopyVocab.fixed_num v' ≤ CopyVocab.word_id v' w
                                  ∧ CopyVocab.word_id v' w ∉ srow)
                       then UNK_IDX else CopyVocab.word_id v' w)).
Proof.
  apply (copy_reachability demo_vocab demo_batch).
  - apply synced_consistent. apply (init_synced demo_normal demo_args None).
  - vm_compute. lia.
  - split; [discriminate|reflexivity].
Defined.

Section mixing.
Import Model.
Context {T : Type}.
Variables (zero one neg_inf : T).
Variables (add sub mul div : T → T → T).
Variables (exp tanh sigmoid : T → T).
Variable dropout : list T → list T.
Variable gru : list T → list (list T) → list T * list (list T).

(** C2.  One decode step on one example, for any parameter values and
    any scalar arithmetic.  With a decoder of at least one layer, one
    mask entry and one key per source position, every source id below
    [vocab_size] and a generator of at most [vocab_size] outputs, the
    step returns, and: the generation distribution has [vocab_size]
    entries, those of the softmax followed by zeros, so it is exactly 0
    at every id from the size of the softmax on; the copy distribution
    at an id is 0 plus the attention weights of the source positions
    that hold this id, added in order, so it is exactly 0 at an id that
    is not in the source row; the output at an id is
    [gate * generation + (1 - gate) * copy]; and the gate is the sigmoid
    of a linear function of context, attribute context, query and
    previous embedding. *)
Theorem mixing_law (d : Decoder) (src : list nat) (prev_embed : list T)
    (encoder_hidden : list (list T)) (src_mask : list nat)
    (proj_key encoder_attr proj_key_attr hidden : list (list T))
    (context_hidden : list T) (vocab_size : nat) :
  (gru (prev_embed ++ context_hidden) hidden).2 ≠ [] →
  length src_mask = length proj_key →
  length src = length proj_key →
  (∀ id, id ∈ src → id < vocab_size) →
  length (weight (generator d)) ≤ vocab_size →
  ∃ s copy_prob mix_prob,
    step_trace zero neg_inf add mul div exp tanh gru d prev_embed encoder_hidden
      src_mask proj_key encoder_attr proj_key_attr hidden context_hidden = Ok s
    ∧ copy_dist zero add vocab_size src (st_attn_probs s) = Ok copy_prob
    ∧ decode_step zero one neg_inf add sub mul div exp tanh sigmoid dropout gru d src
        prev_embed encoder_hidden src_mask proj_key encoder_attr proj_key_attr hidden
        context_hidden vocab_size
      = Ok (st_hidden s, st_context_hidden s, mix_prob)
    ∧ let gen_softmax :=
        softmax zero add div exp
          (linear zero add mul (generator d) (dropout (st_context_hidden s))) in
      let gen_prob := gen_dist zero add mul div exp dropout d vocab_size s in
      let gen_p := gate zero add mul sigmoid d prev_embed s in
      length gen_prob = vocab_size
      ∧ length copy_prob = vocab_size
      ∧ length mix_prob = vocab_size
      ∧ (∀ id, id < length gen_softmax → gen_prob !! id = gen_softmax !! id)
      ∧ (∀ id, length gen_softmax ≤ id → id < vocab_size → gen_prob !! id = Some zero)
      ∧ (∀ id, id < vocab_size →
           copy_prob !! id = Some (foldl add zero (masses id src (st_attn_probs s))))
      ∧ (∀ id, id < vocab_size → id ∉ src → copy_prob !! id = Some zero)
      ∧ (∀ id, id < vocab_size →
           ∃ gp cp, gen_prob !! id = Some gp ∧ copy_prob !! id = Some cp
             ∧ mix_prob !! id = Some (add (mul gen_p gp) (mul (sub one gen_p) cp)))
      ∧ gen_p = sigmoid (add (dot zero add mul (weight1 (gen_p_layer d))
                                (st_context s ++ st_context_attr s ++ st_query s
                                 ++ prev_embed))
                            (bias1 (gen_p_layer d))).
Proof.
  intros Hgru Hmask Hsrc Hids Hgen.
  destruct (step_trace_total zero neg_inf add mul div exp tanh gru d prev_embed
              encoder_hidden src_mask proj_key encoder_attr proj_key_attr hidden
              context_hidden Hgru Hmask) as (s & Hs & Hattn).
  destruct (copy_dist_spec zero add vocab_size src (st_attn_probs s))
    as (copy_prob & Hcopy & Hclen & Hcspec); [lia|done|].
  set (gen_softmax := softmax zero add div exp
         (linear zero add mul (generator d) (dropout (st_context_hidden s)))).
  assert (length gen_softmax ≤ vocab_size) as Hglen.
  { unfold gen_softmax. rewrite softmax_length.
    etrans; [apply linear_length|done]. }
  destruct (pad_gen_spec zero vocab_size gen_softmax Hglen) as (Hplen & Plow & Phigh).
  destruct (mix_spec one add sub mul (gate zero add mul sigmoid d prev_embed s)
              (gen_dist zero add mul div exp dropout d vocab_size s) copy_prob)
    as (mix_prob & Hmix & Hmlen & Hmspec).
  { unfold gen_dist. fold gen_softmax. lia. }
  exists s, copy_prob, mix_prob. split_and!; [done|done| |].
  { unfold decode_step. rewrite Hs. simpl. rewrite Hcopy. simpl. by rewrite Hmix. }
  unfold gen_dist in *. fold gen_softmax in Hmlen, Hmspec |- *. simpl.
  split_and!; [done|done|lia|done|done|done| | |done].
  - intros id Hid Hnot. by rewrite Hcspec, masses_not_in.
  - intros id Hid.
    destruct (lookup_lt_is_Some_2 (pad_gen zero vocab_size gen_softmax) id) as [gp Hgp];
      [lia|].
    destruct (lookup_lt_is_Some_2 copy_prob id) as [cp Hcp]; [lia|].
    exists gp, cp. split_and!; [done|done|]. by apply Hmspec.
Qed.
End mixing.

Lemma mixing_law_witness :
  ∃ s copy_prob mix_prob,
    Model.step_trace 0%Z (-1000)%Z Z.add Z.mul Z.div id id toy_gru toy_decoder [1%Z]
      [[1%Z]; [2%Z]] [1; 1] [[1%Z]; [2%Z]] [[1%Z]] [[1%Z]] [[0%Z]] [0%Z] = Ok s
    ∧ Model.copy_dist 0%Z Z.add 4 [3; 3] (Model.st_attn_probs s) = Ok copy_prob
    ∧ Model.decode_step 0%Z 1%Z (-1000)%Z Z.add Z.sub Z.mul Z.div id id id id toy_gru
        toy_decoder [3; 3] [1%Z] [[1%Z]; [2%Z]] [1; 1] [[1%Z]; [2%Z]] [[1%Z]] [[1%Z]]
        [[0%Z]] [0%Z] 4
      = Ok (Model.st_hidden s, Model.st_context_hidden s, mix_prob)
    ∧ let gen_softmax :=
        Model.softmax 0%Z Z.add Z.div id
          (Model.linear 0%Z Z.add Z.mul (Model.generator toy_decoder)
             (id (Model.st_context_hidden s))) in
      let gen_prob := Model.gen_dist 0%Z Z.add Z.mul Z.div id id toy_decoder 4 s in
      let gen_p := Model.gate 0%Z Z.add Z.mul id toy_decoder [1%Z] s in
      length gen_prob = 4
      ∧ length copy_prob = 4
      ∧ length mix_prob = 4
      ∧ (∀ id, id < length gen_softmax → gen_prob !! id = gen_softmax !! id)
      ∧ (∀ id, length gen_softmax ≤ id → id < 4 → gen_prob !! id = Some 0%Z)
      ∧ (∀ id, id < 4 →
           copy_prob !! id
           = Some (foldl Z.add 0%Z (masses id [3; 3] (Model.st_attn_probs s))))
      ∧ (∀ id, id < 4 → id ∉ [3; 3] → copy_prob !! id = Some 0%Z)
      ∧ (∀ id, id < 4 →
           ∃ gp cp, gen_prob !! id = Some gp ∧ copy_prob !! id = Some cp
             ∧ mix_prob !! id = Some (gen_p * gp + (1 - gen_p) * cp)%Z)
      ∧ gen_p = id (Model.dot 0%Z Z.add Z.mul (Model.weight1 (Model.gen_p_layer toy_decoder))
                      (Model.st_context s ++ Model.st_context_attr s ++ Model.st_query s
                       ++ [1%Z])
                    + Model.bias1 (Model.gen_p_layer toy_decoder))%Z.
Proof.
  apply (mixing_law 0%Z 1%Z (-1000)%Z Z.add Z.sub Z.mul Z.div id id id id toy_gru
           toy_decoder [3; 3] [1%Z] [[1%Z]; [2%Z]] [1; 1] [[1%Z]; [2%Z]] [[1%Z]] [[1%Z]]
           [[0%Z]] [0%Z] 4).
  - discriminate.
  - reflexivity.
  - reflexivity.
  - intros i Hi. apply elem_of_cons in Hi as [->|Hi]; [lia|].
    apply elem_of_cons in Hi as [->|Hi]; [lia|]. by apply elem_of_nil in Hi.
  - simpl. lia.
Defined.

(** C3.  On a consistent state [read_batch] first removes every id at or
    above [fixed_num] from [word2id] and [id2word] and sets [word_num] to
    [fixed_num]; the batch is then read from that reset state alone, so
    the result does not depend on the dynamic segment an earlier batch
    left.  After the call the frequencies, the embedding table,
    [fixed_num] and the entries below [fixed_num] are what they were, every
    word at or above [fixed_num] is a source token of this batch, and the
    next reset leads to the same state again. *)
Theorem batch_isolation {E : Type} (v : @CopyVocab.Vocab E) (b : CopyVocab.Batch) :
  consistent v →
  ∃ v0, CopyVocab.reset_dynamic v = Ok v0
    ∧ CopyVocab.word_num v0 = CopyVocab.fixed_num v
    ∧ CopyVocab.fixed_num v0 = CopyVocab.fixed_num v
    ∧ (∀ i w, CopyVocab.id2word v0 !! i = Some w
              ↔ CopyVocab.id2word v !! i = Some w ∧ i < CopyVocab.fixed_num v)
    ∧ (∀ w i, CopyVocab.word2id v0 !! w = Some i
              ↔ CopyVocab.word2id v !! w = Some i ∧ i < CopyVocab.fixed_num v)
    ∧ CopyVocab.read_batch v b = CopyVocab.read_batch v0 b
    ∧ ∀ v' t, CopyVocab.read_batch v b = Ok (v', t) →
        CopyVocab.word2cnt v' = CopyVocab.word2cnt v
        ∧ CopyVocab.embed v' = CopyVocab.embed v
        ∧ CopyVocab.fixed_num v' = CopyVocab.fixed_num v
        ∧ (∀ i, i < CopyVocab.fixed_num v →
             CopyVocab.id2word v' !! i = CopyVocab.id2word v !! i)
        ∧ (∀ w i, i < CopyVocab.fixed_num v →
             (CopyVocab.word2id v' !! w = Some i ↔ CopyVocab.word2id v !! w = Some i))
        ∧ (∀ i w, CopyVocab.fixed_num v ≤ i → CopyVocab.id2word v' !! i = Some w →
             w ∈ concat (split <$> CopyVocab.sorted_reviews b))
        ∧ CopyVocab.reset_dynamic v' = Ok v0.
Proof.
  intros Hv.
  destruct (reset_dynamic_spec v Hv) as (v0 & Hreset & Hs & Hsame & Hi2w & Hw2i).
  pose proof Hs as [(Hm0 & _ & _) Hfn0].
  destruct (same_fixed_fields _ _ Hsame) as (_ & Hem0 & Hf0 & Hc0 & _).
  exists v0. split_and!; [done|congruence|done|done|done| |].
  - unfold CopyVocab.read_batch. rewrite Hreset.
    by rewrite (reset_dynamic_synced v0 Hfn0).
  - intros v' t Hread.
    destruct (read_batch_frame v b v' t Hv Hread)
      as (_ & _ & Hcnt & Hem & Hfn & Hid & Hwd & Hdyn).
    split_and!; [done..|].
    apply read_batch_inv in Hread as (v1 & first & Hreset1 & _ & -> & _).
    rewrite Hreset in Hreset1. injection Hreset1 as <-.
    by apply reset_extend.
Qed.

Lemma batch_isolation_witness :
  ∃ v0, CopyVocab.reset_dynamic demo_read.1 = Ok v0
    ∧ CopyVocab.word_num v0 = CopyVocab.fixed_num demo_read.1
    ∧ CopyVocab.fixed_num v0 = CopyVocab.fixed_num demo_read.1
    ∧ (∀ i w, CopyVocab.id2word v0 !! i = Some w
              ↔ CopyVocab.id2word demo_read.1 !! i = Some w
                ∧ i < CopyVocab.fixed_num demo_read.1)
    ∧ (∀ w i, CopyVocab.word2id v0 !! w = Some i
              ↔ CopyVocab.word2id demo_read.1 !! w = Some i
                ∧ i < CopyVocab.fixed_num demo_read.1)
    ∧ CopyVocab.read_batch demo_read.1 demo_batch = CopyVocab.read_batch v0 demo_batch
    ∧ ∀ v' t, CopyVocab.read_batch demo_read.1 demo_batch = Ok (v', t) →
        CopyVocab.word2cnt v' = CopyVocab.word2cnt demo_read.1
        ∧ CopyVocab.embed v' = CopyVocab.embed demo_read.1
        ∧ CopyVocab.fixed_num v' = CopyVocab.fixed_num demo_read.1
        ∧ (∀ i, i < CopyVocab.fixed_num demo_read.1 →
             CopyVocab.id2word v' !! i = CopyVocab.id2word demo_read.1 !! i)
        ∧ (∀ w i, i < CopyVocab.fixed_num demo_read.1 →
             (CopyVocab.word2id v' !! w = Some i
              ↔ CopyVocab.word2id demo_read.1 !! w = Some i))
        ∧ (∀ i w, CopyVocab.fixed_num demo_read.1 ≤ i →
             CopyVocab.id2word v' !! i = Some w →
             w ∈ concat (split <$> CopyVocab.sorted_reviews demo_batch))
        ∧ CopyVocab.reset_dynamic v' = Ok v0.
Proof.
  apply (batch_isolation demo_read.1 demo_batch).
  apply (running_consistent demo_normal).
  apply (running_first demo_normal demo_vocab demo_batch _ demo_read.2).
  - apply built_init.
  - rewrite demo_read_ok. by destruct demo_read.
Defined.

(** C4 (amended).  After construction and after every [add_sentence],
    [add_user], [add_product] and [trim] of the corpus scan the four
    structures have one length: [len(id2word) == len(word2id) ==
    len(word2cnt) == len(embed)], and [trim] returns on every such state.
    After every [read_batch] the equalities [len(id2word) == len(word2id)]
    and [len(word2cnt) == len(embed)] hold, the first two count [word_num]
    words and the last two [fixed_num], with [fixed_num <= word_num]: the
    dynamic words have neither a frequency nor an embedding row. *)
Theorem lengths_by_phase {E : Type} (normal : nat → nat → E) :
  (∀ v, built normal v →
     size (CopyVocab.id2word v) = size (CopyVocab.word2id v)
     ∧ size (CopyVocab.word2id v) = size (CopyVocab.word2cnt v)
     ∧ size (CopyVocab.word2cnt v) = length (CopyVocab.embed v)
     ∧ ∃ v' em, CopyVocab.trim v = Ok (v', em))
  ∧ (∀ v, running normal v →
     size (CopyVocab.id2word v) = size (CopyVocab.word2id v)
     ∧ size (CopyVocab.word2cnt v) = length (CopyVocab.embed v)
     ∧ size (CopyVocab.word2id v) = CopyVocab.word_num v
     ∧ length (CopyVocab.embed v) = CopyVocab.fixed_num v
     ∧ CopyVocab.fixed_num v ≤ CopyVocab.word_num v).
Proof.
  split.
  - intros v Hv. pose proof (built_synced normal v Hv) as Hs.
    destruct (consistent_sizes v (synced_consistent v Hs)) as (H1 & H2 & H3 & H4 & _).
    destruct Hs as [Hf Hfn].
    destruct (trim_full v Hf) as (v' & em & Htrim & _).
    split_and!; [congruence|congruence|congruence|eauto].
  - intros v Hv.
    destruct (consistent_sizes v (running_consistent normal v Hv)) as (H1 & H2 & H3 & H4 & H5).
    split_and!; [congruence|congruence|done|done|done].
Qed.

Lemma lengths_by_phase_witness :
  (size (CopyVocab.id2word demo_vocab) = size (CopyVocab.word2id demo_vocab)
   ∧ size (CopyVocab.word2id demo_vocab) = size (CopyVocab.word2cnt demo_vocab)
   ∧ size (CopyVocab.word2cnt demo_vocab) = length (CopyVocab.embed demo_vocab)
   ∧ ∃ v' em, CopyVocab.trim demo_vocab = Ok (v', em))
  ∧ (size (CopyVocab.id2word demo_read.1) = size (CopyVocab.word2id demo_read.1)
     ∧ size (CopyVocab.word2cnt demo_read.1) = length (CopyVocab.embed demo_read.1)
     ∧ size (CopyVocab.word2id demo_read.1) = CopyVocab.word_num demo_read.1
     ∧ length (CopyVocab.embed demo_read.1) = CopyVocab.fixed_num demo_read.1
     ∧ CopyVocab.fixed_num demo_read.1 ≤ CopyVocab.word_num demo_read.1).
Proof.
  split.
  - apply (proj1 (lengths_by_phase demo_normal)). apply built_init.
  - apply (proj2 (lengths_by_phase demo_normal)).
    apply (running_first demo_normal demo_vocab demo_batch _ demo_read.2).
    + apply built_init.
    + rewrite demo_read_ok. by destruct demo_read.
Defined.

(** C4, as stated, fails: reading a batch whose source holds two words
    outside the fixed vocabulary leaves six entries in [word2id] and in
    [id2word], and four in [word2cnt] and in [embed]. *)
Lemma lengths_differ_after_read_batch :
  ∃ v' t, CopyVocab.read_batch demo_vocab demo_batch = Ok (v', t)
    ∧ ¬ (size (CopyVocab.id2word v') = size (CopyVocab.word2id v')
         ∧ size (CopyVocab.word2id v') = size (CopyVocab.word2cnt v')
         ∧ size (CopyVocab.word2cnt v') = length (CopyVocab.embed v')).
Proof.
  exists demo_read.1, demo_read.2. split.
  - rewrite demo_read_ok. by destruct demo_read.
  - vm_compute. intros (_ & H & _). discriminate H.
Qed.

(** C5 (amended).  For every vocabulary state and every threshold, [trim]
    run twice in a row gives what one run gives: the same state (so the
    same [word2id], [id2word], [word2cnt] and [embed]) and the same
    returned table, or the same exception.  On a full state that holds the
    reserved tokens, with a threshold of at most 10000, [trim] returns and
    PAD, SOS, EOS and UNK keep the ids 0, 1, 2 and 3. *)
Theorem trim_idempotent_reserved {E : Type} :
  (∀ v : @CopyVocab.Vocab E,
     CopyVocab.trim v ≫= (λ r, CopyVocab.trim r.1) = CopyVocab.trim v)
  ∧ (∀ v : @CopyVocab.Vocab E,
       full v → reserved_ok v →
       (CopyVocab.word_min_cnt (CopyVocab.args v) ≤ RESERVED_CNT)%Z →
       ∃ v' em, CopyVocab.trim v = Ok (v', em)
         ∧ full v' ∧ reserved_ok v'
         ∧ ∀ i tok, (i, tok) ∈ reserved →
             CopyVocab.word2id v' !! tok = Some i
             ∧ CopyVocab.id2word v' !! i = Some tok).
Proof.
  split.
  - intros v. destruct (CopyVocab.trim v) as [[v1 e1]|e] eqn:Htrim; simpl; [|done].
    by apply (trim_again v).
  - intros v Hf Hr Hthr.
    destruct (trim_full v Hf) as (v' & em & Htrim & [Hf' _] & _).
    pose proof (trim_reserved v v' em Hf Hr Hthr Htrim) as Hr'.
    exists v', em. split_and!; [done|done|done|].
    intros i tok Hi. destruct (Hr' i tok Hi) as [Hl _].
    split; [|done]. by apply Hf'.
Qed.

Lemma trim_idempotent_reserved_witness :
  ∃ v' em, CopyVocab.trim demo_vocab = Ok (v', em)
    ∧ full v' ∧ reserved_ok v'
    ∧ ∀ i tok, (i, tok) ∈ reserved →
        CopyVocab.word2id v' !! tok = Some i ∧ CopyVocab.id2word v' !! i = Some tok.
Proof.
  apply (proj2 trim_idempotent_reserved demo_vocab).
  - apply (init_synced demo_normal demo_args None).
  - apply (init_synced demo_normal demo_args None).
  - vm_compute. discriminate.
Defined.

(** C5, as stated, fails: with the threshold 10001 [trim] drops the four
    reserved tokens of a freshly built vocabulary. *)
Lemma trim_drops_reserved :
  ∃ v' em, CopyVocab.trim (CopyVocab.init demo_normal strict_args None) = Ok (v', em)
    ∧ CopyVocab.word2id v' !! PAD_TOKEN = None
    ∧ CopyVocab.word2id v' !! SOS_TOKEN = None
    ∧ CopyVocab.word2id v' !! EOS_TOKEN = None
    ∧ CopyVocab.word2id v' !! UNK_TOKEN = None.
Proof.
  eexists _, _. split; [vm_compute; reflexivity|]. by vm_compute.
Qed.

Section loss.
Import Model.
Context {T : Type}.
Variables (zero one : T).
Variables (add sub mul : T → T → T).
Variable opp : T → T.
Variable is_neg_inf : T → bool.

Lemma nll_loop_scored rst (output : list (list T)) target :
  nll_loop sub is_neg_inf rst output target
  = nll_loop sub is_neg_inf rst (scored output target).*1 (scored output target).*2.
Proof.
  revert rst target. induction output as [|dis output IH]; intros rst target; [done|].
  destruct target as [|idx target]; [done|].
  unfold scored. simpl. rewrite filter_cons. simpl.
  case_bool_decide as Hidx.
  - subst idx. rewrite decide_False by (intros H; by apply H). apply IH.
  - rewrite decide_True by done. simpl.
    rewrite bool_decide_eq_false_2 by done.
    destruct (dis !! idx) as [x|]; [|done].
    destruct (is_neg_inf x); [done|]. apply IH.
Qed.

Lemma nll_loop_values rst (output : list (list T)) target vals :
  Forall2 (λ p x, p.1 !! p.2 = Some x) (scored output target) vals →
  nll_loop sub is_neg_inf rst output target
  = if existsb is_neg_inf vals then Exited ["error!"%string]
    else Returned (foldl sub rst vals).
Proof.
  rewrite nll_loop_scored.
  assert (Forall (λ p : list T * nat, p.2 ≠ 0) (scored output target)) as Hnz.
  { unfold scored. apply Forall_forall. intros p Hp.
    by apply list_elem_of_filter in Hp as [? _]. }
  revert Hnz. generalize (scored output target). intros l Hnz Hvals.
  revert rst. induction Hvals as [|[dis idx] x l vals Hx Hvals IH]; intros rst; [done|].
  apply Forall_cons in Hnz as [Hidx Hnz]. simpl in *.
  rewrite bool_decide_eq_false_2 by done. rewrite Hx.
  destruct (is_neg_inf x); [done|]. simpl. by apply IH.
Qed.

Hypothesis Tring : ring_theory zero one add mul sub opp eq.
Add Ring Tring_ring : Tring.

Lemma foldl_sub_sum rst (vals : list T) :
  foldl sub rst vals = sub rst (foldr add zero vals).
Proof.
  revert rst. induction vals as [|x vals IH]; intros rst; simpl; [ring|].
  rewrite IH. ring.
Qed.

(** C6.  [myNLLLoss] gives what it gives on the positions whose gold
    index is not 0 (PAD) alone.  When each of these positions has a value
    at its gold index: if one of the values is minus infinity the run
    prints [error!] and exits without a loss; otherwise the loss is 0
    minus the values, one after the other, which in a ring is the negated
    sum of the values. *)
Theorem nll_loss_law (output : list (list T)) (target : list nat) (vals : list T) :
  Forall2 (λ p x, p.1 !! p.2 = Some x) (scored output target) vals →
  myNLLLoss zero sub is_neg_inf output target
  = myNLLLoss zero sub is_neg_inf (scored output target).*1 (scored output target).*2
  ∧ (Exists (λ x, is_neg_inf x = true) vals →
     myNLLLoss zero sub is_neg_inf output target = Exited ["error!"%string])
  ∧ (Forall (λ x, is_neg_inf x = false) vals →
     myNLLLoss zero sub is_neg_inf output target = Returned (foldl sub zero vals)
     ∧ foldl sub zero vals = opp (foldr add zero vals)).
Proof.
  intros Hvals. unfold myNLLLoss. split_and!.
  - apply nll_loop_scored.
  - intros Hex. rewrite (nll_loop_values zero output target vals Hvals).
    replace (existsb is_neg_inf vals) with true; [done|].
    symmetry. apply existsb_exists. apply Exists_exists in Hex as (x & Hx & Hinf).
    exists x. split; [by apply list_elem_of_In|done].
  - intros Hall. rewrite (nll_loop_values zero output target vals Hvals).
    replace (existsb is_neg_inf vals) with false.
    + split; [done|]. rewrite foldl_sub_sum. ring.
    + symmetry. apply not_true_is_false. intros (x & Hx & Hinf)%existsb_exists.
      rewrite Forall_forall in Hall. apply list_elem_of_In in Hx.
      rewrite (Hall x Hx) in Hinf. done.
Qed.
End loss.

(** Three positions over the integers, [-1000] standing for minus
    infinity; the second position is padding. *)
Lemma nll_loss_law_witness :
  Model.myNLLLoss 0%Z Z.sub (Z.eqb (-1000)) [[1; 2; 3]; [4; 5; 6]; [7; 8; 9]]%Z [1; 0; 2]
  = Model.myNLLLoss 0%Z Z.sub (Z.eqb (-1000))
      (scored [[1; 2; 3]; [4; 5; 6]; [7; 8; 9]]%Z [1; 0; 2]).*1
      (scored [[1; 2; 3]; [4; 5; 6]; [7; 8; 9]]%Z [1; 0; 2]).*2
  ∧ (Exists (λ x, Z.eqb (-1000) x = true) [2; 9]%Z →
     Model.myNLLLoss 0%Z Z.sub (Z.eqb (-1000)) [[1; 2; 3]; [4; 5; 6]; [7; 8; 9]]%Z [1; 0; 2]
     = Model.Exited ["error!"%string])
  ∧ (Forall (λ x, Z.eqb (-1000) x = false) [2; 9]%Z →
     Model.myNLLLoss 0%Z Z.sub (Z.eqb (-1000)) [[1; 2; 3]; [4; 5; 6]; [7; 8; 9]]%Z [1; 0; 2]
     = Model.Returned (foldl Z.sub 0%Z [2; 9]%Z)
     ∧ foldl Z.sub 0%Z [2; 9]%Z = (- foldr Z.add 0 [2; 9])%Z).
Proof.
  apply (nll_loss_law 0%Z 1%Z Z.add Z.sub Z.mul Z.opp (Z.eqb (-1000)) Zth
           [[1; 2; 3]; [4; 5; 6]; [7; 8; 9]]%Z [1; 0; 2] [2; 9]%Z).
  vm_compute. repeat constructor.
Defined.

(** C7.  On a well-formed batch (parallel lists, every memory entry with
    at least three fields and a valid corpus index) [make_tensors] raises
    [AssertionError] exactly when some entry retained after the
    truncation to [mem_size] points to a corpus example whose userID
    differs from the current example's userID and whose productID differs
    from its productID; without such an entry it returns the tensors, and
    when it raises it returns none. *)
Theorem ownership_assertion {E : Type} (v : @MemVocab.Vocab E)
    (b : MemVocab.Batch) (train_data : list MemVocab.Example) :
  mem_batch_ok b train_data →
  (MemVocab.make_tensors v b train_data = Raise AssertionError
   ↔ ownership_violation v b train_data)
  ∧ (¬ ownership_violation v b train_data →
     ∃ t, MemVocab.make_tensors v b train_data = Ok t)
  ∧ (MemVocab.make_tensors v b train_data = Raise AssertionError →
     ∀ t, MemVocab.make_tensors v b train_data ≠ Ok t).
Proof.
  intros Hb. pose proof Hb as (Hne & Hs & Hu & _).
  assert (∀ i, i ∈ MemVocab.batch_order b → i < length (MemVocab.reviewText b)) as Hidx.
  { intros i. rewrite mem_batch_order_perm, elem_of_seq. lia. }
  assert (∀ i, i < length (MemVocab.reviewText b) → i ∈ MemVocab.batch_order b) as Hidx'.
  { intros i. rewrite mem_batch_order_perm, elem_of_seq. lia. }
  destruct (mem_sorted_reviews_head b) as [first Hfirst].
  { destruct (MemVocab.summary b), (MemVocab.reviewText b); simpl in *; done. }
  assert (MemVocab.make_tensors v b train_data
          = rows ← MemVocab.mem_examples v b train_data (MemVocab.batch_order b);
            Ok {| MemVocab.src :=
                    (λ r, MemVocab.text_row v (length (split first)) (split r))
                      <$> MemVocab.sorted_reviews b;
                  MemVocab.trg :=
                    MemVocab.trg_row v (MemVocab.sum_max_len (MemVocab.args v))
                      <$> MemVocab.sorted_summaries b;
                  MemVocab.mem := rows;
                  MemVocab.src_text := MemVocab.sorted_reviews b;
                  MemVocab.trg_text := MemVocab.sorted_summaries b |}) as Hmake.
  { unfold MemVocab.make_tensors, MemVocab.paired_reviews.
    rewrite fst_zip by lia. rewrite bool_decide_eq_true_2 by lia.
    by rewrite (getindex_Some _ _ _ Hfirst). }
  rewrite Hmake.
  destruct (mem_examples_cases v b train_data (MemVocab.batch_order b) Hb Hidx)
    as [(rows & -> & Hgood)|[-> (i & user & product & x & Hi & Hui & Hpi & Hx & Hf)]];
    simpl.
  - assert (¬ ownership_violation v b train_data) as Hno.
    { intros (i & user & product & x & Hui & Hpi & Hx & Hf).
      apply (Hgood i user product x); [|done..].
      apply Hidx'. apply lookup_lt_Some in Hui. lia. }
    split_and!; [split; [done|by intros ?]|eauto|done].
  - assert (ownership_violation v b train_data) as Hyes.
    { by exists i, user, product, x. }
    split_and!; [done|done|done].
Qed.

Lemma ownership_assertion_witness :
  (MemVocab.make_tensors mem_vocab bad_batch mem_corpus = Raise AssertionError
   ↔ ownership_violation mem_vocab bad_batch mem_corpus)
  ∧ (¬ ownership_violation mem_vocab bad_batch mem_corpus →
     ∃ t, MemVocab.make_tensors mem_vocab bad_batch mem_corpus = Ok t)
  ∧ (MemVocab.make_tensors mem_vocab bad_batch mem_corpus = Raise AssertionError →
     ∀ t, MemVocab.make_tensors mem_vocab bad_batch mem_corpus ≠ Ok t).
Proof. apply (ownership_assertion mem_vocab bad_batch mem_corpus), bad_batch_ok. Defined.





(** C10 (amended).  [read_batch] and [make_tensors] append the EOS token
    to every summary before they truncate to [sum_max_len]: the target row
    is the ids of the first [sum_max_len] tokens of [summary.split() +
    [EOS]], padded with PAD, and [trg_lens[i]] is [min(number of summary
    tokens + 1, sum_max_len)].  For a summary of at least [sum_max_len]
    tokens the row is the ids of its first [sum_max_len] tokens, the
    appended EOS is cut off, and the row holds no EOS id provided none of
    these tokens is itself the string [<EOS>] (and, in [make_tensors],
    provided no other word has the id 2). *)
Theorem eos_handling {E : Type} :
  (∀ (v : @CopyVocab.Vocab E) (b : CopyVocab.Batch),
     consistent v → reserved_ok v → batch_ok b →
     ∃ v' t, CopyVocab.read_batch v b = Ok (v', t)
       ∧ ∀ i s, CopyVocab.trg_text t !! i = Some s →
           CopyVocab.trg_lens t !! i
           = Some (min (length (split s) + 1) (CopyVocab.sum_max_len (CopyVocab.args v)))
           ∧ ∃ srow row,
               CopyVocab.src t !! i = Some srow
               ∧ CopyVocab.trg t !! i = Some row
               ∧ row = pad_to (CopyVocab.sum_max_len (CopyVocab.args v))
                         (CopyVocab.trg_id v' srow
                            <$> take (CopyVocab.sum_max_len (CopyVocab.args v))
                                  (split s ++ [EOS_TOKEN]))
               ∧ (CopyVocab.sum_max_len (CopyVocab.args v) ≤ length (split s) →
                  row = CopyVocab.trg_id v' srow
                          <$> take (CopyVocab.sum_max_len (CopyVocab.args v)) (split s)
                  ∧ (EOS_TOKEN ∉ take (CopyVocab.sum_max_len (CopyVocab.args v)) (split s) →
                     EOS_IDX ∉ row)))
  ∧ (∀ (v : @MemVocab.Vocab E) (b : MemVocab.Batch) (train_data : list MemVocab.Example)
       (t : MemVocab.Tensors),
       MemVocab.make_tensors v b train_data = Ok t →
       ∀ i s, MemVocab.trg_text t !! i = Some s →
         ∃ row,
           MemVocab.trg t !! i = Some row
           ∧ row = pad_to (MemVocab.sum_max_len (MemVocab.args v))
                     (MemVocab.word_id v
                        <$> take (MemVocab.sum_max_len (MemVocab.args v))
                              (split s ++ [EOS_TOKEN]))
           ∧ (MemVocab.sum_max_len (MemVocab.args v) ≤ length (split s) →
              row = MemVocab.word_id v
                      <$> take (MemVocab.sum_max_len (MemVocab.args v)) (split s)
              ∧ (eos_unique v →
                 EOS_TOKEN ∉ take (MemVocab.sum_max_len (MemVocab.args v)) (split s) →
                 EOS_IDX ∉ row))).
Proof.
  split.
  - intros v b Hv Hr Hb.
    destruct (read_batch_total v b Hv Hb) as (v1 & first & Hreset & Hfirst & Hread).
    eexists _, _. split; [exact Hread|].
    destruct (read_batch_frame _ _ _ _ Hv Hread) as (Hv' & Ha & _).
    pose proof (read_batch_reserved _ _ _ _ Hv Hr Hread) as Hr'.
    set (v' := CopyVocab.extend_dynamic v1 (CopyVocab.sorted_reviews b)) in *.
    rewrite <- Ha. intros i s Hs. simpl in Hs.
    destruct (tensors_rows v' b (length (split first)) i s Hs) as (r & _ & Hsrc & Htrg).
    split.
    { simpl. rewrite list_lookup_fmap, Hs. simpl. by rewrite trg_tokens_length. }
    eexists _, _. split_and!; [exact Hsrc|exact Htrg|done|].
    intros Hlong. unfold CopyVocab.trg_row, CopyVocab.trg_tokens.
    rewrite take_snoc_le by done.
    rewrite pad_to_full by (rewrite length_fmap, length_take; lia).
    split; [done|].
    intros Hno (w & Hw & Hin)%list_elem_of_fmap. apply Hno.
    unfold CopyVocab.trg_id in Hw.
    destruct (_ && _); [done|].
    by rewrite <- (word_id_EOS v' w Hv' Hr').
  - intros v b td t (first & rows & _ & _ & ->)%make_tensors_inv i s Hs. simpl in Hs.
    eexists. split_and!.
    + simpl. by rewrite list_lookup_fmap, Hs.
    + done.
    + intros Hlong. unfold MemVocab.trg_row, MemVocab.trg_tokens.
      rewrite take_snoc_le by done.
      rewrite pad_to_full by (rewrite length_fmap, length_take; lia).
      split; [done|].
      intros Huniq Hno (w & Hw & Hin)%list_elem_of_fmap. apply Hno.
      unfold MemVocab.word_id in Hw.
      destruct (MemVocab.word2id v !! w) as [j|] eqn:Hj; [|done].
      subst j. by rewrite <- (Huniq w Hj).
Qed.

Lemma eos_handling_witness :
  (∃ v' t, CopyVocab.read_batch demo_vocab demo_batch = Ok (v', t)
     ∧ ∀ i s, CopyVocab.trg_text t !! i = Some s →
         CopyVocab.trg_lens t !! i
         = Some (min (length (split s) + 1)
                   (CopyVocab.sum_max_len (CopyVocab.args demo_vocab)))
         ∧ ∃ srow row,
             CopyVocab.src t !! i = Some srow
             ∧ CopyVocab.trg t !! i = Some row
             ∧ row = pad_to (CopyVocab.sum_max_len (CopyVocab.args demo_vocab))
                       (CopyVocab.trg_id v' srow
                          <$> take (CopyVocab.sum_max_len (CopyVocab.args demo_vocab))
                                (split s ++ [EOS_TOKEN]))
             ∧ (CopyVocab.sum_max_len (CopyVocab.args demo_vocab) ≤ length (split s) →
                row = CopyVocab.trg_id v' srow
                        <$> take (CopyVocab.sum_max_len (CopyVocab.args demo_vocab))
                              (split s)
                ∧ (EOS_TOKEN
                     ∉ take (CopyVocab.sum_max_len (CopyVocab.args demo_vocab)) (split s) →
                   EOS_IDX ∉ row)))
  ∧ (∀ i s, MemVocab.trg_text mem_tensors !! i = Some s →
       ∃ row,
         MemVocab.trg mem_tensors !! i = Some row
         ∧ row = pad_to (MemVocab.sum_max_len (MemVocab.args mem_vocab))
                   (MemVocab.word_id mem_vocab
                      <$> take (MemVocab.sum_max_len (MemVocab.args mem_vocab))
                            (split s ++ [EOS_TOKEN]))
         ∧ (MemVocab.sum_max_len (MemVocab.args mem_vocab) ≤ length (split s) →
            row = MemVocab.word_id mem_vocab
                    <$> take (MemVocab.sum_max_len (MemVocab.args mem_vocab)) (split s)
            ∧ (eos_unique mem_vocab →
               EOS_TOKEN ∉ take (MemVocab.sum_max_len (MemVocab.args mem_vocab)) (split s) →
               EOS_IDX ∉ row))).
Proof.
  split.
  - apply (proj1 eos_handling demo_vocab demo_batch).
    + apply synced_consistent. apply (init_synced demo_normal demo_args None).
    + apply (init_synced demo_normal demo_args None).
    + split; [discriminate|reflexivity].
  - apply (proj2 eos_handling mem_vocab mem_batch mem_corpus mem_tensors), mem_tensors_ok.
Defined.

(** C10, as stated, fails: the summary [<EOS> x] has two tokens,
    [sum_max_len] is two, and the target row starts with the EOS id. *)
Lemma eos_literal_in_target :
  ∃ v' t s row,
    CopyVocab.read_batch demo_vocab demo_batch = Ok (v', t)
    ∧ CopyVocab.trg_text t !! 0 = Some s
    ∧ CopyVocab.sum_max_len (CopyVocab.args demo_vocab) ≤ length (split s)
    ∧ CopyVocab.trg t !! 0 = Some row
    ∧ EOS_IDX ∈ row.
Proof.
  exists demo_read.1, demo_read.2, "<EOS> x"%string, [2; 5].
  split_and!.
  - rewrite demo_read_ok. by destruct demo_read.
  - vm_compute. reflexivity.
  - vm_compute. lia.
  - vm_compute. reflexivity.
  - unfold EOS_IDX. set_solver.
Qed.

(** * Further properties of the code *)

Section copy_more.
Import CopyVocab.
Context {E : Type}.
Variable normal : nat → nat → E.
Implicit Types v : @Vocab E.

Lemma bumped_S n c : bumped (S n) c = bumped n (bumped 1 c).
Proof.
  unfold bumped. destruct c as [c|]; simpl.
  - f_equal. lia.
  - destruct (decide (n = 0)) as [->|?]; simpl; [done|]. f_equal. lia.
Qed.

Lemma occurrences_cons_eq w sent : occurrences w (w :: sent) = S (occurrences w sent).
Proof. unfold occurrences. by rewrite filter_cons_True. Qed.

Lemma occurrences_cons_ne w x sent :
  x ≠ w → occurrences w (x :: sent) = occurrences w sent.
Proof. intros Hne. unfold occurrences. by rewrite filter_cons_False. Qed.

(** One word: the tables before and after. *)
Lemma add_word_spec v w :
  full v →
  ∃ v', add_word normal v w = Ok v' ∧ full v'
    ∧ args v' = args v
    ∧ word2id v ⊆ word2id v' ∧ id2word v ⊆ id2word v'
    ∧ embed v `prefix_of` embed v'
    ∧ dom (word2id v') = dom (word2id v) ∪ {[ w ]}
    ∧ (∀ x, word2cnt v' !! x
            = if decide (x = w) then bumped 1 (word2cnt v !! x) else word2cnt v !! x).
Proof.
  intros Hf. pose proof Hf as (Hm & Hc & He). unfold add_word.
  destruct (word2id v !! w) as [i|] eqn:Hw.
  - assert (is_Some (word2cnt v !! w)) as [c Hcw].
    { apply (ct_dom _ _ _ Hc). exists i. split; [done|]. by eapply wordmaps_id_lt. }
    rewrite (getitem_Some _ _ _ Hcw). simpl. eexists. split; [done|].
    split_and!; simpl; [|done|done|done|done| |].
    + apply with_words_full; [done| |done]. apply counted_bump; eauto.
    + apply set_eq. intros x. rewrite elem_of_union, elem_of_singleton, !elem_of_dom.
      split; [by left|]. intros [?| ->]; [done|eauto].
    + intros x. case_decide as Hx.
      * subst x. by rewrite lookup_insert_eq, Hcw.
      * by rewrite lookup_insert_ne.
  - pose proof (counted_fresh _ _ _ _ Hc Hw) as Hcw.
    pose proof (wordmaps_fresh _ _ _ Hm) as Hfresh.
    eexists. split; [done|]. split_and!; simpl.
    + apply with_words_full.
      * by apply wordmaps_insert.
      * by eapply counted_insert_full.
      * rewrite length_app; simpl; lia.
    + done.
    + by apply insert_subseteq.
    + by apply insert_subseteq.
    + by apply prefix_app_r.
    + rewrite dom_insert_L. set_solver.
    + intros x. case_decide as Hx.
      * subst x. by rewrite lookup_insert_eq, Hcw.
      * by rewrite lookup_insert_ne.
Qed.

Lemma add_words_spec v sent :
  full v →
  ∃ v', add_words normal v sent = Ok v' ∧ full v'
    ∧ args v' = args v
    ∧ word2id v ⊆ word2id v' ∧ id2word v ⊆ id2word v'
    ∧ embed v `prefix_of` embed v'
    ∧ dom (word2id v') = dom (word2id v) ∪ list_to_set sent
    ∧ (∀ x, word2cnt v' !! x = bumped (occurrences x sent) (word2cnt v !! x)).
Proof.
  revert v. induction sent as [|w sent IH]; intros v Hf; simpl.
  - exists v. split_and!; [done|done|done|done|done|done|by rewrite union_empty_r_L|].
    intros x. unfold occurrences, bumped. simpl.
    destruct (word2cnt v !! x); [f_equal; lia|done].
  - destruct (add_word_spec v w Hf) as (v1 & -> & Hf1 & Ha1 & Hw1 & Hi1 & He1 & Hd1 & Hc1).
    simpl.
    destruct (IH v1 Hf1) as (v2 & -> & Hf2 & Ha2 & Hw2 & Hi2 & He2 & Hd2 & Hc2).
    exists v2. split_and!; [done|done|congruence|by transitivity (word2id v1)
      |by transitivity (id2word v1)|by transitivity (embed v1)| |].
    { rewrite Hd2, Hd1. set_solver. }
    intros x. rewrite Hc2, Hc1. case_decide as Hx.
    + subst x. rewrite occurrences_cons_eq. symmetry. apply bumped_S.
    + by rewrite occurrences_cons_ne.
Qed.
End copy_more.

(** X1.  [add_sentence] on a state in which every word has a frequency
    and a row (such as every state of the corpus scan): it returns; the
    words and ids that were there stay, the embedding table grows at its
    end only; the vocabulary is the old one plus the words of the
    sentence; the frequency of every word is its old frequency plus the
    number of its occurrences in the sentence (a new word starts at that
    number); and there is no dynamic segment afterwards. *)
Theorem add_sentence_counts {E : Type} (normal : nat → nat → E)
    (v : @CopyVocab.Vocab E) (sent : list string) :
  full v →
  ∃ v', CopyVocab.add_sentence normal v sent = Ok v'
    ∧ synced v'
    ∧ CopyVocab.word2id v ⊆ CopyVocab.word2id v'
    ∧ CopyVocab.id2word v ⊆ CopyVocab.id2word v'
    ∧ CopyVocab.embed v `prefix_of` CopyVocab.embed v'
    ∧ dom (CopyVocab.word2id v') = dom (CopyVocab.word2id v) ∪ list_to_set sent
    ∧ (∀ w, CopyVocab.word2cnt v' !! w
            = bumped (occurrences w sent) (CopyVocab.word2cnt v !! w)).
Proof.
  intros Hf. unfold CopyVocab.add_sentence.
  destruct (add_words_spec normal v sent Hf)
    as (v1 & -> & (Hm & Hc & He) & _ & Hw & Hi & Hpre & Hd & Hcnt).
  simpl. eexists. split; [done|]. split_and!; [|done..].
  split; [|done]. by apply with_words_full.
Qed.

Lemma add_sentence_counts_witness :
  ∃ v', CopyVocab.add_sentence demo_normal demo_vocab ["a"; "b"; "a"]%string = Ok v'
    ∧ synced v'
    ∧ CopyVocab.word2id demo_vocab ⊆ CopyVocab.word2id v'
    ∧ CopyVocab.id2word demo_vocab ⊆ CopyVocab.id2word v'
    ∧ CopyVocab.embed demo_vocab `prefix_of` CopyVocab.embed v'
    ∧ dom (CopyVocab.word2id v')
      = dom (CopyVocab.word2id demo_vocab) ∪ list_to_set ["a"; "b"; "a"]%string
    ∧ (∀ w, CopyVocab.word2cnt v' !! w
            = bumped (occurrences w ["a"; "b"; "a"]%string)
                (CopyVocab.word2cnt demo_vocab !! w)).
Proof.
  apply (add_sentence_counts demo_normal demo_vocab).
  apply (init_synced demo_normal demo_args None).
Defined.

Lemma StronglySorted_lookup_lt {A} (R : relation A) l a b x y :
  StronglySorted R l → l !! a = Some x → l !! b = Some y → a < b → R x y.
Proof.
  intros Hs. revert a b. induction Hs as [|z l Hl IH Hz]; intros a b Ha Hb Hab.
  - by rewrite lookup_nil in Ha.
  - destruct b as [|b]; [lia|]. simpl in Hb. destruct a as [|a]; simpl in Ha.
    + injection Ha as ->. rewrite Forall_forall in Hz.
      by eapply Hz, list_elem_of_lookup_2.
    + apply (IH a b); [done|done|lia].
Qed.

Lemma sorted_lt_lookup_inj l a b x :
  StronglySorted lt l → l !! a = Some x → l !! b = Some x → a = b.
Proof.
  intros Hs Ha Hb. destruct (Nat.lt_trichotomy a b) as [Hlt|[?|Hlt]]; [|done|].
  - pose proof (StronglySorted_lookup_lt lt l a b x x Hs Ha Hb Hlt). lia.
  - pose proof (StronglySorted_lookup_lt lt l b a x x Hs Hb Ha Hlt). lia.
Qed.

Section copy_trim_spec.
Import CopyVocab.
Context {E : Type}.
Implicit Types v : @Vocab E.

Lemma trim_scan_sorted v ids ws js :
  trim_scan v ids = Ok (ws, js) →
  StronglySorted lt ids →
  Forall2 (λ w i, id2word v !! i = Some w) ws js
  ∧ StronglySorted lt js
  ∧ (∀ i, i ∈ js ↔ i ∈ ids ∧ frequent v i).
Proof.
  revert ws js. induction ids as [|i ids IH]; intros ws js; simpl.
  - intros [= <- <-] _. split_and!; [constructor|constructor|].
    intros i. split; [by intros ?%elem_of_nil|by intros [?%elem_of_nil _]].
  - intros (w & Hw%getitem_Ok & (c & Hc%getitem_Ok & Hrest)%bind_Ok)%bind_Ok Hsorted.
    apply bind_Ok in Hrest as ([ws' js'] & Hscan & Hret).
    apply StronglySorted_inv in Hsorted as [Hsorted Hi].
    destruct (IH _ _ Hscan Hsorted) as (Hall & Hjs & Hmem).
    assert (i ∉ ids) as Hni.
    { intros Hin. rewrite Forall_forall in Hi. specialize (Hi i Hin). lia. }
    case_bool_decide as Hle; simplify_eq/=.
    + split_and!; [by constructor| |].
      * constructor; [done|]. apply Forall_forall. intros j Hj.
        apply Hmem in Hj as [Hj _]. rewrite Forall_forall in Hi. by apply Hi.
      * intros j. rewrite !elem_of_cons, Hmem. split.
        -- intros [->|[? ?]]; [|by auto]. split; [by left|]. by exists w, c.
        -- intros [[->|?] ?]; [by left|by right].
    + split_and!; [done|done|].
      intros j. rewrite elem_of_cons, Hmem. split; [by intros [? ?]; auto|].
      intros [[->|?] Hf]; [|done].
      destruct Hf as (w' & c' & Hw' & Hc' & ?). by simplify_eq.
Qed.

Lemma trim_rows_lookup (em : list E) ids rows :
  trim_rows em ids = Ok rows →
  ∀ k i, ids !! k = Some i → rows !! k = em !! i ∧ is_Some (em !! i).
Proof.
  revert rows. induction ids as [|i ids IH]; intros rows; simpl.
  - intros _ k i Hk. by rewrite lookup_nil in Hk.
  - intros (e & He%getindex_Ok & (rest & Hrest & [= <-])%bind_Ok)%bind_Ok k j Hk.
    destruct k as [|k]; simpl in *.
    + injection Hk as <-. by rewrite He.
    + by apply (IH _ Hrest).
Qed.

Lemma seq_sorted s n : StronglySorted lt (seq s n).
Proof.
  revert s. induction n as [|n IH]; intros s; simpl; constructor; [apply IH|].
  apply Forall_forall. intros i Hi%elem_of_seq. lia.
Qed.

(** The pieces of a [trim] on a full state. *)
Lemma trim_full_spec v :
  full v →
  ∃ ws js v' em,
    trim v = Ok (v', em) ∧ synced v' ∧ embed v' = em ∧ args v' = args v
    ∧ v' = with_words v (embed v') (word_num v') (word_num v')
             (word2id v') (id2word v') (word2cnt v')
    ∧ word_num v' = length ws
    ∧ Forall2 (λ w i, id2word v !! i = Some w) ws js
    ∧ StronglySorted lt js
    ∧ (∀ i, i ∈ js ↔ i < word_num v ∧ frequent v i)
    ∧ (∀ k, id2word v' !! k = ws !! k)
    ∧ (∀ w, w ∈ ws → word2cnt v' !! w = word2cnt v !! w)
    ∧ (∀ k i, js !! k = Some i → em !! k = embed v !! i).
Proof.
  intros Hf. pose proof Hf as (Hm & Hc & He).
  destruct (trim_full v Hf) as (v' & em & Htrim & Hs & Hem).
  pose proof Htrim as Htrim'. unfold trim in Htrim'.
  apply bind_Ok in Htrim' as ([ws js] & Hscan & Hrest).
  apply bind_Ok in Hrest as ([[[cnt w2i] i2w] w2c] & Hfill & Hrest).
  apply bind_Ok in Hrest as (em' & Hrows & Hrest).
  case_bool_decide; [|done]. injection Hrest as <- <-.
  destruct (trim_scan_sorted _ _ _ _ Hscan (seq_sorted 0 (word_num v)))
    as (Hall & Hjs & Hmem).
  destruct (trim_fill_lookup _ _ _ _ _ _ _ _ _ _ Hfill) as (-> & _ & Hnew & _ & Hin).
  exists ws, js. eexists _, _. split; [exact Htrim|].
  split_and!; [done|done|done|done|done|done|done| | | |].
  - intros i. rewrite Hmem, elem_of_seq. split; intros [? ?]; (split; [lia|done]).
  - intros k. simpl. destruct (ws !! k) as [w|] eqn:Hk.
    + by apply (Hnew k).
    + apply eq_None_not_Some. destruct Hs as [(Hm' & _) _]. simpl in Hm'.
      rewrite (wm_dom _ _ _ Hm'). apply lookup_ge_None in Hk. lia.
  - intros w Hw. simpl. by destruct (Hin w Hw).
  - intros k i Hk. by destruct (trim_rows_lookup _ _ _ Hrows k i Hk).
Qed.
End copy_trim_spec.

(** X2.  [trim] on a state in which every word has a frequency and a
    row: it returns the new embedding table; it keeps exactly the words
    whose frequency is at least [word_min_cnt], each with its frequency
    and with its own embedding row at its new id; it keeps the order of
    the ids; a word that was not in the vocabulary is not in it
    afterwards; and the vocabulary does not grow. *)
Theorem trim_keeps_frequent {E : Type} (v : @CopyVocab.Vocab E) :
  full v →
  ∃ v' em, CopyVocab.trim v = Ok (v', em)
    ∧ CopyVocab.embed v' = em ∧ synced v'
    ∧ CopyVocab.word_num v' ≤ CopyVocab.word_num v
    ∧ (∀ w i c,
         CopyVocab.word2id v !! w = Some i → CopyVocab.word2cnt v !! w = Some c →
         if decide (CopyVocab.word_min_cnt (CopyVocab.args v) ≤ c)%Z
         then ∃ k, CopyVocab.word2id v' !! w = Some k
                ∧ CopyVocab.word2cnt v' !! w = Some c
                ∧ CopyVocab.embed v' !! k = CopyVocab.embed v !! i
         else CopyVocab.word2id v' !! w = None ∧ CopyVocab.word2cnt v' !! w = None)
    ∧ (∀ w, CopyVocab.word2id v !! w = None → CopyVocab.word2id v' !! w = None)
    ∧ (∀ w1 w2 i1 i2 k1 k2,
         CopyVocab.word2id v !! w1 = Some i1 → CopyVocab.word2id v !! w2 = Some i2 →
         CopyVocab.word2id v' !! w1 = Some k1 → CopyVocab.word2id v' !! w2 = Some k2 →
         i1 < i2 → k1 < k2).
Proof.
  intros Hf. pose proof Hf as (Hm & Hc & He).
  destruct (trim_full_spec v Hf)
    as (ws & js & v' & em & Htrim & Hs & Hem & Ha & _ & Hwn & Hall & Hjs & Hmem & Hid
        & Hcnt & Hrow).
  pose proof Hs as [(Hm' & Hc' & _) _].
  assert (∀ w k, CopyVocab.word2id v' !! w = Some k →
            ws !! k = Some w ∧ ∃ i, js !! k = Some i ∧ CopyVocab.word2id v !! w = Some i)
    as Hnew.
  { intros w k Hk. apply Hm' in Hk. rewrite Hid in Hk. split; [done|].
    destruct (Forall2_lookup_l _ _ _ _ _ Hall Hk) as (i & Hi & Hiw).
    exists i. split; [done|]. by apply Hm. }
  assert (∀ w i, CopyVocab.word2id v !! w = Some i → i ∈ js →
            ∃ k, js !! k = Some i ∧ ws !! k = Some w ∧ CopyVocab.word2id v' !! w = Some k)
    as Hold.
  { intros w i Hi Hin. apply list_elem_of_lookup in Hin as [k Hk].
    destruct (Forall2_lookup_r _ _ _ _ _ Hall Hk) as (w' & Hw' & Hiw').
    apply Hm in Hi. rewrite Hi in Hiw'. injection Hiw' as <-.
    exists k. split_and!; [done|done|]. apply Hm'. by rewrite Hid. }
  exists v', em. split_and!; [done|done|done| | | |].
  - rewrite Hwn, (Forall2_length _ _ _ Hall).
    assert (js ⊆+ seq 0 (CopyVocab.word_num v)) as Hsub.
    { apply NoDup_submseteq.
      - clear -Hjs. induction Hjs as [|x l Hl IH Hx]; constructor; [|done].
        intros Hin. rewrite Forall_forall in Hx. specialize (Hx x Hin). lia.
      - intros i Hi. apply Hmem in Hi as [? _]. apply elem_of_seq. lia. }
    apply submseteq_length in Hsub. by rewrite length_seq in Hsub.
  - intros w i c Hi Hcw. case_decide as Hle.
    + destruct (Hold w i Hi) as (k & Hk & Hwk & Hk').
      { apply Hmem. split; [by eapply wordmaps_id_lt|].
        exists w, c. split_and!; [by apply Hm|done|done]. }
      exists k. split_and!; [done| |].
      * rewrite Hcnt; [done|]. by eapply list_elem_of_lookup_2.
      * rewrite Hem. by apply Hrow.
    + assert (CopyVocab.word2id v' !! w = None) as Hnone.
      { apply eq_None_not_Some. intros [k Hk].
        destruct (Hnew w k Hk) as (_ & j & Hj & Hjw).
        rewrite Hi in Hjw. injection Hjw as <-.
        apply list_elem_of_lookup_2, Hmem in Hj as [_ (w' & c' & Hw' & Hc'' & Hle')].
        apply Hm in Hi. rewrite Hi in Hw'. injection Hw' as <-.
        rewrite Hcw in Hc''. injection Hc'' as <-. done. }
      split; [done|]. apply eq_None_not_Some.
      rewrite (ct_dom _ _ _ Hc'). intros (k & Hk & _). congruence.
  - intros w Hw. apply eq_None_not_Some. intros [k Hk].
    destruct (Hnew w k Hk) as (_ & j & _ & Hjw). congruence.
  - intros w1 w2 i1 i2 k1 k2 Hi1 Hi2 Hk1 Hk2 Hlt.
    destruct (Hnew w1 k1 Hk1) as (_ & j1 & Hj1 & Hj1w).
    destruct (Hnew w2 k2 Hk2) as (_ & j2 & Hj2 & Hj2w).
    rewrite Hi1 in Hj1w. rewrite Hi2 in Hj2w. simplify_eq.
    destruct (Nat.lt_trichotomy k1 k2) as [?|[->|Hgt]]; [done| |].
    + rewrite Hj1 in Hj2. injection Hj2 as ->. lia.
    + pose proof (StronglySorted_lookup_lt lt js k2 k1 _ _ Hjs Hj2 Hj1 Hgt). lia.
Qed.

Lemma trim_keeps_frequent_witness :
  ∃ v' em, CopyVocab.trim demo_vocab = Ok (v', em)
    ∧ CopyVocab.embed v' = em ∧ synced v'
    ∧ CopyVocab.word_num v' ≤ CopyVocab.word_num demo_vocab
    ∧ (∀ w i c,
         CopyVocab.word2id demo_vocab !! w = Some i →
         CopyVocab.word2cnt demo_vocab !! w = Some c →
         if decide (CopyVocab.word_min_cnt (CopyVocab.args demo_vocab) ≤ c)%Z
         then ∃ k, CopyVocab.word2id v' !! w = Some k
                ∧ CopyVocab.word2cnt v' !! w = Some c
                ∧ CopyVocab.embed v' !! k = CopyVocab.embed demo_vocab !! i
         else CopyVocab.word2id v' !! w = None ∧ CopyVocab.word2cnt v' !! w = None)
    ∧ (∀ w, CopyVocab.word2id demo_vocab !! w = None → CopyVocab.word2id v' !! w = None)
    ∧ (∀ w1 w2 i1 i2 k1 k2,
         CopyVocab.word2id demo_vocab !! w1 = Some i1 →
         CopyVocab.word2id demo_vocab !! w2 = Some i2 →
         CopyVocab.word2id v' !! w1 = Some k1 → CopyVocab.word2id v' !! w2 = Some k2 →
         i1 < i2 → k1 < k2).
Proof.
  apply (trim_keeps_frequent demo_vocab).
  apply (init_synced demo_normal demo_args None).
Defined.

Lemma sorted_lt_seq js n :
  StronglySorted lt js → (∀ i, i ∈ js ↔ i < n) → js = seq 0 n.
Proof.
  intros Hs Hmem. apply (StronglySorted_unique_strong lt).
  - intros x y _ _ ? ?. lia.
  - done.
  - apply seq_sorted.
  - apply NoDup_Permutation.
    + clear -Hs. induction Hs as [|x l Hl IH Hx]; constructor; [|done].
      intros Hin. rewrite Forall_forall in Hx. specialize (Hx x Hin). lia.
    + apply NoDup_seq.
    + intros i. rewrite Hmem, elem_of_seq. lia.
Qed.

(** X3.  [trim] changes nothing when no word is below the threshold: on
    a state without dynamic segment in which every frequency is at least
    [word_min_cnt], it returns the embedding table and leaves the state as
    it is. *)
Theorem trim_nothing_to_drop {E : Type} (v : @CopyVocab.Vocab E) :
  synced v →
  (∀ w c, CopyVocab.word2cnt v !! w = Some c →
          (CopyVocab.word_min_cnt (CopyVocab.args v) ≤ c)%Z) →
  CopyVocab.trim v = Ok (v, CopyVocab.embed v).
Proof.
  intros [Hf Hfn] Hall. pose proof Hf as (Hm & Hc & He).
  destruct (trim_full_spec v Hf)
    as (ws & js & v' & em & Htrim & Hs & Hem & Ha & Hv' & Hwn & Hfa & Hjs & Hmem & Hid
        & Hcnt & Hrow).
  pose proof Hs as [(Hm' & Hc' & He') _].
  assert (js = seq 0 (CopyVocab.word_num v)) as ->.
  { apply sorted_lt_seq; [done|]. intros i. rewrite Hmem. split; [by intros [? _]|].
    intros Hi. split; [done|].
    destruct (proj2 (wm_dom _ _ _ Hm i) Hi) as [w Hw].
    destruct (proj2 (ct_dom _ _ _ Hc w)) as [c Hcw]; [exists i; split; [by apply Hm|done]|].
    exists w, c. split_and!; [done|done|by eapply Hall]. }
  assert (CopyVocab.word_num v' = CopyVocab.word_num v) as Hn.
  { by rewrite Hwn, (Forall2_length _ _ _ Hfa), length_seq. }
  assert (∀ k w, ws !! k = Some w ↔ CopyVocab.id2word v !! k = Some w) as Hws.
  { intros k w. split.
    - intros Hk. destruct (Forall2_lookup_l _ _ _ _ _ Hfa Hk) as (i & Hi & Hiw).
      apply lookup_seq in Hi as [-> _]. done.
    - intros Hk. assert (k < CopyVocab.word_num v) as Hlt by (apply Hm; eauto).
      destruct (Forall2_lookup_r _ _ _ _ _ Hfa (lookup_seq_lt 0 _ k Hlt))
        as (w' & Hw' & Hiw').
      simpl in Hiw'. congruence. }
  assert (CopyVocab.id2word v' = CopyVocab.id2word v) as Hi2w.
  { apply map_eq_Some. intros k w. by rewrite Hid, Hws. }
  assert (CopyVocab.word2id v' = CopyVocab.word2id v) as Hw2i.
  { apply map_eq_Some. intros w k.
    by rewrite (wm_bij _ _ _ Hm'), (wm_bij _ _ _ Hm), Hi2w. }
  assert (CopyVocab.word2cnt v' = CopyVocab.word2cnt v) as Hw2c.
  { apply map_eq. intros w.
    destruct (CopyVocab.word2id v !! w) as [k|] eqn:Hk.
    - apply Hcnt. apply Hm, Hws in Hk. by eapply list_elem_of_lookup_2.
    - rewrite (counted_fresh _ _ _ _ Hc Hk). apply (counted_fresh _ _ _ _ Hc').
      by rewrite Hw2i. }
  assert (em = CopyVocab.embed v) as ->.
  { apply list_eq. intros k. destruct (decide (k < CopyVocab.word_num v)) as [Hk|Hk].
    - apply Hrow. by apply lookup_seq_lt.
    - rewrite !lookup_ge_None_2; [done|lia|]. rewrite <- Hem, He'. lia. }
  rewrite Htrim. do 2 f_equal.
  rewrite Hv', Hem, Hn, Hw2i, Hi2w, Hw2c. rewrite <- Hfn at 2. apply with_words_id.
Qed.

Lemma trim_nothing_to_drop_witness :
  CopyVocab.trim demo_vocab = Ok (demo_vocab, CopyVocab.embed demo_vocab).
Proof.
  apply (trim_nothing_to_drop demo_vocab).
  - apply (init_synced demo_normal demo_args None).
  - intros w c Hc.
    assert (reserved_ok demo_vocab) as Hr by apply (init_synced demo_normal demo_args None).
    assert (synced demo_vocab) as [(Hm & Hcn & _) _]
      by apply (init_synced demo_normal demo_args None).
    destruct (proj1 (ct_dom _ _ _ Hcn w)) as (i & Hi & Hlt); [eauto|].
    apply Hm in Hi.
    assert ((i, w) ∈ reserved) as Hin.
    { change (CopyVocab.word_num demo_vocab) with 4 in Hlt.
      destruct i as [|[|[|[|i]]]]; [..|lia]; vm_compute in Hi; injection Hi as <-;
        unfold reserved; set_solver. }
    destruct (Hr i w Hin) as (_ & c' & Hc' & Hle). rewrite Hc in Hc'. injection Hc' as <-.
    change (CopyVocab.word_min_cnt (CopyVocab.args demo_vocab)) with 1%Z.
    unfold RESERVED_CNT in Hle. lia.
Defined.

(** X4.  [id_word] and [word_id] on a consistent state: every id below
    [word_num] has a word, and [word_id] maps that word back to the id; an
    id from [word_num] on fails the assertion of [id_word]; a word of the
    vocabulary is what [id_word] returns for its [word_id]; a word outside
    the vocabulary has the id of UNK. *)
Theorem id_word_round_trip {E : Type} (v : @CopyVocab.Vocab E) :
  consistent v →
  (∀ i, i < CopyVocab.word_num v →
     ∃ w, CopyVocab.id_word v i = Ok w ∧ CopyVocab.word_id v w = i)
  ∧ (∀ i, CopyVocab.word_num v ≤ i → CopyVocab.id_word v i = Raise AssertionError)
  ∧ (∀ w, is_Some (CopyVocab.word2id v !! w) →
       CopyVocab.id_word v (CopyVocab.word_id v w) = Ok w)
  ∧ (∀ w, CopyVocab.word2id v !! w = None → CopyVocab.word_id v w = UNK_IDX).
Proof.
  intros (Hm & _). split_and!.
  - intros i Hi. destruct (proj2 (wm_dom _ _ _ Hm i) Hi) as [w Hw]. exists w.
    unfold CopyVocab.id_word, CopyVocab.word_id.
    rewrite bool_decide_eq_true_2 by done. rewrite (getitem_Some _ _ _ Hw).
    apply Hm in Hw. by rewrite Hw.
  - intros i Hi. unfold CopyVocab.id_word. by rewrite bool_decide_eq_false_2 by lia.
  - intros w [i Hi]. unfold CopyVocab.id_word, CopyVocab.word_id. rewrite Hi.
    rewrite bool_decide_eq_true_2 by (by eapply wordmaps_id_lt).
    apply getitem_Some. by apply Hm.
  - intros w Hw. unfold CopyVocab.word_id. by rewrite Hw.
Qed.

Lemma id_word_round_trip_witness :
  (∀ i, i < CopyVocab.word_num demo_read.1 →
     ∃ w, CopyVocab.id_word demo_read.1 i = Ok w ∧ CopyVocab.word_id demo_read.1 w = i)
  ∧ (∀ i, CopyVocab.word_num demo_read.1 ≤ i →
       CopyVocab.id_word demo_read.1 i = Raise AssertionError)
  ∧ (∀ w, is_Some (CopyVocab.word2id demo_read.1 !! w) →
       CopyVocab.id_word demo_read.1 (CopyVocab.word_id demo_read.1 w) = Ok w)
  ∧ (∀ w, CopyVocab.word2id demo_read.1 !! w = None →
       CopyVocab.word_id demo_read.1 w = UNK_IDX).
Proof.
  apply (id_word_round_trip demo_read.1).
  apply (running_consistent demo_normal).
  apply (running_first demo_normal demo_vocab demo_batch _ demo_read.2).
  - apply built_init.
  - rewrite demo_read_ok. by destruct demo_read.
Defined.

Section copy_init.
Import CopyVocab.
Context {E : Type}.
Variable normal : nat → nat → E.
Implicit Types v : @Vocab E.

#[local] Instance key_le_dec : RelDecision (@key_le E).
Proof. intros a b. unfold key_le. apply _. Defined.
#[local] Instance key_le_trans : Transitive (@key_le E).
Proof. intros a b c. unfold key_le. apply transitivity. Qed.
#[local] Instance key_le_total : Total (@key_le E).
Proof. intros a b. unfold key_le. apply String.le_total. Qed.

Lemma sorted_items_spec (pre : gmap string E) :
  sorted_items pre ≡ₚ map_to_list pre
  ∧ NoDup (sorted_items pre).*1
  ∧ StronglySorted key_le (sorted_items pre).
Proof.
  unfold sorted_items. split_and!.
  - apply merge_sort_Permutation.
  - rewrite (merge_sort_Permutation _ (map_to_list pre)). apply NoDup_fst_map_to_list.
  - apply (StronglySorted_merge_sort key_le).
Qed.

(** The loop over the pretrained words. *)
Lemma init_words_spec v (l : list (string * E)) :
  full v → NoDup l.*1 →
  full (foldl init_word v l)
  ∧ word2id v ⊆ word2id (foldl init_word v l)
  ∧ word_num v ≤ word_num (foldl init_word v l)
  ∧ (∀ w, is_Some (word2id (foldl init_word v l) !! w)
          ↔ is_Some (word2id v !! w) ∨ w ∈ l.*1)
  ∧ (∀ w e, (w, e) ∈ l → word2id v !! w = None →
       ∃ i, word2id (foldl init_word v l) !! w = Some i
         ∧ word_num v ≤ i
         ∧ embed (foldl init_word v l) !! i = Some e
         ∧ word2cnt (foldl init_word v l) !! w = Some 0%Z)
  ∧ (∀ k1 k2 w1 w2 i1 i2,
       k1 < k2 → l.*1 !! k1 = Some w1 → l.*1 !! k2 = Some w2 →
       word2id v !! w1 = None → word2id v !! w2 = None →
       word2id (foldl init_word v l) !! w1 = Some i1 →
       word2id (foldl init_word v l) !! w2 = Some i2 → i1 < i2)
  ∧ embed v `prefix_of` embed (foldl init_word v l)
  ∧ word2cnt v ⊆ word2cnt (foldl init_word v l).
Proof.
  revert v. induction l as [|[w e] l IH]; intros v Hf Hnd; simpl.
  - split_and!; [done|done|done| | | |done|done].
    + intros w. split; [by left|]. intros [?|?%elem_of_nil]; done.
    + intros w e ?%elem_of_nil. done.
    + intros k1 k2 w1 w2 i1 i2 _ Hk1. by rewrite lookup_nil in Hk1.
  - apply NoDup_cons in Hnd as [Hw Hnd]. pose proof Hf as (Hm & Hc & He).
    pose proof (init_word_full v (w, e) Hf) as Hf1.
    set (v1 := init_word v (w, e)) in *.
    destruct (IH v1 Hf1 Hnd) as (Hf2 & Hsub & Hle & Hdom & Hnew & Hord & Hpre & Hcnt).
    set (v2 := foldl init_word v1 l) in *.
    assert (word2id v ⊆ word2id v1 ∧ word_num v ≤ word_num v1
            ∧ embed v `prefix_of` embed v1 ∧ word2cnt v ⊆ word2cnt v1
            ∧ (∀ x, is_Some (word2id v1 !! x) ↔ is_Some (word2id v !! x) ∨ x = w)
            ∧ (word2id v !! w = None →
               word2id v1 !! w = Some (word_num v) ∧ word_num v1 = S (word_num v)
               ∧ embed v1 !! word_num v = Some e ∧ word2cnt v1 !! w = Some 0%Z))
      as (Hs1 & Hl1 & Hp1 & Hc1 & Hd1 & Hfresh).
    { unfold v1, init_word. simpl. destruct (word2id v !! w) as [i|] eqn:Hwv.
      - split_and!; [done|done|done|done| |done].
        intros x. split; [by left|]. intros [?| ->]; [done|eauto].
      - simpl. split_and!.
        + by apply insert_subseteq.
        + lia.
        + by apply prefix_app_r.
        + apply insert_subseteq. by eapply counted_fresh.
        + intros x. rewrite lookup_insert_is_Some. split.
          * intros [->|[_ ?]]; [by right|by left].
          * intros [?| ->]; [|by left]. destruct (decide (w = x)); [by left|by right].
        + intros _. split_and!; [by rewrite lookup_insert_eq|done| |by rewrite lookup_insert_eq].
          rewrite lookup_app_r by lia. by rewrite He, Nat.sub_diag. }
    split_and!.
    + done.
    + by transitivity (word2id v1).
    + lia.
    + intros x. rewrite Hdom, Hd1, elem_of_cons. tauto.
    + intros x ex [[= -> ->]|Hin]%elem_of_cons Hx.
      * destruct (Hfresh Hx) as (Hi & Hn & Hemb & Hcn).
        exists (word_num v). split_and!; [by eapply lookup_weaken|done| |].
        -- by eapply prefix_lookup_Some.
        -- by eapply lookup_weaken.
      * assert (x ≠ w) as Hne.
        { intros ->. apply Hw. by apply (list_elem_of_fmap_2 fst _ (w, ex)). }
        destruct (Hnew x ex Hin) as (i & Hi & Hge & Hemb & Hcn).
        { apply eq_None_not_Some. rewrite Hd1. intros [[? ?]|?]; congruence. }
        exists i. split_and!; [done|lia|done|done].
    + intros k1 k2 w1 w2 i1 i2 Hk Hk1 Hk2 Hw1 Hw2 Hi1 Hi2.
      destruct k2 as [|k2]; [lia|]. simpl in Hk2.
      assert (w2 ≠ w) as Hne2.
      { intros ->. apply Hw. by eapply list_elem_of_lookup_2. }
      assert (word2id v1 !! w2 = None) as Hw2'.
      { apply eq_None_not_Some. rewrite Hd1. intros [[? ?]|?]; congruence. }
      destruct k1 as [|k1]; simpl in Hk1.
      * injection Hk1 as ->. destruct (Hfresh Hw1) as (Hi & Hn & _).
        pose proof (lookup_weaken _ _ _ _ Hi Hsub) as Hi'.
        rewrite Hi1 in Hi'. injection Hi' as ->.
        apply list_lookup_fmap_Some in Hk2 as ([x2 e2] & -> & Hk2). simpl in *.
        destruct (Hnew x2 e2) as (i & Hi'' & Hge & _);
          [by eapply list_elem_of_lookup_2|done|].
        rewrite Hi2 in Hi''. injection Hi'' as ->. lia.
      * assert (w1 ≠ w) as Hne1.
        { intros ->. apply Hw. by eapply list_elem_of_lookup_2. }
        apply (Hord k1 k2 w1 w2); [lia|done|done| |done|done|done].
        apply eq_None_not_Some. rewrite Hd1. intros [[? ?]|?]; congruence.
    + by transitivity (embed v1).
    + by transitivity (word2cnt v1).
Qed.
End copy_init.

Section copy_init_more.
Import CopyVocab.
Context {E : Type}.
Variable normal : nat → nat → E.
Implicit Types v : @Vocab E.

Lemma init_reserved_dom a w :
  is_Some (word2id (init_reserved normal a) !! w) ↔ is_reserved w.
Proof.
  unfold init_reserved, is_reserved. simpl.
  rewrite !lookup_insert_is_Some, lookup_empty, !elem_of_cons, elem_of_nil.
  split.
  - intros Hw.
    destruct Hw as [<-|[_ Hw]]; [by left|].
    destruct Hw as [<-|[_ Hw]]; [right; by left|].
    destruct Hw as [<-|[_ Hw]]; [right; right; by left|].
    destruct Hw as [<-|[_ Hw]]; [right; right; right; by left|].
    by destruct Hw.
  - intros Hw.
    destruct (decide (PAD_TOKEN = w)); [by left|right; split; [done|]].
    destruct (decide (SOS_TOKEN = w)); [by left|right; split; [done|]].
    destruct (decide (EOS_TOKEN = w)); [by left|right; split; [done|]].
    destruct (decide (UNK_TOKEN = w)); [by left|].
    destruct Hw as [?|[?|[?|[?|[]]]]]; congruence.
Qed.

Lemma with_words_registries v em wn fn w2i i2w w2c :
  registries_ok v → registries_ok (with_words v em wn fn w2i i2w w2c).
Proof. done. Qed.

Lemma singleton_wordmaps (name : string) :
  wordmaps 1 ({[ name := 0 ]} : gmap string nat) ({[ 0 := name ]} : gmap nat string).
Proof.
  split.
  - intros w i. rewrite !lookup_singleton_Some. naive_solver.
  - intros i. split.
    + intros [w Hw]. apply lookup_singleton_Some in Hw as [<- _]. lia.
    + intros Hi. assert (i = 0) as -> by lia. exists name. apply lookup_singleton_eq.
  - apply map_size_singleton.
  - apply map_size_singleton.
Qed.

Lemma init_reserved_registries a : registries_ok (init_reserved normal a).
Proof.
  unfold registries_ok, init_reserved. simpl.
  split_and!; [apply singleton_wordmaps|apply lookup_singleton_eq
              |apply singleton_wordmaps|apply lookup_singleton_eq].
Qed.

Lemma init_word_registries v we : registries_ok v → registries_ok (init_word v we).
Proof. intros Hr. unfold init_word. by destruct (word2id v !! we.1). Qed.

Lemma init_registries a pre : registries_ok (init normal a pre).
Proof.
  unfold init. apply with_words_registries. destruct pre as [m|].
  - generalize (sorted_items m). intros l.
    assert (∀ v, registries_ok v → registries_ok (foldl init_word v l)) as H.
    { induction l as [|we l IH]; intros v Hv; simpl; [done|].
      by apply IH, init_word_registries. }
    apply H, init_reserved_registries.
  - apply init_reserved_registries.
Qed.

Lemma add_word_registries v w v' :
  registries_ok v → add_word normal v w = Ok v' → registries_ok v'.
Proof.
  intros Hr. unfold add_word. destruct (word2id v !! w).
  - intros (c & _ & [= <-])%bind_Ok. done.
  - by intros [= <-].
Qed.

Lemma add_sentence_registries v sent v' :
  registries_ok v → add_sentence normal v sent = Ok v' → registries_ok v'.
Proof.
  intros Hr. unfold add_sentence. intros (v1 & Hv1 & [= <-])%bind_Ok.
  apply with_words_registries. revert v Hr Hv1.
  induction sent as [|w sent IH]; intros v Hr; simpl.
  - by intros [= <-].
  - intros (v2 & Hv2 & Hrest)%bind_Ok. apply (IH v2); [|done].
    by eapply add_word_registries.
Qed.

Lemma trim_registries v v' em :
  registries_ok v → trim v = Ok (v', em) → registries_ok v'.
Proof.
  intros Hr. unfold trim.
  intros ([ws js] & _ & Hrest)%bind_Ok.
  apply bind_Ok in Hrest as ([[[cnt w2i] i2w] w2c] & _ & Hrest).
  apply bind_Ok in Hrest as (em' & _ & Hrest).
  case_bool_decide; [|done]. by injection Hrest as <- <-.
Qed.

Lemma add_user_registries v user : registries_ok v → registries_ok (add_user v user).
Proof.
  intros (Hu & Hu0 & Hp & Hp0). unfold add_user.
  destruct (user2id v !! user) eqn:Hl; [done|].
  unfold registries_ok. simpl. split_and!; [by apply wordmaps_insert| |done|done].
  rewrite lookup_insert_ne; [done|].
  intros Heq. pose proof (wordmaps_fresh _ _ _ Hu) as Hfresh. congruence.
Qed.

Lemma add_product_registries v product :
  registries_ok v → registries_ok (add_product v product).
Proof.
  intros (Hu & Hu0 & Hp & Hp0). unfold add_product.
  destruct (product2id v !! product) eqn:Hl; [done|].
  unfold registries_ok. simpl. split_and!; [done|done|by apply wordmaps_insert|].
  rewrite lookup_insert_ne; [done|].
  intros Heq. pose proof (wordmaps_fresh _ _ _ Hp) as Hfresh. congruence.
Qed.

Lemma built_registries v : built normal v → registries_ok v.
Proof.
  induction 1 as [a pre|v sent v' _ IH Hadd|v user _ IH|v product _ IH|v v' em _ IH Htrim].
  - apply init_registries.
  - by eapply add_sentence_registries.
  - by apply add_user_registries.
  - by apply add_product_registries.
  - by eapply trim_registries.
Qed.
End copy_init_more.

(** X5.  The vocabulary built from pretrained embeddings has no dynamic
    segment and holds the reserved tokens at the ids 0 to 3; its words are
    the reserved tokens and the keys of the pretrained table; every key
    that is not a reserved token has an id of at least 4, the frequency 0
    and its pretrained vector as embedding row; and these ids follow the
    sorted order of the keys. *)
Theorem init_pretrained {E : Type} (normal : nat → nat → E) (a : CopyVocab.Args)
    (pre : gmap string E) :
  synced (CopyVocab.init normal a (Some pre))
  ∧ reserved_ok (CopyVocab.init normal a (Some pre))
  ∧ (∀ w, is_Some (CopyVocab.word2id (CopyVocab.init normal a (Some pre)) !! w)
          ↔ is_reserved w ∨ is_Some (pre !! w))
  ∧ (∀ w e, pre !! w = Some e → ¬ is_reserved w →
       ∃ i, CopyVocab.word2id (CopyVocab.init normal a (Some pre)) !! w = Some i
         ∧ 4 ≤ i
         ∧ CopyVocab.embed (CopyVocab.init normal a (Some pre)) !! i = Some e
         ∧ CopyVocab.word2cnt (CopyVocab.init normal a (Some pre)) !! w = Some 0%Z)
  ∧ (∀ w1 w2 i1 i2,
       is_Some (pre !! w1) → is_Some (pre !! w2) →
       ¬ is_reserved w1 → ¬ is_reserved w2 →
       w1 ≠ w2 → String.le w1 w2 →
       CopyVocab.word2id (CopyVocab.init normal a (Some pre)) !! w1 = Some i1 →
       CopyVocab.word2id (CopyVocab.init normal a (Some pre)) !! w2 = Some i2 →
       i1 < i2).
Proof.
  destruct (init_synced normal a (Some pre)) as [Hs Hr].
  split; [done|]. split; [done|].
  unfold CopyVocab.init. simpl.
  destruct (sorted_items_spec pre) as (Hperm & Hnd & Hsorted).
  destruct (init_words_spec (CopyVocab.init_reserved normal a) (CopyVocab.sorted_items pre)
              (init_reserved_full normal a) Hnd)
    as (_ & _ & _ & Hdom & Hnew & Hord & _ & _).
  set (v := foldl CopyVocab.init_word (CopyVocab.init_reserved normal a)
              (CopyVocab.sorted_items pre)) in *.
  assert (∀ w e, (w, e) ∈ CopyVocab.sorted_items pre ↔ pre !! w = Some e) as Hin.
  { intros w e. rewrite Hperm. apply elem_of_map_to_list. }
  assert (∀ w, w ∈ (CopyVocab.sorted_items pre).*1 ↔ is_Some (pre !! w)) as Hkeys.
  { intros w. rewrite list_elem_of_fmap. split.
    - intros ([w' e] & -> & Hwe). apply Hin in Hwe. eauto.
    - intros [e He]. exists (w, e). split; [done|]. by apply Hin. }
  assert (∀ w, ¬ is_reserved w →
            CopyVocab.word2id (CopyVocab.init_reserved normal a) !! w = None) as Hfresh.
  { intros w Hw. apply eq_None_not_Some. by rewrite init_reserved_dom. }
  split_and!.
  - intros w. by rewrite Hdom, init_reserved_dom, Hkeys.
  - intros w e Hw Hres. apply Hin in Hw. by apply Hnew; [|apply Hfresh].
  - intros w1 w2 i1 i2 [e1 He1] [e2 He2] Hr1 Hr2 Hne Hle Hi1 Hi2.
    apply Hin, list_elem_of_lookup in He1 as [k1 Hk1].
    apply Hin, list_elem_of_lookup in He2 as [k2 Hk2].
    assert ((CopyVocab.sorted_items pre).*1 !! k1 = Some w1) as Hk1'.
    { by rewrite list_lookup_fmap, Hk1. }
    assert ((CopyVocab.sorted_items pre).*1 !! k2 = Some w2) as Hk2'.
    { by rewrite list_lookup_fmap, Hk2. }
    destruct (Nat.lt_trichotomy k1 k2) as [Hlt|[->|Hgt]].
    + apply (Hord k1 k2 w1 w2); auto.
    + congruence.
    + pose proof (StronglySorted_lookup_lt key_le _ k2 k1 _ _ Hsorted Hk2 Hk1 Hgt) as Hle'.
      unfold key_le in Hle'. simpl in Hle'.
      destruct Hne. by apply (anti_symm String.le).
Qed.

(** X6.  [add_user] and [add_product] keep the registries well formed
    (names and ids in one-to-one correspondence, the ids 0 to counter-1,
    the unknown name at 0); a name that is registered keeps its id and
    the call changes nothing, a new name gets the value of the counter;
    calling twice is the same as calling once; [add_user] leaves the
    product registry and the word tables alone, and [add_product] the
    user registry and the word tables. *)
Theorem registry_growth {E : Type} (v : @CopyVocab.Vocab E) (name : string) :
  registries_ok v →
  (registries_ok (CopyVocab.add_user v name)
   ∧ CopyVocab.user2id v ⊆ CopyVocab.user2id (CopyVocab.add_user v name)
   ∧ CopyVocab.user2id (CopyVocab.add_user v name) !! name
     = Some (default (CopyVocab.user_num v) (CopyVocab.user2id v !! name))
   ∧ (is_Some (CopyVocab.user2id v !! name) → CopyVocab.add_user v name = v)
   ∧ CopyVocab.add_user (CopyVocab.add_user v name) name = CopyVocab.add_user v name
   ∧ CopyVocab.product2id (CopyVocab.add_user v name) = CopyVocab.product2id v
   ∧ CopyVocab.word2id (CopyVocab.add_user v name) = CopyVocab.word2id v
   ∧ CopyVocab.id2word (CopyVocab.add_user v name) = CopyVocab.id2word v)
  ∧ (registries_ok (CopyVocab.add_product v name)
     ∧ CopyVocab.product2id v ⊆ CopyVocab.product2id (CopyVocab.add_product v name)
     ∧ CopyVocab.product2id (CopyVocab.add_product v name) !! name
       = Some (default (CopyVocab.product_num v) (CopyVocab.product2id v !! name))
     ∧ (is_Some (CopyVocab.product2id v !! name) → CopyVocab.add_product v name = v)
     ∧ CopyVocab.add_product (CopyVocab.add_product v name) name
       = CopyVocab.add_product v name
     ∧ CopyVocab.user2id (CopyVocab.add_product v name) = CopyVocab.user2id v
     ∧ CopyVocab.word2id (CopyVocab.add_product v name) = CopyVocab.word2id v
     ∧ CopyVocab.id2word (CopyVocab.add_product v name) = CopyVocab.id2word v).
Proof.
  intros Hr. split.
  - split; [by apply add_user_registries|].
    unfold CopyVocab.add_user.
    destruct (CopyVocab.user2id v !! name) as [i|] eqn:Hl; simpl.
    + rewrite Hl. by split_and!.
    + rewrite lookup_insert_eq.
      split_and!; [by apply insert_subseteq|done|by intros [? ?]|done..].
  - split; [by apply add_product_registries|].
    unfold CopyVocab.add_product.
    destruct (CopyVocab.product2id v !! name) as [i|] eqn:Hl; simpl.
    + rewrite Hl. by split_and!.
    + rewrite lookup_insert_eq.
      split_and!; [by apply insert_subseteq|done|by intros [? ?]|done..].
Qed.

Lemma registry_growth_witness :
  (registries_ok (CopyVocab.add_user demo_vocab "u1")
   ∧ CopyVocab.user2id demo_vocab ⊆ CopyVocab.user2id (CopyVocab.add_user demo_vocab "u1")
   ∧ CopyVocab.user2id (CopyVocab.add_user demo_vocab "u1") !! "u1"%string
     = Some (default (CopyVocab.user_num demo_vocab)
               (CopyVocab.user2id demo_vocab !! "u1"%string))
   ∧ (is_Some (CopyVocab.user2id demo_vocab !! "u1"%string) →
      CopyVocab.add_user demo_vocab "u1" = demo_vocab)
   ∧ CopyVocab.add_user (CopyVocab.add_user demo_vocab "u1") "u1"
     = CopyVocab.add_user demo_vocab "u1"
   ∧ CopyVocab.product2id (CopyVocab.add_user demo_vocab "u1")
     = CopyVocab.product2id demo_vocab
   ∧ CopyVocab.word2id (CopyVocab.add_user demo_vocab "u1") = CopyVocab.word2id demo_vocab
   ∧ CopyVocab.id2word (CopyVocab.add_user demo_vocab "u1") = CopyVocab.id2word demo_vocab)
  ∧ (registries_ok (CopyVocab.add_product demo_vocab "u1")
     ∧ CopyVocab.product2id demo_vocab
       ⊆ CopyVocab.product2id (CopyVocab.add_product demo_vocab "u1")
     ∧ CopyVocab.product2id (CopyVocab.add_product demo_vocab "u1") !! "u1"%string
       = Some (default (CopyVocab.product_num demo_vocab)
                 (CopyVocab.product2id demo_vocab !! "u1"%string))
     ∧ (is_Some (CopyVocab.product2id demo_vocab !! "u1"%string) →
        CopyVocab.add_product demo_vocab "u1" = demo_vocab)
     ∧ CopyVocab.add_product (CopyVocab.add_product demo_vocab "u1") "u1"
       = CopyVocab.add_product demo_vocab "u1"
     ∧ CopyVocab.user2id (CopyVocab.add_product demo_vocab "u1")
       = CopyVocab.user2id demo_vocab
     ∧ CopyVocab.word2id (CopyVocab.add_product demo_vocab "u1")
       = CopyVocab.word2id demo_vocab
     ∧ CopyVocab.id2word (CopyVocab.add_product demo_vocab "u1")
       = CopyVocab.id2word demo_vocab).
Proof.
  apply (registry_growth demo_vocab "u1").
  apply (init_registries demo_normal demo_args None).
Defined.

Section sort_stable.
Context {A : Type} (key : A → Z) (R : relation A).

Lemma stable_desc_key a b : stable_desc key R a b → (key b ≤ key a)%Z.
Proof. intros [?|[? _]]; lia. Qed.

Lemma insert_desc_stable x l :
  Forall (R x) l → StronglySorted (stable_desc key R) l →
  StronglySorted (stable_desc key R) (insert_desc key x l).
Proof.
  intros Hx Hs. induction Hs as [|y l Hl IH Hy]; simpl.
  - repeat constructor.
  - apply Forall_cons in Hx as [Hxy Hx].
    destruct (key x <? key y)%Z eqn:Hk.
    + apply Z.ltb_lt in Hk. constructor; [by apply IH|].
      rewrite insert_desc_perm. constructor; [by left|done].
    + apply Z.ltb_ge in Hk. constructor; [by constructor|].
      constructor.
      * destruct (decide (key y = key x)) as [Heq|Hne]; [right; by split|left; lia].
      * rewrite Forall_forall in Hy, Hx. apply Forall_forall. intros z Hz.
        pose proof (stable_desc_key _ _ (Hy z Hz)) as Hzy.
        destruct (decide (key z = key x)) as [Heq|Hne]; [right; split; [done|by apply Hx]|].
        left. lia.
Qed.

Lemma sort_desc_stable l :
  StronglySorted R l → StronglySorted (stable_desc key R) (sort_desc key l).
Proof.
  induction 1 as [|x l Hl IH Hx]; simpl; [constructor|].
  apply insert_desc_stable; [|done].
  fold (sort_desc key l). by rewrite sort_desc_perm.
Qed.
End sort_stable.

Lemma elem_of_concat {A} (x : A) (ls : list (list A)) :
  x ∈ concat ls ↔ ∃ l, x ∈ l ∧ l ∈ ls.
Proof.
  rewrite list_elem_of_In, in_concat. split.
  - intros (l & Hl & Hx). exists l. by rewrite !list_elem_of_In.
  - intros (l & Hx & Hl). exists l. by rewrite <- !list_elem_of_In.
Qed.

Section copy_batch_more.
Import CopyVocab.
Context {E : Type}.
Implicit Types v : @Vocab E.

Lemma same_fixed_registries v v' :
  same_fixed v v' →
  user_num v' = user_num v ∧ user2id v' = user2id v ∧ id2user v' = id2user v
  ∧ product_num v' = product_num v ∧ product2id v' = product2id v
  ∧ id2product v' = id2product v.
Proof. unfold same_fixed. intros ->. done. Qed.

Lemma read_batch_registries v b v' t :
  consistent v → read_batch v b = Ok (v', t) →
  user_num v' = user_num v ∧ user2id v' = user2id v ∧ id2user v' = id2user v
  ∧ product_num v' = product_num v ∧ product2id v' = product2id v
  ∧ id2product v' = id2product v.
Proof.
  intros Hv Hread.
  destruct (read_batch_state v b v' t Hv Hread) as (v1 & _ & _ & Hs1 & _ & Hg & _).
  destruct Hg as (Hs2 & _).
  apply same_fixed_registries in Hs1 as (<- & <- & <- & <- & <- & <-).
  by apply same_fixed_registries in Hs2.
Qed.

Lemma id_word_of_word v w i :
  wordmaps (word_num v) (word2id v) (id2word v) →
  word2id v !! w = Some i → id_word v i = Ok w.
Proof.
  intros Hm Hw. unfold id_word.
  rewrite bool_decide_eq_true_2 by (by eapply wordmaps_id_lt).
  apply getitem_Some. by apply Hm.
Qed.

Lemma read_batch_rows_fit v b v' t r :
  read_batch v b = Ok (v', t) → r ∈ sorted_reviews b →
  ∃ first, t = tensors v' b (length (split first))
    ∧ length (split r) ≤ length (split first).
Proof.
  intros (v1 & first & _ & Hfirst & _ & ->)%read_batch_inv Hr.
  exists first. split; [done|]. by eapply sorted_reviews_head_max.
Qed.

Lemma safe_ids_lt v ids id :
  4 ≤ fixed_num v → id ∈ safe_ids v ids → id < fixed_num v.
Proof.
  intros Hf. unfold safe_ids. rewrite list_elem_of_fmap.
  intros (i & -> & _). case_bool_decide; [done|]. unfold UNK_IDX. lia.
Qed.
End copy_batch_more.

(** X7.  The ids that [read_batch] writes can be read back: in every row
    of [src] the id at the position of a source token is that token's
    own vocabulary id (never a substitute), and [id_word] turns it back
    into the token; in every row of [trg] an id other than UNK (3) at the
    position of a target token is turned back into that token. *)
Theorem batch_ids_decode {E : Type} (v : @CopyVocab.Vocab E) (b : CopyVocab.Batch)
    (v' : @CopyVocab.Vocab E) (t : CopyVocab.Tensors) :
  consistent v → CopyVocab.read_batch v b = Ok (v', t) →
  (∀ i r, CopyVocab.src_text t !! i = Some r →
     ∃ row, CopyVocab.src t !! i = Some row
       ∧ ∀ j w, split r !! j = Some w →
           ∃ id, row !! j = Some id
             ∧ CopyVocab.word2id v' !! w = Some id
             ∧ CopyVocab.id_word v' id = Ok w)
  ∧ (∀ i s, CopyVocab.trg_text t !! i = Some s →
       ∃ row, CopyVocab.trg t !! i = Some row
         ∧ ∀ j w,
             CopyVocab.trg_tokens (CopyVocab.sum_max_len (CopyVocab.args v')) s !! j
               = Some w →
             ∃ id, row !! j = Some id
               ∧ (id ≠ UNK_IDX → CopyVocab.id_word v' id = Ok w)).
Proof.
  intros Hv Hread.
  destruct (read_batch_state v b v' t Hv Hread) as (v1 & _ & _ & _ & Hc' & Hg & _).
  destruct Hg as (_ & _ & _ & Hin & _).
  pose proof Hread as (v1' & first & _ & Hfirst & _ & Ht)%read_batch_inv.
  subst t. simpl. split.
  - intros i r Hr.
    assert (r ∈ CopyVocab.sorted_reviews b) as Hmem by (by eapply list_elem_of_lookup_2).
    pose proof (sorted_reviews_head_max b first r Hfirst Hmem) as Hle.
    exists (CopyVocab.src_row v' (length (split first)) r). split.
    + by rewrite list_lookup_fmap, Hr.
    + intros j w Hj. rewrite src_row_eq by done.
      destruct (Hin w) as [id Hid].
      { apply elem_of_concat. exists (split r). split; [by eapply list_elem_of_lookup_2|].
        apply list_elem_of_fmap. by exists r. }
      exists id. split_and!; [|done|].
      * rewrite lookup_app_l by (rewrite length_fmap; by eapply lookup_lt_Some).
        rewrite list_lookup_fmap, Hj. simpl. unfold CopyVocab.word_id. by rewrite Hid.
      * apply id_word_of_word; [apply Hc'|done].
  - intros i s Hs.
    destruct (tensors_rows v' b (length (split first)) i s Hs) as (r & Hr & Hsrc & Htrg).
    eexists. split; [exact Htrg|].
    intros j w Hj. unfold CopyVocab.trg_row, pad_to.
    rewrite lookup_app_l by (rewrite length_fmap; by eapply lookup_lt_Some).
    rewrite list_lookup_fmap, Hj. simpl. eexists. split; [done|].
    unfold CopyVocab.trg_id, CopyVocab.word_id.
    destruct (CopyVocab.word2id v' !! w) as [id|] eqn:Hid.
    + intros Hne. apply id_word_of_word; [apply Hc'|].
      destruct (bool_decide (CopyVocab.fixed_num v' ≤ id)
                && negb (bool_decide (id ∈ _))); done.
    + intros Hne. destruct (bool_decide (CopyVocab.fixed_num v' ≤ UNK_IDX)
                  && negb (bool_decide (UNK_IDX ∈ _))); done.
Qed.

Lemma batch_ids_decode_witness :
  (∀ i r, CopyVocab.src_text demo_read.2 !! i = Some r →
     ∃ row, CopyVocab.src demo_read.2 !! i = Some row
       ∧ ∀ j w, split r !! j = Some w →
           ∃ id, row !! j = Some id
             ∧ CopyVocab.word2id demo_read.1 !! w = Some id
             ∧ CopyVocab.id_word demo_read.1 id = Ok w)
  ∧ (∀ i s, CopyVocab.trg_text demo_read.2 !! i = Some s →
       ∃ row, CopyVocab.trg demo_read.2 !! i = Some row
         ∧ ∀ j w,
             CopyVocab.trg_tokens
               (CopyVocab.sum_max_len (CopyVocab.args demo_read.1)) s !! j = Some w →
             ∃ id, row !! j = Some id
               ∧ (id ≠ UNK_IDX → CopyVocab.id_word demo_read.1 id = Ok w)).
Proof.
  apply (batch_ids_decode demo_vocab demo_batch demo_read.1 demo_read.2).
  - apply synced_consistent. apply (init_synced demo_normal demo_args None).
  - rewrite demo_read_ok. by destruct demo_read.
Defined.

(** X8.  The two tensors that go through the embedding layer hold valid
    row numbers only: after [read_batch] on a state whose fixed segment
    holds the reserved ids, every id in [src_embed] and in [trg_embed] is
    below the number of embedding rows; the two tensors have the shape of
    [src] and [trg], agree with them wherever these hold an id of the
    fixed segment, and hold UNK (3) everywhere else. *)
Theorem embed_ids_in_range {E : Type} (v : @CopyVocab.Vocab E) (b : CopyVocab.Batch)
    (v' : @CopyVocab.Vocab E) (t : CopyVocab.Tensors) :
  consistent v → 4 ≤ CopyVocab.fixed_num v → CopyVocab.read_batch v b = Ok (v', t) →
  length (CopyVocab.embed v') = CopyVocab.fixed_num v'
  ∧ (∀ row id, row ∈ CopyVocab.src_embed t ∨ row ∈ CopyVocab.trg_embed t →
       id ∈ row → id < length (CopyVocab.embed v'))
  ∧ (∀ i row, CopyVocab.src t !! i = Some row →
       ∃ row', CopyVocab.src_embed t !! i = Some row' ∧ length row' = length row
         ∧ ∀ j id, row !! j = Some id →
             row' !! j = Some (if decide (id < CopyVocab.fixed_num v') then id else UNK_IDX))
  ∧ (∀ i row, CopyVocab.trg t !! i = Some row →
       ∃ row', CopyVocab.trg_embed t !! i = Some row' ∧ length row' = length row
         ∧ ∀ j id, row !! j = Some id →
             row' !! j = Some (if decide (id < CopyVocab.fixed_num v') then id else UNK_IDX)).
Proof.
  intros Hv H4 Hread.
  destruct (read_batch_frame _ _ _ _ Hv Hread) as (Hv' & _ & _ & _ & Hfn & _).
  pose proof Hread as (v1' & first & _ & Hfirst & _ & Ht)%read_batch_inv.
  assert (length (CopyVocab.embed v') = CopyVocab.fixed_num v') as Hlen by apply Hv'.
  assert (∀ ids j id, ids !! j = Some id →
            CopyVocab.safe_ids v' ids !! j
            = Some (if decide (id < CopyVocab.fixed_num v') then id else UNK_IDX)) as Hsafe.
  { intros ids j id Hj. unfold CopyVocab.safe_ids. rewrite list_lookup_fmap, Hj. simpl.
    f_equal. case_bool_decide; case_decide; done. }
  subst t. simpl. split_and!; [done| | |].
  - intros row id [Hrow|Hrow] Hid;
      apply list_elem_of_fmap in Hrow as (ids & -> & _);
      rewrite Hlen; apply (safe_ids_lt v' ids); [lia|done|lia|done].
  - intros i row Hrow. exists (CopyVocab.safe_ids v' row). split_and!.
    + by rewrite list_lookup_fmap, Hrow.
    + apply safe_ids_length.
    + apply Hsafe.
  - intros i row Hrow. exists (CopyVocab.safe_ids v' row). split_and!.
    + by rewrite list_lookup_fmap, Hrow.
    + apply safe_ids_length.
    + apply Hsafe.
Qed.

Lemma embed_ids_in_range_witness :
  length (CopyVocab.embed demo_read.1) = CopyVocab.fixed_num demo_read.1
  ∧ (∀ row id, row ∈ CopyVocab.src_embed demo_read.2 ∨ row ∈ CopyVocab.trg_embed demo_read.2 →
       id ∈ row → id < length (CopyVocab.embed demo_read.1))
  ∧ (∀ i row, CopyVocab.src demo_read.2 !! i = Some row →
       ∃ row', CopyVocab.src_embed demo_read.2 !! i = Some row' ∧ length row' = length row
         ∧ ∀ j id, row !! j = Some id →
             row' !! j
             = Some (if decide (id < CopyVocab.fixed_num demo_read.1) then id else UNK_IDX))
  ∧ (∀ i row, CopyVocab.trg demo_read.2 !! i = Some row →
       ∃ row', CopyVocab.trg_embed demo_read.2 !! i = Some row' ∧ length row' = length row
         ∧ ∀ j id, row !! j = Some id →
             row' !! j
             = Some (if decide (id < CopyVocab.fixed_num demo_read.1) then id else UNK_IDX)).
Proof.
  apply (embed_ids_in_range demo_vocab demo_batch demo_read.1 demo_read.2).
  - apply synced_consistent. apply (init_synced demo_normal demo_args None).
  - vm_compute. lia.
  - rewrite demo_read_ok. by destruct demo_read.
Defined.

Section copy_batch_errors.
Import CopyVocab.
Context {E : Type}.
Implicit Types v : @Vocab E.

Lemma registry_lookup n (w2i : gmap string nat) i2w name :
  wordmaps n w2i i2w → 0 < n →
  lookup_or_zero w2i name < n
  ∧ (∀ k, w2i !! name = Some k → lookup_or_zero w2i name = k ∧ i2w !! k = Some name)
  ∧ (w2i !! name = None → lookup_or_zero w2i name = 0).
Proof.
  intros Hm Hn. unfold lookup_or_zero.
  destruct (w2i !! name) as [k|] eqn:Hk.
  - split_and!; [by eapply wordmaps_id_lt| |done].
    intros k' [= <-]. split; [done|]. by apply Hm.
  - split_and!; [done| |done]. intros k' [=].
Qed.

Lemma clip_paired b :
  paired_reviews (clip b) = paired_reviews b
  ∧ paired_summaries (clip b) = paired_summaries b.
Proof.
  unfold paired_reviews, paired_summaries.
  change (reviewText (clip b)) with (take (length (summary b)) (reviewText b)).
  change (summary (clip b)) with (summary b).
  by rewrite (zip_with_take_l pair).
Qed.

Lemma clip_sorted b :
  sorted_reviews (clip b) = sorted_reviews b
  ∧ sorted_summaries (clip b) = sorted_summaries b.
Proof.
  unfold sorted_reviews, sorted_summaries, batch_order.
  destruct (clip_paired b) as [-> ->]. done.
Qed.

Lemma clip_tensors v b L : tensors v (clip b) L = tensors v b L.
Proof.
  unfold tensors. destruct (clip_sorted b) as [-> ->]. done.
Qed.

Lemma clip_batch_ok b :
  summary b ≠ [] → length (summary b) ≤ length (reviewText b) → batch_ok (clip b).
Proof.
  intros Hne Hle. split; simpl.
  - intros Heq. apply Hne, nil_length_inv.
    apply (f_equal length) in Heq. rewrite length_take in Heq. simpl in Heq. lia.
  - rewrite length_take. lia.
Qed.

Lemma read_batch_clip v b : read_batch v (clip b) = read_batch v b.
Proof.
  unfold read_batch. destruct (reset_dynamic v) as [v1|e]; simpl; [|done].
  destruct (clip_paired b) as [-> _]. destruct (clip_sorted b) as [-> _].
  change (summary (clip b)) with (summary b).
  case_bool_decide; [|done].
  destruct (getindex (sorted_reviews b) 0); simpl; [|done].
  by rewrite clip_tensors.
Qed.
End copy_batch_errors.

(** X9.  [read_batch] does not touch the user and product registries,
    and it lists the attribute ids in the order of the batch (not in the
    sorted order of the texts): the entry at position [i] of [src_user]
    is the id of [batch['userID'][i]] when that user is registered, so
    that [id2user] gives the user back, and 0, the id of the unknown
    user, when it is not; it is always below [user_num].  The same holds
    for the products. *)
Theorem attribute_ids {E : Type} (v : @CopyVocab.Vocab E) (b : CopyVocab.Batch)
    (v' : @CopyVocab.Vocab E) (t : CopyVocab.Tensors) :
  consistent v → registries_ok v → CopyVocab.read_batch v b = Ok (v', t) →
  registries_ok v'
  ∧ CopyVocab.user2id v' = CopyVocab.user2id v
  ∧ CopyVocab.product2id v' = CopyVocab.product2id v
  ∧ length (CopyVocab.src_user t) = length (CopyVocab.userID b)
  ∧ length (CopyVocab.src_product t) = length (CopyVocab.productID b)
  ∧ (∀ i u, CopyVocab.userID b !! i = Some u →
       ∃ k, CopyVocab.src_user t !! i = Some k
         ∧ k < CopyVocab.user_num v
         ∧ (∀ k', CopyVocab.user2id v !! u = Some k' →
              k = k' ∧ CopyVocab.id2user v !! k = Some u)
         ∧ (CopyVocab.user2id v !! u = None →
              k = 0 ∧ CopyVocab.id2user v !! k = Some "<UNK-USER>"%string))
  ∧ (∀ i p, CopyVocab.productID b !! i = Some p →
       ∃ k, CopyVocab.src_product t !! i = Some k
         ∧ k < CopyVocab.product_num v
         ∧ (∀ k', CopyVocab.product2id v !! p = Some k' →
              k = k' ∧ CopyVocab.id2product v !! k = Some p)
         ∧ (CopyVocab.product2id v !! p = None →
              k = 0 ∧ CopyVocab.id2product v !! k = Some "<UNK-PRODUCT>"%string)).
Proof.
  intros Hv Hr Hread.
  destruct (read_batch_registries v b v' t Hv Hread) as (Hun & Hu & Hiu & Hpn & Hp & Hip).
  pose proof Hread as (v1' & first & _ & _ & _ & Ht)%read_batch_inv.
  pose proof Hr as (Hmu & Hu0 & Hmp & Hp0).
  assert (0 < CopyVocab.user_num v) as Hupos by (apply (wm_dom _ _ _ Hmu); eauto).
  assert (0 < CopyVocab.product_num v) as Hppos by (apply (wm_dom _ _ _ Hmp); eauto).
  subst t. simpl. rewrite !length_fmap, Hu, Hp.
  split_and!; [|done|done|done|done| |].
  - unfold registries_ok. by rewrite Hun, Hu, Hiu, Hpn, Hp, Hip.
  - intros i u Hi. rewrite list_lookup_fmap, Hi. simpl.
    destruct (registry_lookup _ _ _ u Hmu Hupos) as (Hlt & Hsome & Hnone).
    eexists. split_and!; [done|done| |].
    + intros k' Hk'. destruct (Hsome k' Hk') as [Heq Hback]. by rewrite Heq.
    + intros Hn. rewrite (Hnone Hn). by split.
  - intros i p Hi. rewrite list_lookup_fmap, Hi. simpl.
    destruct (registry_lookup _ _ _ p Hmp Hppos) as (Hlt & Hsome & Hnone).
    eexists. split_and!; [done|done| |].
    + intros k' Hk'. destruct (Hsome k' Hk') as [Heq Hback]. by rewrite Heq.
    + intros Hn. rewrite (Hnone Hn). by split.
Qed.

Lemma attribute_ids_witness :
  registries_ok demo_read.1
  ∧ CopyVocab.user2id demo_read.1 = CopyVocab.user2id demo_vocab
  ∧ CopyVocab.product2id demo_read.1 = CopyVocab.product2id demo_vocab
  ∧ length (CopyVocab.src_user demo_read.2) = length (CopyVocab.userID demo_batch)
  ∧ length (CopyVocab.src_product demo_read.2) = length (CopyVocab.productID demo_batch)
  ∧ (∀ i u, CopyVocab.userID demo_batch !! i = Some u →
       ∃ k, CopyVocab.src_user demo_read.2 !! i = Some k
         ∧ k < CopyVocab.user_num demo_vocab
         ∧ (∀ k', CopyVocab.user2id demo_vocab !! u = Some k' →
              k = k' ∧ CopyVocab.id2user demo_vocab !! k = Some u)
         ∧ (CopyVocab.user2id demo_vocab !! u = None →
              k = 0 ∧ CopyVocab.id2user demo_vocab !! k = Some "<UNK-USER>"%string))
  ∧ (∀ i p, CopyVocab.productID demo_batch !! i = Some p →
       ∃ k, CopyVocab.src_product demo_read.2 !! i = Some k
         ∧ k < CopyVocab.product_num demo_vocab
         ∧ (∀ k', CopyVocab.product2id demo_vocab !! p = Some k' →
              k = k' ∧ CopyVocab.id2product demo_vocab !! k = Some p)
         ∧ (CopyVocab.product2id demo_vocab !! p = None →
              k = 0 ∧ CopyVocab.id2product demo_vocab !! k = Some "<UNK-PRODUCT>"%string)).
Proof.
  apply (attribute_ids demo_vocab demo_batch demo_read.1 demo_read.2).
  - apply synced_consistent. apply (init_synced demo_normal demo_args None).
  - apply (init_registries demo_normal demo_args None).
  - rewrite demo_read_ok. by destruct demo_read.
Defined.

(** X10.  The batches on which [read_batch] fails, on a consistent
    state: a batch without summaries raises IndexError (there is no
    [src_text[0]]), and so does a batch with more summaries than reviews
    (the sort key reads a review that [zip] has not paired); a batch
    with at least one summary and at least as many reviews returns, and
    the reviews beyond the number of summaries have no effect on the
    result. *)
Theorem read_batch_index_errors {E : Type} (v : @CopyVocab.Vocab E) (b : CopyVocab.Batch) :
  consistent v →
  (CopyVocab.summary b = [] → CopyVocab.read_batch v b = Raise IndexError)
  ∧ (length (CopyVocab.reviewText b) < length (CopyVocab.summary b) →
       CopyVocab.read_batch v b = Raise IndexError)
  ∧ (CopyVocab.summary b ≠ [] →
     length (CopyVocab.summary b) ≤ length (CopyVocab.reviewText b) →
       ∃ r, CopyVocab.read_batch v b = Ok r ∧ CopyVocab.read_batch v (clip b) = Ok r).
Proof.
  intros Hv. destruct (reset_dynamic_spec v Hv) as (v1 & Hreset & _).
  split_and!.
  - intros Hs. unfold CopyVocab.read_batch. rewrite Hreset. simpl.
    assert (CopyVocab.sorted_reviews b = []) as ->.
    { apply nil_length_inv. by rewrite sorted_reviews_length, Hs. }
    by case_bool_decide.
  - intros Hlt. unfold CopyVocab.read_batch. rewrite Hreset. simpl.
    rewrite bool_decide_eq_false_2; [done|].
    unfold CopyVocab.paired_reviews. rewrite length_fmap, length_zip. lia.
  - intros Hne Hle.
    destruct (read_batch_total v (clip b) Hv (clip_batch_ok b Hne Hle))
      as (v1' & first & _ & _ & Hread).
    eexists. split; [|exact Hread]. by rewrite <- read_batch_clip.
Qed.

Lemma read_batch_index_errors_witness :
  (CopyVocab.summary tie_batch = [] →
     CopyVocab.read_batch demo_vocab tie_batch = Raise IndexError)
  ∧ (length (CopyVocab.reviewText tie_batch) < length (CopyVocab.summary tie_batch) →
       CopyVocab.read_batch demo_vocab tie_batch = Raise IndexError)
  ∧ (CopyVocab.summary tie_batch ≠ [] →
     length (CopyVocab.summary tie_batch) ≤ length (CopyVocab.reviewText tie_batch) →
       ∃ r, CopyVocab.read_batch demo_vocab tie_batch = Ok r
         ∧ CopyVocab.read_batch demo_vocab (clip tie_batch) = Ok r).
Proof.
  apply (read_batch_index_errors demo_vocab tie_batch).
  apply synced_consistent. apply (init_synced demo_normal demo_args None).
Defined.

(** X11.  The sort of the batch is stable: of two examples, the one
    that stands earlier in the sorted batch has more source tokens, or
    the same number of source tokens and the earlier position in the
    batch as it was given. *)
Theorem batch_order_stable (b : CopyVocab.Batch) (p q i j : nat) :
  p < q →
  CopyVocab.batch_order b !! p = Some i → CopyVocab.batch_order b !! q = Some j →
  length (split (CopyVocab.paired_reviews b !!! j))
    < length (split (CopyVocab.paired_reviews b !!! i))
  ∨ (length (split (CopyVocab.paired_reviews b !!! i))
       = length (split (CopyVocab.paired_reviews b !!! j))
     ∧ i < j).
Proof.
  intros Hpq Hp Hq.
  pose proof (sort_desc_stable (CopyVocab.src_key (CopyVocab.paired_reviews b)) lt
                (seq 0 (length (CopyVocab.summary b))) (seq_sorted _ _)) as Hs.
  pose proof (StronglySorted_lookup_lt _ _ p q i j Hs Hp Hq Hpq) as [Hlt|[Heq Hij]].
  - left. unfold CopyVocab.src_key in Hlt. lia.
  - right. unfold CopyVocab.src_key in Heq. split; [lia|done].
Qed.

Lemma batch_order_stable_witness :
  length (split (CopyVocab.paired_reviews tie_batch !!! 2))
    < length (split (CopyVocab.paired_reviews tie_batch !!! 0))
  ∨ (length (split (CopyVocab.paired_reviews tie_batch !!! 0))
       = length (split (CopyVocab.paired_reviews tie_batch !!! 2))
     ∧ 0 < 2).
Proof.
  apply (batch_order_stable tie_batch 1 2 0 2); [lia|reflexivity|reflexivity].
Defined.

Section mem_build.
Context {E : Type}.
Variable normal : nat → nat → E.
Implicit Types v : @MemVocab.Vocab E.

Lemma mem_trim_fill_eq old ws cnt w2i i2w w2c :
  MemVocab.trim_fill old ws cnt w2i i2w w2c = CopyVocab.trim_fill old ws cnt w2i i2w w2c.
Proof.
  revert cnt w2i i2w w2c. induction ws as [|w ws IH]; intros; simpl; [done|].
  destruct (getitem old w); simpl; [apply IH|done].
Qed.

Lemma mem_trim_rows_eq (em : list E) ids :
  MemVocab.trim_rows em ids = CopyVocab.trim_rows em ids.
Proof.
  induction ids as [|i ids IH]; simpl; [done|]. by rewrite IH.
Qed.

Lemma mem_trim_scan_eq f v ids :
  MemVocab.trim_scan v ids = CopyVocab.trim_scan (as_copy_at f v) ids.
Proof.
  induction ids as [|i ids IH]; simpl; [done|]. by rewrite IH.
Qed.

Lemma mem_init_reserved_eq a :
  as_copy_at 4 (MemVocab.init_reserved normal a)
  = CopyVocab.init_reserved normal (copy_args a).
Proof. done. Qed.

Lemma mem_init_word_eq f v we :
  as_copy_at f (MemVocab.init_word v we) = CopyVocab.init_word (as_copy_at f v) we.
Proof.
  unfold MemVocab.init_word, CopyVocab.init_word. simpl.
  by destruct (MemVocab.word2id v !! we.1).
Qed.

Lemma mem_init_words_eq f v l :
  as_copy_at f (foldl MemVocab.init_word v l)
  = foldl CopyVocab.init_word (as_copy_at f v) l.
Proof.
  revert v. induction l as [|we l IH]; intros v; simpl; [done|].
  by rewrite IH, mem_init_word_eq.
Qed.

Lemma as_copy_at_fixed f g v :
  CopyVocab.with_words (as_copy_at f v) (MemVocab.embed v) (MemVocab.next_idx v) g
    (MemVocab.word2id v) (MemVocab.id2word v) (MemVocab.word2cnt v)
  = as_copy_at g v.
Proof. done. Qed.

Lemma mem_init_eq a pre :
  as_copy (MemVocab.init normal a pre) = CopyVocab.init normal (copy_args a) pre.
Proof.
  unfold as_copy, CopyVocab.init, MemVocab.init. destruct pre as [m|].
  - change (CopyVocab.sorted_items m) with (MemVocab.sorted_items m).
    rewrite <- mem_init_reserved_eq, <- mem_init_words_eq.
    set (v := foldl MemVocab.init_word _ _). done.
  - done.
Qed.

Lemma mem_add_word_eq f v w :
  match MemVocab.add_word normal v w with
  | Ok v' => CopyVocab.add_word normal (as_copy_at f v) w = Ok (as_copy_at f v')
  | Raise e => CopyVocab.add_word normal (as_copy_at f v) w = Raise e
  end.
Proof.
  unfold MemVocab.add_word, CopyVocab.add_word. simpl.
  destruct (MemVocab.word2id v !! w); [|done].
  by destruct (getitem (MemVocab.word2cnt v) w).
Qed.

Lemma mem_add_words_eq f v sent :
  match MemVocab.add_sentence normal v sent with
  | Ok v' => CopyVocab.add_words normal (as_copy_at f v) sent = Ok (as_copy_at f v')
  | Raise e => CopyVocab.add_words normal (as_copy_at f v) sent = Raise e
  end.
Proof.
  revert v. induction sent as [|w sent IH]; intros v; simpl; [done|].
  pose proof (mem_add_word_eq f v w) as Hw.
  destruct (MemVocab.add_word normal v w) as [v1|e]; rewrite Hw; simpl; [apply IH|done].
Qed.

Lemma mem_add_sentence_eq v sent :
  match MemVocab.add_sentence normal v sent with
  | Ok v' => CopyVocab.add_sentence normal (as_copy v) sent = Ok (as_copy v')
  | Raise e => CopyVocab.add_sentence normal (as_copy v) sent = Raise e
  end.
Proof.
  unfold CopyVocab.add_sentence, as_copy.
  pose proof (mem_add_words_eq (MemVocab.next_idx v) v sent) as Hs.
  destruct (MemVocab.add_sentence normal v sent) as [v'|e]; rewrite Hs; done.
Qed.

Lemma mem_trim_eq v :
  match MemVocab.trim v with
  | Ok (v', em) =>
      ∃ c, CopyVocab.trim (as_copy v) = Ok (c, em)
        ∧ same_tables v' c
        ∧ MemVocab.next_idx v' = MemVocab.next_idx v
        ∧ MemVocab.args v' = MemVocab.args v
  | Raise e => CopyVocab.trim (as_copy v) = Raise e
  end.
Proof.
  unfold MemVocab.trim, CopyVocab.trim, as_copy.
  rewrite (mem_trim_scan_eq (MemVocab.next_idx v)). simpl.
  destruct (CopyVocab.trim_scan _ _) as [[ws js]|e]; simpl; [|done].
  rewrite mem_trim_fill_eq.
  destruct (CopyVocab.trim_fill _ _ _ _ _ _) as [[[[cnt w2i] i2w] w2c]|e]; simpl; [|done].
  rewrite mem_trim_rows_eq.
  destruct (CopyVocab.trim_rows _ _) as [em|e]; simpl; [|done].
  case_bool_decide; [|done].
  eexists. split; [done|]. by split_and!.
Qed.
End mem_build.

(** X12.  The vocabulary of memBasic builds the same word tables as the
    vocabulary of seq2seqCopyAttr: construction (with or without
    pretrained embeddings) and [add_sentence] give the same tables and
    the same exceptions in both, and [trim] returns the same embedding
    table and leaves the same four tables; the one difference is that the
    memBasic [trim] keeps the old value of [next_idx], where the other
    vocabulary sets its word counter to the number of words kept. *)
Theorem mem_vocab_agrees {E : Type} (normal : nat → nat → E) (a : MemVocab.Args)
    (pre : option (gmap string E)) (v : @MemVocab.Vocab E) (sent : list string) :
  as_copy (MemVocab.init normal a pre) = CopyVocab.init normal (copy_args a) pre
  ∧ match MemVocab.add_sentence normal v sent with
    | Ok v' => CopyVocab.add_sentence normal (as_copy v) sent = Ok (as_copy v')
    | Raise e => CopyVocab.add_sentence normal (as_copy v) sent = Raise e
    end
  ∧ match MemVocab.trim v with
    | Ok (v', em) =>
        ∃ c, CopyVocab.trim (as_copy v) = Ok (c, em)
          ∧ same_tables v' c
          ∧ MemVocab.next_idx v' = MemVocab.next_idx v
          ∧ CopyVocab.word_num c = length em
          ∧ MemVocab.args v' = MemVocab.args v
    | Raise e => CopyVocab.trim (as_copy v) = Raise e
    end.
Proof.
  split_and!; [apply mem_init_eq|apply mem_add_sentence_eq|].
  pose proof (mem_trim_eq v) as Ht.
  destruct (MemVocab.trim v) as [[v' em]|e]; [|done].
  destruct Ht as (c & Hc & Hsame & Hn & Ha).
  exists c. split_and!; [done|done|done| |done].
  clear -Hc. unfold CopyVocab.trim in Hc.
  apply bind_Ok in Hc as ([ws js] & Hscan & Hc).
  apply bind_Ok in Hc as ([[[cnt w2i] i2w] w2c] & Hfill & Hc).
  apply bind_Ok in Hc as (em' & Hrows & Hc).
  case_bool_decide as Hsz; [|done]. injection Hc as <- <-. simpl.
  apply trim_fill_lookup in Hfill as (-> & _).
  apply trim_rows_length in Hrows. apply trim_scan_counts in Hscan as [Hlen _].
  simpl. lia.
Qed.

Lemma getitem_None `{Countable K} {V} (d : gmap K V) k :
  d !! k = None → getitem d k = Raise KeyError.
Proof. unfold getitem. by intros ->. Qed.

Section mem_trim.
Context {E : Type}.
Variable normal : nat → nat → E.
Implicit Types v : @MemVocab.Vocab E.

Lemma mem_init_full a pre : mem_full (MemVocab.init normal a pre).
Proof.
  unfold mem_full. rewrite mem_init_eq. apply (init_synced normal).
Qed.

Lemma mem_add_sentence_full v sent :
  mem_full v → ∃ v', MemVocab.add_sentence normal v sent = Ok v' ∧ mem_full v'.
Proof.
  intros Hf. destruct (add_sentence_full normal (as_copy v) sent Hf) as (c & Hc & Hs).
  pose proof (mem_add_sentence_eq normal v sent) as Heq.
  destruct (MemVocab.add_sentence normal v sent) as [v'|e]; [|congruence].
  exists v'. split; [done|]. unfold mem_full.
  rewrite Hc in Heq. injection Heq as <-. apply Hs.
Qed.

Lemma mem_trim_scan_stops v l1 i0 l2 :
  (∀ i, i ∈ l1 → ∃ w c, MemVocab.id2word v !! i = Some w
                        ∧ MemVocab.word2cnt v !! w = Some c) →
  MemVocab.id2word v !! i0 = None →
  MemVocab.trim_scan v (l1 ++ i0 :: l2) = Raise KeyError.
Proof.
  intros Hok Hi0. induction l1 as [|i l1 IH]; simpl.
  - by rewrite (getitem_None _ _ Hi0).
  - destruct (Hok i) as (w & c & Hw & Hc); [by left|].
    rewrite (getitem_Some _ _ _ Hw). simpl. rewrite (getitem_Some _ _ _ Hc). simpl.
    rewrite IH; [done|]. intros j Hj. apply Hok. by right.
Qed.

(** The result of [trim] on a full state. *)
Lemma mem_trim_full v :
  mem_full v →
  ∃ v' em c, MemVocab.trim v = Ok (v', em)
    ∧ CopyVocab.trim (as_copy v) = Ok (c, em)
    ∧ synced c ∧ same_tables v' c
    ∧ MemVocab.embed v' = em
    ∧ MemVocab.next_idx v' = MemVocab.next_idx v
    ∧ MemVocab.args v' = MemVocab.args v
    ∧ CopyVocab.word_num c = length em
    ∧ ((∀ w k, MemVocab.word2cnt v !! w = Some k →
          (MemVocab.word_min_cnt (MemVocab.args v) ≤ k)%Z) →
       length em = MemVocab.next_idx v)
    ∧ ((∃ w k, MemVocab.word2cnt v !! w = Some k
          ∧ (k < MemVocab.word_min_cnt (MemVocab.args v))%Z) →
       length em < MemVocab.next_idx v).
Proof.
  intros Hf. pose proof Hf as (Hm & Hc & He).
  destruct (trim_full_spec (as_copy v) Hf)
    as (ws & js & c & em & Htrim & Hs & Hem & Ha & Hv' & Hwn & Hfa & Hjs & Hmem & Hid
        & Hcnt & Hrow).
  pose proof (mem_trim_eq v) as Heq.
  destruct (MemVocab.trim v) as [[v' em']|e]; [|congruence].
  destruct Heq as (c' & Hc' & Hsame & Hn & Hargs).
  rewrite Htrim in Hc'. injection Hc' as <- <-.
  assert (length em = length js) as Hlen.
  { pose proof Hs as [(_ & _ & He') _]. rewrite <- Hem, He', Hwn.
    by eapply Forall2_length. }
  exists v', em, c. split_and!; [done|done|done|done| |done|done| | |].
  - destruct Hsame as (-> & _). done.
  - pose proof Hs as [(_ & _ & He') _]. by rewrite <- Hem.
  - intros Hall. rewrite Hlen.
    assert (js = seq 0 (MemVocab.next_idx v)) as ->; [|by rewrite length_seq].
    apply sorted_lt_seq; [done|]. intros i. rewrite Hmem. simpl.
    split; [by intros [? _]|]. intros Hi. split; [done|].
    destruct (proj2 (wm_dom _ _ _ Hm i) Hi) as [w Hw].
    destruct (proj2 (ct_dom _ _ _ Hc w)) as [k Hk]; [exists i; split; [by apply Hm|done]|].
    exists w, k. split_and!; [done|done|]. by eapply Hall.
  - intros (w & k & Hk & Hlt). rewrite Hlen.
    destruct (proj1 (ct_dom _ _ _ Hc w)) as (i & Hi & Hin); [by eexists|].
    simpl in Hi, Hin.
    assert (i ∉ js) as Hnot.
    { rewrite Hmem. intros [_ (w' & k' & Hw' & Hk' & Hge)].
      apply Hm in Hi. simpl in *. assert (w' = w) as -> by congruence.
      assert (k' = k) as -> by congruence. lia. }
    assert (NoDup (i :: js)) as Hnd.
    { constructor; [done|]. clear -Hjs.
      induction Hjs as [|x l Hl IH Hx]; constructor; [|done].
      intros Hin. rewrite Forall_forall in Hx. specialize (Hx x Hin). lia. }
    assert (length (i :: js) ≤ length (seq 0 (MemVocab.next_idx v))) as Hle.
    { apply submseteq_length, NoDup_submseteq; [done|].
      intros x [->|Hx]%elem_of_cons; apply elem_of_seq; [simpl; lia|].
      apply Hmem in Hx as [Hx _]. simpl in Hx. lia. }
    rewrite length_seq in Hle. simpl in Hle. lia.
Qed.

Lemma mem_vocab_eq v1 v2 :
  MemVocab.args v1 = MemVocab.args v2 → MemVocab.embed v1 = MemVocab.embed v2 →
  MemVocab.next_idx v1 = MemVocab.next_idx v2 →
  MemVocab.word2id v1 = MemVocab.word2id v2 → MemVocab.id2word v1 = MemVocab.id2word v2 →
  MemVocab.word2cnt v1 = MemVocab.word2cnt v2 → v1 = v2.
Proof. destruct v1, v2. simpl. by intros -> -> -> -> -> ->. Qed.
End mem_trim.

(** X13.  The memBasic [trim] on a state in which every word has a
    frequency and a row returns, and leaves tables in which the words
    kept hold the ids below the number of rows kept, but it keeps the old
    [next_idx].  So a second [trim] gives the same result only when the
    first one had no word to drop; when a word was below the threshold,
    the second [trim] raises KeyError (it looks for the ids up to the old
    [next_idx]). *)
Theorem mem_trim_stale_counter {E : Type} (v : @MemVocab.Vocab E) :
  mem_full v →
  ∃ v' em, MemVocab.trim v = Ok (v', em)
    ∧ MemVocab.embed v' = em
    ∧ MemVocab.next_idx v' = MemVocab.next_idx v
    ∧ wordmaps (length em) (MemVocab.word2id v') (MemVocab.id2word v')
    ∧ counted (length em) (MemVocab.word2id v') (MemVocab.word2cnt v')
    ∧ ((∀ w k, MemVocab.word2cnt v !! w = Some k →
          (MemVocab.word_min_cnt (MemVocab.args v) ≤ k)%Z) →
       length em = MemVocab.next_idx v ∧ MemVocab.trim v' = Ok (v', em))
    ∧ ((∃ w k, MemVocab.word2cnt v !! w = Some k
          ∧ (k < MemVocab.word_min_cnt (MemVocab.args v))%Z) →
       length em < MemVocab.next_idx v ∧ MemVocab.trim v' = Raise KeyError).
Proof.
  intros Hf.
  destruct (mem_trim_full v Hf)
    as (v' & em & c & Htrim & Hctrim & Hs & Hsame & Hem & Hn & Hargs & Hwn & Hall & Hsome).
  pose proof Hs as [(Hm' & Hc' & He') Hfn].
  pose proof Hsame as (Hse & Hsw & Hsi & Hsc).
  rewrite Hwn in Hm', Hc'. rewrite <- Hsw, <- Hsi in Hm'. rewrite <- Hsw, <- Hsc in Hc'.
  exists v', em. split_and!; [done|done|done|done|done| |].
  - intros Hok. specialize (Hall Hok). split; [done|].
    assert (as_copy v' = c) as Hcopy.
    { unfold CopyVocab.trim in Hctrim.
      apply bind_Ok in Hctrim as ([ws js] & _ & Hctrim).
      apply bind_Ok in Hctrim as ([[[cnt w2i] i2w] w2c] & _ & Hctrim).
      apply bind_Ok in Hctrim as (em' & _ & Hctrim).
      case_bool_decide; [|done]. injection Hctrim as <- <-.
      simpl in *. unfold as_copy, as_copy_at, CopyVocab.with_words. simpl.
      rewrite Hargs, Hse, Hsw, Hsi, Hsc, Hn. rewrite <- Hall, Hwn. done. }
    pose proof (mem_trim_eq v') as Heq. rewrite Hcopy in Heq.
    rewrite (trim_again _ _ _ Hctrim) in Heq.
    destruct (MemVocab.trim v') as [[v2 em2]|e]; [|done].
    destruct Heq as (c2 & [= <- <-] & (H1 & H2 & H3 & H4) & Hn2 & Ha2).
    do 2 f_equal. apply mem_vocab_eq; congruence.
  - intros Hex. specialize (Hsome Hex). split; [done|].
    unfold MemVocab.trim. rewrite Hn.
    assert (seq 0 (MemVocab.next_idx v)
            = seq 0 (length em) ++ length em
                :: seq (S (length em)) (MemVocab.next_idx v - S (length em))) as ->.
    { replace (MemVocab.next_idx v)
        with (length em + S (MemVocab.next_idx v - S (length em))) at 1 by lia.
      by rewrite seq_app. }
    rewrite mem_trim_scan_stops; [done| |].
    + intros i Hi%elem_of_seq.
      destruct (proj2 (wm_dom _ _ _ Hm' i)) as [w Hw]; [lia|].
      destruct (proj2 (ct_dom _ _ _ Hc' w)) as [k Hk].
      { exists i. split; [by apply Hm'|lia]. }
      eauto.
    + by apply (wordmaps_fresh _ _ _ Hm').
Qed.

Lemma mem_scanned_full : mem_full mem_scanned.
Proof.
  destruct (mem_add_sentence_full demo_normal
              (MemVocab.init demo_normal mem_build_args None)
              ["a"%string; "b"%string; "a"%string; "c"%string]
              (mem_init_full demo_normal mem_build_args None)) as (v' & Hv' & Hf).
  unfold mem_scanned. by rewrite Hv'.
Qed.

Lemma mem_trim_stale_counter_witness :
  ∃ v' em, MemVocab.trim mem_scanned = Ok (v', em)
    ∧ MemVocab.embed v' = em
    ∧ MemVocab.next_idx v' = MemVocab.next_idx mem_scanned
    ∧ wordmaps (length em) (MemVocab.word2id v') (MemVocab.id2word v')
    ∧ counted (length em) (MemVocab.word2id v') (MemVocab.word2cnt v')
    ∧ ((∀ w k, MemVocab.word2cnt mem_scanned !! w = Some k →
          (MemVocab.word_min_cnt (MemVocab.args mem_scanned) ≤ k)%Z) →
       length em = MemVocab.next_idx mem_scanned ∧ MemVocab.trim v' = Ok (v', em))
    ∧ ((∃ w k, MemVocab.word2cnt mem_scanned !! w = Some k
          ∧ (k < MemVocab.word_min_cnt (MemVocab.args mem_scanned))%Z) →
       length em < MemVocab.next_idx mem_scanned ∧ MemVocab.trim v' = Raise KeyError).
Proof.
  apply (mem_trim_stale_counter mem_scanned). apply mem_scanned_full.
Defined.

(** X14.  A word added after a [trim] that dropped a word: the memBasic
    [add_sentence] gives it the stale [next_idx] as id, while its
    embedding row is appended right after the rows kept.  The id of the
    new word is therefore not the number of any embedding row, [id_word]
    refuses it with AssertionError, and the id that does number the new
    row belongs to no word: [id_word] raises KeyError on it. *)
Theorem mem_add_after_trim {E : Type} (normal : nat → nat → E)
    (v v' : @MemVocab.Vocab E) (em : list E) (w : string) :
  mem_full v → MemVocab.trim v = Ok (v', em) →
  length em < MemVocab.next_idx v → MemVocab.word2id v' !! w = None →
  ∃ v2, MemVocab.add_sentence normal v' [w] = Ok v2
    ∧ MemVocab.word_id v2 w = MemVocab.next_idx v
    ∧ MemVocab.word2cnt v2 !! w = Some 1%Z
    ∧ length (MemVocab.embed v2) = S (length em)
    ∧ MemVocab.embed v2 !! MemVocab.word_id v2 w = None
    ∧ MemVocab.id_word v2 (MemVocab.word_id v2 w) = Raise AssertionError
    ∧ MemVocab.id_word v2 (length em) = Raise KeyError.
Proof.
  intros Hf Htrim Hlt Hw.
  destruct (mem_trim_full v Hf)
    as (v1 & em1 & c & Htrim1 & _ & Hs & Hsame & Hem & Hn & _ & Hwn & _).
  rewrite Htrim in Htrim1. injection Htrim1 as <- <-.
  pose proof Hs as [(Hm' & _) _].
  destruct Hsame as (Hse & Hsw & Hsi & Hsc).
  rewrite Hwn in Hm'. rewrite <- Hsw, <- Hsi in Hm'.
  simpl. unfold MemVocab.add_word. rewrite Hw. simpl.
  eexists. split; [done|].
  unfold MemVocab.word_id, MemVocab.id_word. simpl.
  rewrite lookup_insert_eq, Hn, Hem, length_app. simpl.
  assert (MemVocab.id2word v' !! MemVocab.next_idx v = None) as Hfresh.
  { apply eq_None_not_Some. rewrite (wm_dom _ _ _ Hm'). lia. }
  rewrite map_size_insert_None by done. rewrite (wm_size_i2w _ _ _ Hm').
  split_and!; [done|by rewrite lookup_insert_eq|lia| | |].
  - apply lookup_ge_None_2. rewrite length_app. simpl. lia.
  - by rewrite bool_decide_eq_false_2 by lia.
  - rewrite bool_decide_eq_true_2 by lia. apply getitem_None.
    rewrite lookup_insert_ne by lia. apply (wordmaps_fresh _ _ _ Hm').
Qed.

Lemma mem_add_after_trim_witness :
  ∃ v2, MemVocab.add_sentence demo_normal
          (match MemVocab.trim mem_scanned with Ok r => r.1 | Raise _ => mem_scanned end)
          ["zz"%string] = Ok v2
    ∧ MemVocab.word_id v2 "zz" = MemVocab.next_idx mem_scanned
    ∧ MemVocab.word2cnt v2 !! "zz"%string = Some 1%Z
    ∧ length (MemVocab.embed v2)
      = S (length (match MemVocab.trim mem_scanned with Ok r => r.2 | Raise _ => [] end))
    ∧ MemVocab.embed v2 !! MemVocab.word_id v2 "zz" = None
    ∧ MemVocab.id_word v2 (MemVocab.word_id v2 "zz") = Raise AssertionError
    ∧ MemVocab.id_word v2
        (length (match MemVocab.trim mem_scanned with Ok r => r.2 | Raise _ => [] end))
      = Raise KeyError.
Proof.
  apply (mem_add_after_trim demo_normal mem_scanned).
  - apply mem_scanned_full.
  - vm_compute. reflexivity.
  - vm_compute. lia.
  - vm_compute. reflexivity.
Defined.

Section mass.
Import Model.
Context {T : Type}.
Variables (zero one neg_inf : T).
Variables (add sub mul div : T → T → T).
Variables (exp tanh sigmoid : T → T).
Variable opp : T → T.
Variable dropout : list T → list T.
Variable gru : list T → list (list T) → list T * list (list T).
Hypothesis Tring : ring_theory zero one add mul sub opp eq.
Add Ring Tring_mass : Tring.

Lemma foldl_add_sum z (xs : list T) : foldl add z xs = add z (vsum zero add xs).
Proof.
  unfold Model.vsum. revert z. induction xs as [|x xs IH]; intros z; simpl; [ring|].
  rewrite (IH (add z x)), (IH (add zero x)). ring.
Qed.

Lemma vsum_cons x (xs : list T) : vsum zero add (x :: xs) = add x (vsum zero add xs).
Proof. unfold Model.vsum at 1. simpl. rewrite foldl_add_sum. ring. Qed.

Lemma vsum_nil : vsum zero add [] = zero.
Proof. done. Qed.

Lemma vsum_app (xs ys : list T) :
  vsum zero add (xs ++ ys) = add (vsum zero add xs) (vsum zero add ys).
Proof.
  induction xs as [|x xs IH].
  - rewrite app_nil_l, vsum_nil. ring.
  - rewrite <- app_comm_cons, !vsum_cons, IH. ring.
Qed.

Lemma vsum_replicate_zero n : vsum zero add (replicate n zero) = zero.
Proof.
  induction n as [|n IH]; [done|].
  change (replicate (S n) zero) with (zero :: replicate n zero).
  rewrite vsum_cons, IH. ring.
Qed.

Lemma vsum_insert (acc : list T) i a x :
  acc !! i = Some a → vsum zero add (<[i := add a x]> acc) = add (vsum zero add acc) x.
Proof.
  revert i. induction acc as [|y acc IH]; intros [|i] Hi; try done.
  - injection Hi as ->. change (<[0:=add a x]> (a :: acc)) with (add a x :: acc).
    rewrite !vsum_cons. ring.
  - change (<[S i:=add a x]> (y :: acc)) with (y :: <[i:=add a x]> acc).
    rewrite !vsum_cons, (IH i Hi). ring.
Qed.

Lemma scatter_add_sum acc index (vals : list T) acc' :
  scatter_add add acc index vals = Ok acc' →
  vsum zero add acc' = add (vsum zero add acc) (vsum zero add (take (length index) vals)).
Proof.
  revert acc vals. induction index as [|i index IH]; intros acc vals Hs; simpl in Hs.
  - injection Hs as <-. change (vsum zero add (take (length []) vals)) with zero. ring.
  - destruct vals as [|x vals]; [done|].
    destruct (acc !! i) as [a|] eqn:Ha; [|done].
    rewrite (IH _ _ Hs), (vsum_insert _ _ _ _ Ha).
    change (take (length (i :: index)) (x :: vals)) with (x :: take (length index) vals).
    rewrite vsum_cons. ring.
Qed.

Lemma vsum_pad_gen vocab_size (gen_prob : list T) :
  vsum zero add (pad_gen zero vocab_size gen_prob) = vsum zero add gen_prob.
Proof.
  unfold pad_gen. case_bool_decide; [|done].
  rewrite vsum_app, vsum_replicate_zero. ring.
Qed.

Lemma vsum_mix g h (xs ys : list T) :
  length xs = length ys →
  vsum zero add (zip_with add (mul g <$> xs) (mul h <$> ys))
  = add (mul g (vsum zero add xs)) (mul h (vsum zero add ys)).
Proof.
  revert ys. induction xs as [|x xs IH]; intros [|y ys] Hlen; try done.
  - change (zero = add (mul g zero) (mul h zero)). ring.
  - change (zip_with add (mul g <$> x :: xs) (mul h <$> y :: ys))
      with (add (mul g x) (mul h y) :: zip_with add (mul g <$> xs) (mul h <$> ys)).
    rewrite !vsum_cons, IH by (simpl in Hlen; lia). ring.
Qed.

Lemma mix_one g : add (mul g one) (mul (sub one g) one) = one.
Proof. ring. Qed.
End mass.

Section copy_mass.
Import Model.
Context {T : Type}.
Variables (zero one : T).
Variables (add sub mul : T → T → T).
Variable opp : T → T.

(** X15.  The copy distribution carries the attention mass it is given:
    in a ring, when [scatter_add] returns, the entries of the result sum
    to the sum of the attention weights of the source positions (the
    table starts at zero and every weight is added to exactly one
    entry); a weight beyond the last source position is not used. *)
Theorem copy_mass_conserved (vocab_size : nat) (src : list nat)
    (attn_probs copy_prob : list T) :
  ring_theory zero one add mul sub opp eq →
  copy_dist zero add vocab_size src attn_probs = Ok copy_prob →
  length copy_prob = vocab_size
  ∧ length src ≤ length attn_probs
  ∧ (∀ id, id ∈ src → id < vocab_size)
  ∧ vsum zero add copy_prob = vsum zero add (take (length src) attn_probs)
  ∧ (length src = length attn_probs →
     vsum zero add copy_prob = vsum zero add attn_probs).
Proof.
  intros Tring Hcopy.
  assert (length src ≤ length attn_probs ∧ (∀ id, id ∈ src → id < vocab_size)) as [Hlen Hids].
  { unfold copy_dist in Hcopy.
    assert (∀ acc : list T, scatter_add add acc src attn_probs = Ok copy_prob →
              length src ≤ length attn_probs ∧ ∀ id, id ∈ src → id < length acc) as Hgen.
    { clear Hcopy. revert attn_probs. induction src as [|i index IH]; intros vals acc; simpl.
      - intros _. split; [lia|]. intros id Hid. by apply elem_of_nil in Hid.
      - destruct vals as [|x vals]; [done|].
        destruct (acc !! i) as [a|] eqn:Ha; [|done].
        intros Hs. destruct (IH _ _ Hs) as [Hl Hi]. rewrite length_insert in Hi.
        split; [simpl; lia|]. intros id [->|Hid]%elem_of_cons; [|by apply Hi].
        by eapply lookup_lt_Some. }
    destruct (Hgen _ Hcopy) as [Hl Hi]. rewrite length_replicate in Hi. done. }
  destruct (copy_dist_spec zero add vocab_size src attn_probs Hlen Hids)
    as (cp & Hcp & Hcl & _).
  rewrite Hcopy in Hcp. injection Hcp as <-.
  assert (vsum zero add copy_prob = vsum zero add (take (length src) attn_probs)) as Hsum.
  { unfold copy_dist in Hcopy.
    rewrite (scatter_add_sum zero one add sub mul opp Tring _ _ _ _ Hcopy).
    rewrite (vsum_replicate_zero zero one add sub mul opp Tring).
    destruct Tring. by rewrite Radd_0_l. }
  split_and!; [done|done|done|done|].
  intros Heq. rewrite Hsum, Heq. by rewrite firstn_all.
Qed.
End copy_mass.

Lemma copy_mass_conserved_witness :
  length [0; 0; 0; 5]%Z = 4
  ∧ length [3; 3] ≤ length [2; 3]%Z
  ∧ (∀ id, id ∈ [3; 3] → id < 4)
  ∧ Model.vsum 0%Z Z.add [0; 0; 0; 5]%Z = Model.vsum 0%Z Z.add (take (length [3; 3]) [2; 3]%Z)
  ∧ (length [3; 3] = length [2; 3]%Z →
     Model.vsum 0%Z Z.add [0; 0; 0; 5]%Z = Model.vsum 0%Z Z.add [2; 3]%Z).
Proof.
  apply (copy_mass_conserved 0%Z 1%Z Z.add Z.sub Z.mul Z.opp 4 [3; 3] [2; 3]%Z [0; 0; 0; 5]%Z).
  - exact Zth.
  - reflexivity.
Defined.

Section normalised.
Import Model.
Context {T : Type}.
Variables (zero one neg_inf : T).
Variables (add sub mul div : T → T → T).
Variables (exp tanh sigmoid : T → T).
Variable opp : T → T.
Variable dropout : list T → list T.
Variable gru : list T → list (list T) → list T * list (list T).

(** X16.  One decode step keeps the probability mass: in a ring, with
    the inputs of a decoding step (at least one decoder layer; one mask
    entry, one key, one encoder state and one id per source position;
    one key per attribute row; every source id below [vocab_size]; at
    most [vocab_size] generator outputs), the entries
    of the output sum to [gate * G + (1 - gate) * A], where [G] is the
    sum of the generator's softmax and [A] the sum of the attention
    weights; so the output sums to one whenever the two softmaxes do. *)
Theorem decode_step_normalised (d : Decoder) (src : list nat) (prev_embed : list T)
    (encoder_hidden : list (list T)) (src_mask : list nat)
    (proj_key encoder_attr proj_key_attr hidden : list (list T))
    (context_hidden : list T) (vocab_size : nat) :
  ring_theory zero one add mul sub opp eq →
  (gru (prev_embed ++ context_hidden) hidden).2 ≠ [] →
  length src_mask = length proj_key →
  length encoder_hidden = length proj_key →
  length encoder_attr = length proj_key_attr →
  length src = length proj_key →
  (∀ id, id ∈ src → id < vocab_size) →
  length (weight (generator d)) ≤ vocab_size →
  ∃ s mix_prob,
    step_trace zero neg_inf add mul div exp tanh gru d prev_embed encoder_hidden
      src_mask proj_key encoder_attr proj_key_attr hidden context_hidden = Ok s
    ∧ decode_step zero one neg_inf add sub mul div exp tanh sigmoid dropout gru d src
        prev_embed encoder_hidden src_mask proj_key encoder_attr proj_key_attr hidden
        context_hidden vocab_size
      = Ok (st_hidden s, st_context_hidden s, mix_prob)
    ∧ let gen_softmax :=
        softmax zero add div exp
          (linear zero add mul (generator d) (dropout (st_context_hidden s))) in
      let gen_p := gate zero add mul sigmoid d prev_embed s in
      vsum zero add mix_prob
      = add (mul gen_p (vsum zero add gen_softmax))
            (mul (sub one gen_p) (vsum zero add (st_attn_probs s)))
      ∧ (vsum zero add gen_softmax = one → vsum zero add (st_attn_probs s) = one →
         vsum zero add mix_prob = one).
Proof.
  intros Tring Hgru Hmask _ _ Hsrc Hids Hgen.
  destruct (step_trace_total zero neg_inf add mul div exp tanh gru d prev_embed
              encoder_hidden src_mask proj_key encoder_attr proj_key_attr hidden
              context_hidden Hgru Hmask) as (s & Hs & Hattn).
  destruct (copy_dist_spec zero add vocab_size src (st_attn_probs s))
    as (copy_prob & Hcopy & Hclen & _); [lia|done|].
  set (gen_softmax := softmax zero add div exp
         (linear zero add mul (generator d) (dropout (st_context_hidden s)))).
  assert (length gen_softmax ≤ vocab_size) as Hglen.
  { unfold gen_softmax. rewrite softmax_length.
    etrans; [apply linear_length|done]. }
  destruct (pad_gen_spec zero vocab_size gen_softmax Hglen) as (Hplen & _ & _).
  set (g := gate zero add mul sigmoid d prev_embed s).
  assert (mix one add sub mul g (pad_gen zero vocab_size gen_softmax) copy_prob
          = Ok (zip_with add (mul g <$> pad_gen zero vocab_size gen_softmax)
                  (mul (sub one g) <$> copy_prob))) as Hmix.
  { unfold mix, bcast_add. rewrite bool_decide_eq_true_2; [done|].
    rewrite !length_fmap. lia. }
  eexists s, _. split_and!; [done| |].
  { unfold decode_step. rewrite Hs. simpl. rewrite Hcopy. simpl.
    unfold gen_dist. fold gen_softmax g. by rewrite Hmix. }
  cbv zeta. fold gen_softmax g.
  assert (vsum zero add
            (zip_with add (mul g <$> pad_gen zero vocab_size gen_softmax)
               (mul (sub one g) <$> copy_prob))
          = add (mul g (vsum zero add gen_softmax))
                (mul (sub one g) (vsum zero add (st_attn_probs s)))) as Hsum.
  { rewrite (vsum_mix zero one add sub mul opp Tring) by lia.
    rewrite (vsum_pad_gen zero one add sub mul opp Tring).
    unfold copy_dist in Hcopy.
    rewrite (scatter_add_sum zero one add sub mul opp Tring _ _ _ _ Hcopy).
    rewrite (vsum_replicate_zero zero one add sub mul opp Tring).
    rewrite Hsrc, <- Hattn, firstn_all.
    destruct Tring. by rewrite Radd_0_l. }
  split; [done|].
  intros HG HA. rewrite Hsum, HG, HA.
  apply (mix_one zero one add sub mul opp Tring).
Qed.
End normalised.

Lemma decode_step_normalised_witness :
  ∃ s mix_prob,
    Model.step_trace 0%Z (-1000)%Z Z.add Z.mul Z.div id id toy_gru toy_decoder [1%Z]
      [[1%Z]; [2%Z]] [1; 1] [[1%Z]; [2%Z]] [[1%Z]] [[1%Z]] [[0%Z]] [0%Z] = Ok s
    ∧ Model.decode_step 0%Z 1%Z (-1000)%Z Z.add Z.sub Z.mul Z.div id id id id toy_gru
        toy_decoder [3; 3] [1%Z] [[1%Z]; [2%Z]] [1; 1] [[1%Z]; [2%Z]] [[1%Z]] [[1%Z]]
        [[0%Z]] [0%Z] 4
      = Ok (Model.st_hidden s, Model.st_context_hidden s, mix_prob)
    ∧ let gen_softmax :=
        Model.softmax 0%Z Z.add Z.div id
          (Model.linear 0%Z Z.add Z.mul (Model.generator toy_decoder)
             (id (Model.st_context_hidden s))) in
      let gen_p := Model.gate 0%Z Z.add Z.mul id toy_decoder [1%Z] s in
      Model.vsum 0%Z Z.add mix_prob
      = (gen_p * Model.vsum 0%Z Z.add gen_softmax
         + (1 - gen_p) * Model.vsum 0%Z Z.add (Model.st_attn_probs s))%Z
      ∧ (Model.vsum 0%Z Z.add gen_softmax = 1%Z →
         Model.vsum 0%Z Z.add (Model.st_attn_probs s) = 1%Z →
         Model.vsum 0%Z Z.add mix_prob = 1%Z).
Proof.
  apply (decode_step_normalised 0%Z 1%Z (-1000)%Z Z.add Z.sub Z.mul Z.div id id id Z.opp
           id toy_gru toy_decoder [3; 3] [1%Z] [[1%Z]; [2%Z]] [1; 1] [[1%Z]; [2%Z]] [[1%Z]]
           [[1%Z]] [[0%Z]] [0%Z] 4).
  - exact Zth.
  - discriminate.
  - reflexivity.
  - reflexivity.
  - reflexivity.
  - reflexivity.
  - intros i Hi. apply elem_of_cons in Hi as [->|Hi]; [lia|].
    apply elem_of_cons in Hi as [->|Hi]; [lia|]. by apply elem_of_nil in Hi.
  - simpl. lia.
Defined.

Section masked.
Import Model.
Context {T : Type}.
Variables (zero one neg_inf : T).
Variables (add sub mul div : T → T → T).
Variables (exp tanh sigmoid : T → T).
Variable dropout : list T → list T.
Variable gru : list T → list (list T) → list T * list (list T).

Lemma attention_alphas att query proj_key value mask :
  length mask = length proj_key →
  ∃ context alphas total,
    attention_forward zero neg_inf add mul div exp tanh att query proj_key value
      (Some mask) = Ok (context, alphas)
    ∧ context = weighted_sum zero add mul alphas value
    ∧ length alphas = length proj_key
    ∧ ∀ j k key, mask !! j = Some k → proj_key !! j = Some key →
        alphas !! j
        = Some (div (exp (if bool_decide (k = 0) then neg_inf
                          else key_score zero add mul tanh att query key)) total).
Proof.
  intros Hlen. unfold attention_forward, masked_fill.
  rewrite bool_decide_eq_true_2 by (by rewrite length_fmap).
  simpl. eexists _, _, _. split_and!; [done|done| |].
  - rewrite softmax_length, length_zip_with, length_fmap. lia.
  - intros j k key Hk Hkey. unfold softmax.
    rewrite !list_lookup_fmap, lookup_zip_with, Hk. simpl.
    rewrite list_lookup_fmap, Hkey. simpl. done.
Qed.

Lemma step_trace_attn d prev_embed encoder_hidden src_mask proj_key encoder_attr
    proj_key_attr hidden context_hidden s :
  step_trace zero neg_inf add mul div exp tanh gru d prev_embed encoder_hidden
    src_mask proj_key encoder_attr proj_key_attr hidden context_hidden = Ok s →
  attention_forward zero neg_inf add mul div exp tanh (attention d) (st_query s)
    proj_key encoder_hidden (Some src_mask) = Ok (st_context s, st_attn_probs s).
Proof.
  unfold step_trace.
  destruct (gru (prev_embed ++ context_hidden) hidden) as [out hidden'].
  destruct (last hidden') as [query|]; simpl; [|done].
  destruct (attention_forward zero neg_inf add mul div exp tanh (attention d) query
              proj_key encoder_hidden (Some src_mask)) as [[context attn]|e] eqn:Hatt;
    simpl; [|done].
  by intros [= <-].
Qed.

Lemma masses_zero id index (vals : list T) :
  (∀ j, index !! j = Some id → vals !! j = Some zero) →
  Forall (λ x, x = zero) (masses id index vals).
Proof.
  revert vals. induction index as [|i index IH]; intros vals Hz; [by destruct vals|].
  destruct vals as [|x vals]; [done|]. simpl.
  destruct (decide (i = id)) as [->|Hne].
  - constructor.
    + specialize (Hz 0 eq_refl). simpl in Hz. by injection Hz.
    + apply IH. intros j Hj. apply (Hz (S j) Hj).
  - apply IH. intros j Hj. apply (Hz (S j) Hj).
Qed.

Lemma foldl_add_zeros (xs : list T) :
  add zero zero = zero → Forall (λ x, x = zero) xs → foldl add zero xs = zero.
Proof.
  intros Hadd. induction 1 as [|x xs -> _ IH]; [done|]. simpl. by rewrite Hadd.
Qed.
End masked.

Section masked_thms.
Import Model.
Context {T : Type}.
Variables (zero one neg_inf : T).
Variables (add sub mul div : T → T → T).
Variables (exp tanh sigmoid : T → T).
Variable dropout : list T → list T.
Variable gru : list T → list (list T) → list T * list (list T).

(** X17.  [Attention.forward] with one mask entry and one value row per
    key: it returns one weight per key; the weight of a key whose mask entry is 0
    is [exp(-inf)] over the normaliser, which is zero when
    [exp(-inf) = 0] and [0 / x = 0]; the weight of every other key is the
    exponential of its score over the same normaliser; and the context
    vector does not depend on the value rows at the masked positions (in
    an arithmetic with [0 * x = 0]). *)
Theorem masked_attention (att : Attention) (query : list T)
    (proj_key value value' : list (list T)) (mask : list nat) :
  exp neg_inf = zero → (∀ x, div zero x = zero) → (∀ x, mul zero x = zero) →
  length mask = length proj_key → length value = length proj_key →
  Forall2 (λ r r', length r = length r') value value' →
  (∀ j k, mask !! j = Some k → k ≠ 0 → value' !! j = value !! j) →
  ∃ context alphas total,
    attention_forward zero neg_inf add mul div exp tanh att query proj_key value
      (Some mask) = Ok (context, alphas)
    ∧ length alphas = length proj_key
    ∧ (∀ j, mask !! j = Some 0 → alphas !! j = Some zero)
    ∧ (∀ j k key, mask !! j = Some k → k ≠ 0 → proj_key !! j = Some key →
         alphas !! j
         = Some (div (exp (key_score zero add mul tanh att query key)) total))
    ∧ attention_forward zero neg_inf add mul div exp tanh att query proj_key value'
        (Some mask) = Ok (context, alphas).
Proof.
  intros Hexp Hdiv Hmul Hlen _ Hrows Hsame.
  destruct (attention_alphas zero neg_inf add mul div exp tanh att query proj_key value
              mask Hlen) as (context & alphas & total & Hatt & Hctx & Hal & Hspec).
  destruct (attention_alphas zero neg_inf add mul div exp tanh att query proj_key value'
              mask Hlen) as (context' & alphas' & total' & Hatt' & Hctx' & Hal' & Hspec').
  assert (alphas' = alphas) as ->.
  { unfold attention_forward in Hatt, Hatt'.
    destruct (masked_fill neg_inf _ (Some mask)) as [sc|e]; [|done].
    simpl in Hatt, Hatt'. congruence. }
  assert (∀ j, mask !! j = Some 0 → alphas !! j = Some zero) as Hzero.
  { intros j Hj.
    destruct (lookup_lt_is_Some_2 proj_key j) as [key Hkey].
    { apply lookup_lt_Some in Hj. lia. }
    rewrite (Hspec j 0 key Hj Hkey). rewrite bool_decide_eq_true_2 by done.
    by rewrite Hexp, Hdiv. }
  exists context, alphas, total. split_and!; [done|done|done| |].
  - intros j k key Hk Hne Hkey. rewrite (Hspec j k key Hk Hkey).
    by rewrite bool_decide_eq_false_2 by done.
  - rewrite Hatt'. do 2 f_equal. subst context context'.
    unfold weighted_sum. f_equal.
    + f_equal. destruct Hrows as [|r r' ? ? Hr _]; [done|]. simpl. by rewrite Hr.
    + apply list_eq. intros j. rewrite !lookup_zip_with.
      destruct (alphas !! j) as [a|] eqn:Ha; [|done]. simpl.
      destruct (lookup_lt_is_Some_2 mask j) as [k Hk].
      { apply lookup_lt_Some in Ha. lia. }
      destruct (decide (k = 0)) as [->|Hne].
      * rewrite (Hzero j Hk) in Ha. injection Ha as <-.
        destruct (value' !! j) as [r'|] eqn:Hr'.
        -- destruct (Forall2_lookup_r _ _ _ _ _ Hrows Hr') as (r & Hr & Hrr).
           rewrite Hr. simpl. f_equal.
           apply list_eq. intros c. rewrite !list_lookup_fmap.
           destruct (r' !! c) as [x'|] eqn:Hx'.
           ++ destruct (lookup_lt_is_Some_2 r c) as [x ->].
              { apply lookup_lt_Some in Hx'. lia. }
              simpl. by rewrite !Hmul.
           ++ rewrite (lookup_ge_None_2 r c); [done|].
              apply lookup_ge_None_1 in Hx'. lia.
        -- rewrite (lookup_ge_None_2 value j); [done|].
           apply lookup_ge_None_1 in Hr'. apply Forall2_length in Hrows. lia.
      * by rewrite (Hsame j k Hk Hne).
Qed.

(** X18.  The decoder does not copy from masked positions: in a decode
    step, an id that stands in the source row at masked positions only
    (as the padding does) gets the copy probability zero, so the output
    at this id is [gate * generation + (1 - gate) * 0]. *)
Theorem masked_ids_not_copied (d : Decoder) (src : list nat) (prev_embed : list T)
    (encoder_hidden : list (list T)) (src_mask : list nat)
    (proj_key encoder_attr proj_key_attr hidden : list (list T))
    (context_hidden : list T) (vocab_size id : nat) :
  exp neg_inf = zero → (∀ x, div zero x = zero) → add zero zero = zero →
  (gru (prev_embed ++ context_hidden) hidden).2 ≠ [] →
  length src_mask = length proj_key →
  length encoder_hidden = length proj_key →
  length encoder_attr = length proj_key_attr →
  length src = length proj_key →
  (∀ i, i ∈ src → i < vocab_size) →
  length (weight (generator d)) ≤ vocab_size →
  id < vocab_size →
  (∀ j, src !! j = Some id → src_mask !! j = Some 0) →
  ∃ s copy_prob mix_prob gp,
    step_trace zero neg_inf add mul div exp tanh gru d prev_embed encoder_hidden
      src_mask proj_key encoder_attr proj_key_attr hidden context_hidden = Ok s
    ∧ copy_dist zero add vocab_size src (st_attn_probs s) = Ok copy_prob
    ∧ decode_step zero one neg_inf add sub mul div exp tanh sigmoid dropout gru d src
        prev_embed encoder_hidden src_mask proj_key encoder_attr proj_key_attr hidden
        context_hidden vocab_size
      = Ok (st_hidden s, st_context_hidden s, mix_prob)
    ∧ (∀ j, src_mask !! j = Some 0 → st_attn_probs s !! j = Some zero)
    ∧ copy_prob !! id = Some zero
    ∧ gen_dist zero add mul div exp dropout d vocab_size s !! id = Some gp
    ∧ mix_prob !! id
      = Some (add (mul (gate zero add mul sigmoid d prev_embed s) gp)
                  (mul (sub one (gate zero add mul sigmoid d prev_embed s)) zero)).
Proof.
  intros Hexp Hdiv Hadd Hgru Hmask _ _ Hsrc Hids Hgen Hid Hmasked.
  destruct (step_trace_total zero neg_inf add mul div exp tanh gru d prev_embed
              encoder_hidden src_mask proj_key encoder_attr proj_key_attr hidden
              context_hidden Hgru Hmask) as (s & Hs & Hattn).
  pose proof (step_trace_attn _ _ _ _ _ _ _ _ _ _ _ _ _ _ _ _ _ _ Hs) as Hatt.
  destruct (attention_alphas zero neg_inf add mul div exp tanh (attention d) (st_query s)
              proj_key encoder_hidden src_mask Hmask)
    as (context & alphas & total & Hatt' & _ & _ & Hspec).
  rewrite Hatt in Hatt'. injection Hatt' as _ <-.
  assert (∀ j, src_mask !! j = Some 0 → st_attn_probs s !! j = Some zero) as Hzero.
  { intros j Hj.
    destruct (lookup_lt_is_Some_2 proj_key j) as [key Hkey].
    { apply lookup_lt_Some in Hj. lia. }
    rewrite (Hspec j 0 key Hj Hkey). rewrite bool_decide_eq_true_2 by done.
    by rewrite Hexp, Hdiv. }
  destruct (copy_dist_spec zero add vocab_size src (st_attn_probs s))
    as (copy_prob & Hcopy & Hclen & Hcspec); [lia|done|].
  set (gen_softmax := softmax zero add div exp
         (linear zero add mul (generator d) (dropout (st_context_hidden s)))).
  assert (length gen_softmax ≤ vocab_size) as Hglen.
  { unfold gen_softmax. rewrite softmax_length.
    etrans; [apply linear_length|done]. }
  destruct (pad_gen_spec zero vocab_size gen_softmax Hglen) as (Hplen & _ & _).
  destruct (mix_spec one add sub mul (gate zero add mul sigmoid d prev_embed s)
              (gen_dist zero add mul div exp dropout d vocab_size s) copy_prob)
    as (mix_prob & Hmix & Hmlen & Hmspec).
  { unfold gen_dist. fold gen_softmax. lia. }
  destruct (lookup_lt_is_Some_2 (gen_dist zero add mul div exp dropout d vocab_size s) id)
    as [gp Hgp].
  { unfold gen_dist. fold gen_softmax. lia. }
  assert (copy_prob !! id = Some zero) as Hcp.
  { rewrite (Hcspec id Hid). f_equal. apply foldl_add_zeros; [done|].
    apply masses_zero. intros j Hj. by apply Hzero, Hmasked. }
  exists s, copy_prob, mix_prob, gp. split_and!; [done|done| |done|done|done|].
  - unfold decode_step. rewrite Hs. simpl. rewrite Hcopy. simpl. by rewrite Hmix.
  - by apply Hmspec.
Qed.
End masked_thms.

Lemma masked_attention_witness :
  ∃ context alphas total,
    Model.attention_forward 0%Z (-1000)%Z Z.add Z.mul Z.div toy_exp id toy_attention
      [1%Z] [[1%Z]; [2%Z]] [[1%Z]; [2%Z]] (Some [1; 0]) = Ok (context, alphas)
    ∧ length alphas = length [[1%Z]; [2%Z]]
    ∧ (∀ j, [1; 0] !! j = Some 0 → alphas !! j = Some 0%Z)
    ∧ (∀ j k key, [1; 0] !! j = Some k → k ≠ 0 → [[1%Z]; [2%Z]] !! j = Some key →
         alphas !! j
         = Some (Z.div (toy_exp (key_score 0%Z Z.add Z.mul id toy_attention [1%Z] key))
                   total))
    ∧ Model.attention_forward 0%Z (-1000)%Z Z.add Z.mul Z.div toy_exp id toy_attention
        [1%Z] [[1%Z]; [2%Z]] [[1%Z]; [7%Z]] (Some [1; 0]) = Ok (context, alphas).
Proof.
  apply (masked_attention 0%Z (-1000)%Z Z.add Z.mul Z.div toy_exp id toy_attention
           [1%Z] [[1%Z]; [2%Z]] [[1%Z]; [2%Z]] [[1%Z]; [7%Z]] [1; 0]).
  - reflexivity.
  - intros x. apply Zdiv_0_l.
  - intros x. apply Z.mul_0_l.
  - reflexivity.
  - reflexivity.
  - repeat constructor.
  - intros [|[|j]] k Hk Hne; simpl in *; [done| |done]. injection Hk as <-. done.
Defined.

Lemma masked_ids_not_copied_witness :
  ∃ s copy_prob mix_prob gp,
    Model.step_trace 0%Z (-1000)%Z Z.add Z.mul Z.div toy_exp id toy_gru toy_decoder [1%Z]
      [[1%Z]; [2%Z]] [1; 0] [[1%Z]; [2%Z]] [[1%Z]] [[1%Z]] [[0%Z]] [0%Z] = Ok s
    ∧ Model.copy_dist 0%Z Z.add 4 [3; 0] (Model.st_attn_probs s) = Ok copy_prob
    ∧ Model.decode_step 0%Z 1%Z (-1000)%Z Z.add Z.sub Z.mul Z.div toy_exp id id id toy_gru
        toy_decoder [3; 0] [1%Z] [[1%Z]; [2%Z]] [1; 0] [[1%Z]; [2%Z]] [[1%Z]] [[1%Z]]
        [[0%Z]] [0%Z] 4
      = Ok (Model.st_hidden s, Model.st_context_hidden s, mix_prob)
    ∧ (∀ j, [1; 0] !! j = Some 0 → Model.st_attn_probs s !! j = Some 0%Z)
    ∧ copy_prob !! 0 = Some 0%Z
    ∧ Model.gen_dist 0%Z Z.add Z.mul Z.div toy_exp id toy_decoder 4 s !! 0 = Some gp
    ∧ mix_prob !! 0
      = Some (Model.gate 0%Z Z.add Z.mul id toy_decoder [1%Z] s * gp
              + (1 - Model.gate 0%Z Z.add Z.mul id toy_decoder [1%Z] s) * 0)%Z.
Proof.
  apply (masked_ids_not_copied 0%Z 1%Z (-1000)%Z Z.add Z.sub Z.mul Z.div toy_exp id id id
           toy_gru toy_decoder [3; 0] [1%Z] [[1%Z]; [2%Z]] [1; 0] [[1%Z]; [2%Z]] [[1%Z]]
           [[1%Z]] [[0%Z]] [0%Z] 4 0).
  - reflexivity.
  - intros x. apply Zdiv_0_l.
  - reflexivity.
  - discriminate.
  - reflexivity.
  - reflexivity.
  - reflexivity.
  - reflexivity.
  - intros i Hi. apply elem_of_cons in Hi as [->|Hi]; [lia|].
    apply elem_of_cons in Hi as [->|Hi]; [lia|]. by apply elem_of_nil in Hi.
  - simpl. lia.
  - lia.
  - intros [|[|j]] Hj; simpl in *; done.
Defined.

Section loss_stop.
Import Model.
Context {T : Type}.
Variable zero : T.
Variable sub : T → T → T.
Variable is_neg_inf : T → bool.

Lemma nll_loop_app rst (o1 o2 : list (list T)) t1 t2 r1 :
  length o1 = length t1 →
  nll_loop sub is_neg_inf rst o1 t1 = Returned r1 →
  nll_loop sub is_neg_inf rst (o1 ++ o2) (t1 ++ t2) = nll_loop sub is_neg_inf r1 o2 t2.
Proof.
  revert rst t1. induction o1 as [|dis o1 IH]; intros rst [|idx t1] Hlen Hret;
    simpl in *; try done.
  - by injection Hret as ->.
  - case_bool_decide; [apply IH; [lia|done]|].
    destruct (dis !! idx) as [x|]; [|done].
    destruct (is_neg_inf x); [done|]. apply IH; [lia|done].
Qed.

(** X19.  [myNLLLoss] stops at the first position it cannot score.  When
    the positions before a position [k] give the partial loss [r1], and
    the gold index at [k] is not PAD: an index outside the row raises
    IndexError, a value of minus infinity prints [error!] and exits, and
    in both cases nothing after [k] is read; with any other value [x] the
    loop goes on from [r1 - x]. *)
Theorem nll_first_offence (output1 output2 : list (list T)) (target1 target2 : list nat)
    (dis : list T) (idx : nat) (r1 : T) :
  length output1 = length target1 →
  myNLLLoss zero sub is_neg_inf output1 target1 = Returned r1 →
  idx ≠ 0 →
  (dis !! idx = None →
     myNLLLoss zero sub is_neg_inf (output1 ++ dis :: output2) (target1 ++ idx :: target2)
     = Raised IndexError)
  ∧ (∀ x, dis !! idx = Some x → is_neg_inf x = true →
       myNLLLoss zero sub is_neg_inf (output1 ++ dis :: output2) (target1 ++ idx :: target2)
       = Exited ["error!"%string])
  ∧ (∀ x, dis !! idx = Some x → is_neg_inf x = false →
       myNLLLoss zero sub is_neg_inf (output1 ++ dis :: output2) (target1 ++ idx :: target2)
       = nll_loop sub is_neg_inf (sub r1 x) output2 target2).
Proof.
  intros Hlen Hret Hidx. unfold myNLLLoss in *.
  rewrite (nll_loop_app zero output1 (dis :: output2) target1 (idx :: target2) r1 Hlen Hret).
  simpl. rewrite bool_decide_eq_false_2 by done.
  split_and!.
  - by intros ->.
  - by intros x -> ->.
  - by intros x -> ->.
Qed.
End loss_stop.

Lemma nll_first_offence_witness :
  ([4; 5; 6]%Z !! 2 = None →
     Model.myNLLLoss 0%Z Z.sub (Z.eqb (-1000)) ([[1; 2; 3]%Z] ++ [4; 5; 6]%Z :: [[7]%Z])
       ([1] ++ 2 :: [9])
     = Model.Raised IndexError)
  ∧ (∀ x, [4; 5; 6]%Z !! 2 = Some x → Z.eqb (-1000) x = true →
       Model.myNLLLoss 0%Z Z.sub (Z.eqb (-1000)) ([[1; 2; 3]%Z] ++ [4; 5; 6]%Z :: [[7]%Z])
         ([1] ++ 2 :: [9])
       = Model.Exited ["error!"%string])
  ∧ (∀ x, [4; 5; 6]%Z !! 2 = Some x → Z.eqb (-1000) x = false →
       Model.myNLLLoss 0%Z Z.sub (Z.eqb (-1000)) ([[1; 2; 3]%Z] ++ [4; 5; 6]%Z :: [[7]%Z])
         ([1] ++ 2 :: [9])
       = Model.nll_loop Z.sub (Z.eqb (-1000)) (-2 - x)%Z [[7]%Z] [9]).
Proof.
  apply (nll_first_offence 0%Z Z.sub (Z.eqb (-1000)) [[1; 2; 3]%Z] [[7]%Z] [1] [9]
           [4; 5; 6]%Z 2 (-2)%Z).
  - reflexivity.
  - reflexivity.
  - lia.
Defined.

Section loop_facts.
Context {T : Type}.
Variables (zero one neg_inf : T).
Variables (add sub mul div : T → T → T).
Variables (exp tanh sigmoid : T → T).
Variable dropout : list T → list T.
Variable gru : list T → list (list T) → list T * list (list T).
Variable argmax : list T → nat.

Lemma decode_step_total (d : Model.Decoder) (enc : Encoded T) prev_embed hidden
    context_hidden :
  (gru (prev_embed ++ context_hidden) hidden).2 ≠ [] →
  encoded_ok enc →
  length (Model.weight (Model.generator d)) ≤ enc_vocab_size enc →
  ∃ hidden' context_hidden' word_prob,
    Model.decode_step zero one neg_inf add sub mul div exp tanh sigmoid dropout gru d
      (enc_src enc) prev_embed (enc_hidden enc) (enc_mask enc) (enc_proj_key enc)
      (enc_attr enc) (enc_proj_key_attr enc) hidden context_hidden (enc_vocab_size enc)
    = Ok (hidden', context_hidden', word_prob)
    ∧ length word_prob = enc_vocab_size enc.
Proof.
  intros Hgru (Hmask & _ & _ & Hsrc & Hids) Hgen.
  destruct (step_trace_total zero neg_inf add mul div exp tanh gru d prev_embed
              (enc_hidden enc) (enc_mask enc) (enc_proj_key enc) (enc_attr enc)
              (enc_proj_key_attr enc) hidden context_hidden Hgru Hmask)
    as (s & Hs & Hattn).
  destruct (copy_dist_spec zero add (enc_vocab_size enc) (enc_src enc)
              (Model.st_attn_probs s))
    as (copy_prob & Hcopy & Hclen & _); [lia|done|].
  set (gen_softmax := Model.softmax zero add div exp
         (Model.linear zero add mul (Model.generator d)
            (dropout (Model.st_context_hidden s)))).
  assert (length gen_softmax ≤ enc_vocab_size enc) as Hglen.
  { unfold gen_softmax. rewrite softmax_length.
    etrans; [apply linear_length|done]. }
  destruct (pad_gen_spec zero (enc_vocab_size enc) gen_softmax Hglen) as (Hplen & _ & _).
  destruct (mix_spec one add sub mul (Model.gate zero add mul sigmoid d prev_embed s)
              (Model.gen_dist zero add mul div exp dropout d (enc_vocab_size enc) s)
              copy_prob)
    as (mix_prob & Hmix & Hmlen & _).
  { unfold Model.gen_dist. fold gen_softmax. lia. }
  eexists _, _, mix_prob. split.
  - unfold Model.decode_step. rewrite Hs. simpl. rewrite Hcopy. simpl. by rewrite Hmix.
  - rewrite Hmlen. unfold Model.gen_dist. by fold gen_softmax.
Qed.

Lemma embed_row_total (table : list (list T)) ids :
  (∀ i, i ∈ ids → i < length table) →
  ∃ rows, embed_row table ids = Ok rows ∧ length rows = length ids.
Proof.
  induction ids as [|i ids IH]; intros Hids; simpl; [by eexists|].
  destruct (lookup_lt_is_Some_2 table i) as [e He]; [apply Hids; by left|].
  unfold embedding at 1. rewrite (getindex_Some _ _ _ He). simpl.
  destruct IH as (rows & -> & Hl); [intros j Hj; apply Hids; by right|].
  simpl. eexists. split; [done|]. simpl. by rewrite Hl.
Qed.

Lemma feed_idx_lt embed_num word_prob :
  4 ≤ embed_num → feed_idx argmax embed_num word_prob < embed_num.
Proof.
  intros Hn. unfold feed_idx. case_bool_decide; [unfold UNK_IDX|]; lia.
Qed.

Lemma prev_embed_total test (table : list (list T)) embed_num trg_embed outs i :
  length table = embed_num → 4 ≤ embed_num →
  (0 < i → outs ≠ []) →
  (test = false → i ≤ length trg_embed) →
  ∃ e, prev_embed_of argmax test table embed_num trg_embed outs i = Ok e.
Proof.
  intros Htab Hn Houts Htrg. destruct i as [|i']; simpl.
  - destruct (lookup_lt_is_Some_2 table SOS_IDX) as [e He]; [unfold SOS_IDX; lia|].
    exists e. unfold embedding. by rewrite (getindex_Some _ _ _ He).
  - destruct test.
    + destruct (last outs) as [word_prob|] eqn:Hlast.
      * destruct (lookup_lt_is_Some_2 table (feed_idx argmax embed_num word_prob))
          as [e He]; [rewrite Htab; by apply feed_idx_lt|].
        exists e. unfold embedding. by rewrite (getindex_Some _ _ _ He).
      * apply last_None in Hlast. destruct Houts; [lia|done].
    + destruct (lookup_lt_is_Some_2 trg_embed i') as [e He]; [specialize (Htrg eq_refl); lia|].
      exists e. by rewrite (getindex_Some _ _ _ He).
Qed.

Lemma unroll_total (d : Model.Decoder) test (table : list (list T)) embed_num
    (enc : Encoded T) trg_embed n i hidden context_hidden outs :
  (∀ x h, (gru x h).2 ≠ []) →
  encoded_ok enc →
  length (Model.weight (Model.generator d)) ≤ enc_vocab_size enc →
  length table = embed_num → 4 ≤ embed_num →
  (0 < i → outs ≠ []) →
  (test = false → i + n ≤ S (length trg_embed)) →
  ∃ new,
    unroll zero one neg_inf add sub mul div exp tanh sigmoid dropout gru argmax d test
      table embed_num enc trg_embed n i hidden context_hidden outs = Ok (outs ++ new)
    ∧ length new = n
    ∧ Forall (λ o, length o = enc_vocab_size enc) new.
Proof.
  intros Hgru Henc Hgen Htab Hn.
  revert i hidden context_hidden outs.
  induction n as [|n IH]; intros i hidden context_hidden outs Houts Htrg; simpl.
  - exists []. by rewrite app_nil_r.
  - destruct (prev_embed_total test table embed_num trg_embed outs i Htab Hn Houts)
      as [e ->]; [intros Ht; specialize (Htrg Ht); lia|].
    simpl.
    destruct (decode_step_total d enc e hidden context_hidden (Hgru _ _) Henc Hgen)
      as (h' & ch' & wp & -> & Hwp).
    simpl.
    destruct (IH (S i) h' ch' (outs ++ [wp])) as (new & -> & Hl & Hall).
    { intros _ Hnil. by apply app_eq_nil in Hnil as [_ ?]. }
    { intros Ht. specialize (Htrg Ht). lia. }
    exists (wp :: new). split_and!.
    + by rewrite <- app_assoc.
    + simpl. by rewrite Hl.
    + by constructor.
Qed.
End loop_facts.

Section loop_thm.
Context {T : Type}.
Variables (zero one neg_inf : T).
Variables (add sub mul div : T → T → T).
Variables (exp tanh sigmoid : T → T).
Variable dropout : list T → list T.
Variable gru : list T → list (list T) → list T * list (list T).
Variable argmax : list T → nat.

(** X20.  The decoder loop of [forward] returns one distribution per
    step.  With a decoder of at least one layer, inputs that fit
    together, an embedding table of [embed_num >= 4] rows, target ids
    that are rows of the table and [max_len >= 1]: when predictions are
    fed back ([test]) the loop returns [max_len] distributions of
    [vocab_size] entries, whatever [argmax] selects, because an index
    from [embed_num] on is replaced by UNK before the embedding lookup;
    when the targets are fed it does so provided the target row has at
    least [max_len - 1] entries.  With [max_len = 0] the final
    [torch.cat] raises RuntimeError. *)
Theorem decoder_loop_returns (d : Model.Decoder) (test : bool) (table : list (list T))
    (embed_num max_len : nat) (enc : Encoded T) (trg_ : list nat)
    (hidden : list (list T)) :
  (∀ x h, (gru x h).2 ≠ []) →
  hidden ≠ [] →
  encoded_ok enc →
  length (Model.weight (Model.generator d)) ≤ enc_vocab_size enc →
  length table = embed_num → 4 ≤ embed_num →
  (∀ i, i ∈ trg_ → i < embed_num) →
  (test = false → max_len ≤ S (length trg_)) →
  (0 < max_len →
   ∃ outs,
     decoder_loop zero one neg_inf add sub mul div exp tanh sigmoid dropout gru argmax d
       test table embed_num max_len enc trg_ hidden = Ok outs
     ∧ length outs = max_len
     ∧ Forall (λ o, length o = enc_vocab_size enc) outs)
  ∧ (max_len = 0 →
     decoder_loop zero one neg_inf add sub mul div exp tanh sigmoid dropout gru argmax d
       test table embed_num max_len enc trg_ hidden = Raise RuntimeError).
Proof.
  intros Hgru Hhid Henc Hgen Htab Hn Htrg Hlen.
  destruct (embed_row_total table trg_) as (trg_embed & Hrow & Hrl).
  { intros i Hi. rewrite Htab. by apply Htrg. }
  destruct (last hidden) as [h0|] eqn:Hlast; [|by apply last_None in Hlast].
  unfold decoder_loop. rewrite Hrow, Hlast. simpl.
  split.
  - intros Hpos.
    destruct (unroll_total zero one neg_inf add sub mul div exp tanh sigmoid dropout gru
                argmax d test table embed_num enc trg_embed max_len 0 hidden h0 []
                Hgru Henc Hgen Htab Hn) as (new & Hun & Hl & Hall).
    { lia. }
    { intros Ht. specialize (Hlen Ht). simpl. lia. }
    simpl in Hun. rewrite Hun. simpl.
    destruct new as [|o new]; [simpl in Hl; lia|].
    exists (o :: new). done.
  - intros ->. done.
Qed.
End loop_thm.

Lemma decoder_loop_returns_witness :
  (0 < 2 →
   ∃ outs,
     decoder_loop 0%Z 1%Z (-1000)%Z Z.add Z.sub Z.mul Z.div id id id id toy_gru (λ _, 5)
       toy_decoder true toy_table 4 2 toy_encoded [2] [[0%Z]] = Ok outs
     ∧ length outs = 2
     ∧ Forall (λ o, length o = enc_vocab_size toy_encoded) outs)
  ∧ (2 = 0 →
     decoder_loop 0%Z 1%Z (-1000)%Z Z.add Z.sub Z.mul Z.div id id id id toy_gru (λ _, 5)
       toy_decoder true toy_table 4 2 toy_encoded [2] [[0%Z]] = Raise RuntimeError).
Proof.
  apply (decoder_loop_returns 0%Z 1%Z (-1000)%Z Z.add Z.sub Z.mul Z.div id id id id toy_gru
           (λ _, 5) toy_decoder true toy_table 4 2 toy_encoded [2] [[0%Z]]).
  - discriminate.
  - discriminate.
  - unfold encoded_ok. simpl. split_and!; [reflexivity..|].
    intros i Hi. apply elem_of_cons in Hi as [->|Hi]; [lia|].
    apply elem_of_cons in Hi as [->|Hi]; [lia|]. by apply elem_of_nil in Hi.
  - simpl. lia.
  - reflexivity.
  - lia.
  - intros i Hi. apply elem_of_cons in Hi as [->|Hi]; [lia|]. by apply elem_of_nil in Hi.
  - discriminate.
Defined.

Section mem_shapes.
Import MemVocab.
Context {E : Type}.
Implicit Types v : @Vocab E.

Lemma mem_word_id_lt v n w :
  (∀ w i, word2id v !! w = Some i → i < n) → 3 < n → word_id v w < n.
Proof.
  intros Hb Hn. unfold word_id. destruct (word2id v !! w) as [i|] eqn:Hi.
  - by eapply Hb.
  - unfold UNK_IDX. lia.
Qed.

Lemma pad_to_id_row v n m (toks : list string) :
  (∀ w i, word2id v !! w = Some i → i < n) → 3 < n →
  length toks ≤ m → id_row m n (pad_to m (word_id v <$> toks)).
Proof.
  intros Hb Hn Hlen. split.
  - apply pad_to_length. by rewrite length_fmap.
  - apply Forall_forall. intros i [Hi| ->]%elem_of_pad_to.
    + apply list_elem_of_fmap in Hi as (w & -> & _). by apply mem_word_id_lt.
    + unfold PAD_IDX. lia.
Qed.

Lemma text_row_id_row v n m toks :
  (∀ w i, word2id v !! w = Some i → i < n) → 3 < n → id_row m n (text_row v m toks).
Proof.
  intros Hb Hn. unfold text_row. apply pad_to_id_row; [done|done|].
  rewrite length_take. lia.
Qed.

Lemma trg_row_id_row v n m s :
  (∀ w i, word2id v !! w = Some i → i < n) → 3 < n → id_row m n (trg_row v m s).
Proof.
  intros Hb Hn. unfold trg_row, trg_tokens. apply pad_to_id_row; [done|done|].
  rewrite length_take. lia.
Qed.

Lemma rows_wf_nil v n : rows_wf v n rows_nil.
Proof. unfold rows_wf. simpl. split_and!; constructor. Qed.

Lemma rows_wf_app v n a r : rows_wf v n a → rows_wf v n r → rows_wf v n (rows_app a r).
Proof.
  intros (? & ? & ?) (? & ? & ?). unfold rows_wf. simpl.
  split_and!; by apply Forall_app.
Qed.

Lemma filler_wf v n k : 3 < n → rows_wf v n (filler v k).
Proof.
  intros Hn. unfold rows_wf, filler. simpl. split_and!; apply Forall_replicate.
  - split; [done|]. repeat constructor.
  - split; [by rewrite length_replicate|]. apply Forall_replicate. unfold PAD_IDX. lia.
  - split; [by rewrite length_replicate|]. apply Forall_replicate. unfold PAD_IDX. lia.
Qed.


Lemma piece_rows_wf v n td user product p rows :
  (∀ w i, word2id v !! w = Some i → i < n) → 3 < n →
  piece_rows v td user product p = Ok rows → rows_wf v n rows.
Proof.
  intros Hb Hn (gold & k & ex & _ & _ & _ & _ & ->)%piece_rows_inv.
  unfold rows_wf. simpl. split_and!.
  - constructor; [|constructor]. split; [done|].
    repeat (constructor; [case_bool_decide; lia|]). constructor.
  - constructor; [|constructor]. by apply text_row_id_row.
  - constructor; [|constructor]. by apply text_row_id_row.
Qed.

Lemma pieces_rows_wf v n td user product ps rows :
  (∀ w i, word2id v !! w = Some i → i < n) → 3 < n →
  pieces_rows v td user product ps = Ok rows → rows_wf v n rows.
Proof.
  intros Hb Hn. revert rows. induction ps as [|p ps IH]; intros rows; simpl.
  - intros [= <-]. apply rows_wf_nil.
  - intros (a & Ha & (rest & Hrest & [= <-])%bind_Ok)%bind_Ok.
    apply rows_wf_app; [by eapply piece_rows_wf|by apply IH].
Qed.

Lemma mem_example_shape v n b td i blk :
  (∀ w i, word2id v !! w = Some i → i < n) → 3 < n →
  mem_example v b td i = Ok blk →
  rows_wf v n blk ∧ rows_len (mem_size (args v)) blk.
Proof.
  intros Hb Hn
    (user & product & pr & ur & kept & rows & _ & _ & _ & _ & Hkept & Hrows & ->)%mem_example_inv.
  split.
  - apply rows_wf_app; [by eapply pieces_rows_wf|by apply filler_wf].
  - destruct (retained_spec _ _ _ Hkept) as (_ & _ & _ & _ & Hlen & _).
    pose proof (pieces_rows_len _ _ _ _ _ _ Hrows) as Hkl. rewrite length_fmap in Hkl.
    replace (mem_size (args v))
      with (length kept + (mem_size (args v) - length kept)) at 1 by lia.
    apply rows_len_app; [done|apply filler_len].
Qed.

Lemma mem_examples_shape v n b td idx rows :
  (∀ w i, word2id v !! w = Some i → i < n) → 3 < n →
  mem_examples v b td idx = Ok rows →
  rows_wf v n rows ∧ rows_len (length idx * mem_size (args v)) rows.
Proof.
  intros Hb Hn. revert rows. induction idx as [|i idx IH]; intros rows; simpl.
  - intros [= <-]. split; [apply rows_wf_nil|done].
  - intros (a & Ha & (rest & Hrest & [= <-])%bind_Ok)%bind_Ok.
    destruct (mem_example_shape _ _ _ _ _ _ Hb Hn Ha) as [Hwa Hla].
    destruct (IH _ Hrest) as [Hwr Hlr].
    split; [by apply rows_wf_app|by apply rows_len_app].
Qed.

Lemma mem_sorted_reviews_head_max b first r :
  sorted_reviews b !! 0 = Some first → r ∈ sorted_reviews b →
  length (split r) ≤ length (split first).
Proof.
  unfold sorted_reviews, batch_order. intros Hfirst Hr.
  destruct (sort_desc (src_key (paired_reviews b)) (seq 0 (length (summary b))))
    as [|i0 rest] eqn:Hsort; [done|].
  simpl in Hfirst. injection Hfirst as <-.
  apply list_elem_of_fmap in Hr as (i & -> & Hi).
  rewrite <- Hsort in Hi. rewrite sort_desc_perm in Hi.
  pose proof (sort_desc_head_max _ _ _ _ _ Hsort Hi) as Hle.
  unfold src_key in Hle. lia.
Qed.
End mem_shapes.

(** X21.  The tensors of [make_tensors] are rectangular and hold valid
    ids.  When every id of [word2id] is below [n] (with [n > 3]) and the
    call returns: [src] and [trg] have one row per summary of the batch,
    the four memory lists have [mem_size] rows per summary; every row
    of [src] has the token count of the first (longest) review as its
    length, every row of [trg] and [mem_sum] the length [sum_max_len],
    every row of [mem_review] the length [review_max_len], every row of
    [mem_up] two flags that are 0 or 1; and every id in [src], [trg],
    [mem_review] and [mem_sum] is below [n]. *)
Theorem mem_tensor_shapes {E : Type} (v : @MemVocab.Vocab E) (b : MemVocab.Batch)
    (train_data : list MemVocab.Example) (t : MemVocab.Tensors) (n : nat) :
  (∀ w i, MemVocab.word2id v !! w = Some i → i < n) → 3 < n →
  MemVocab.make_tensors v b train_data = Ok t →
  ∃ first,
    MemVocab.src_text t !! 0 = Some first
    ∧ (∀ r, r ∈ MemVocab.src_text t → length (split r) ≤ length (split first))
    ∧ length (MemVocab.src t) = length (MemVocab.summary b)
    ∧ length (MemVocab.trg t) = length (MemVocab.summary b)
    ∧ rows_len (length (MemVocab.summary b) * MemVocab.mem_size (MemVocab.args v))
        (MemVocab.mem t)
    ∧ Forall (id_row (length (split first)) n) (MemVocab.src t)
    ∧ Forall (id_row (MemVocab.sum_max_len (MemVocab.args v)) n) (MemVocab.trg t)
    ∧ rows_wf v n (MemVocab.mem t).
Proof.
  intros Hb Hn (first & rows & Hfirst & Hrows & ->)%make_tensors_inv. simpl.
  destruct (mem_examples_shape _ _ _ _ _ _ Hb Hn Hrows) as [Hwf Hlen].
  assert (length (MemVocab.batch_order b) = length (MemVocab.summary b)) as Hbo.
  { by rewrite mem_batch_order_perm, length_seq. }
  rewrite Hbo in Hlen.
  exists first. split_and!; [done| | | |done| | |done].
  - intros r Hr. by eapply mem_sorted_reviews_head_max.
  - unfold MemVocab.sorted_reviews. by rewrite !length_fmap.
  - unfold MemVocab.sorted_summaries. by rewrite !length_fmap.
  - apply Forall_fmap, Forall_forall. intros r _. by apply text_row_id_row.
  - apply Forall_fmap, Forall_forall. intros s _. by apply trg_row_id_row.
Qed.

Lemma mem_tensor_shapes_witness :
  ∃ first,
    MemVocab.src_text mem_tensors !! 0 = Some first
    ∧ (∀ r, r ∈ MemVocab.src_text mem_tensors → length (split r) ≤ length (split first))
    ∧ length (MemVocab.src mem_tensors) = length (MemVocab.summary mem_batch)
    ∧ length (MemVocab.trg mem_tensors) = length (MemVocab.summary mem_batch)
    ∧ rows_len (length (MemVocab.summary mem_batch)
                * MemVocab.mem_size (MemVocab.args mem_vocab))
        (MemVocab.mem mem_tensors)
    ∧ Forall (id_row (length (split first)) 6) (MemVocab.src mem_tensors)
    ∧ Forall (id_row (MemVocab.sum_max_len (MemVocab.args mem_vocab)) 6)
        (MemVocab.trg mem_tensors)
    ∧ rows_wf mem_vocab 6 (MemVocab.mem mem_tensors).
Proof.
  apply (mem_tensor_shapes mem_vocab mem_batch mem_corpus mem_tensors 6).
  - intros w i Hi. apply elem_of_list_to_map_2 in Hi.
    unfold PAD_IDX, SOS_IDX, EOS_IDX, UNK_IDX in Hi.
    repeat (apply elem_of_cons in Hi as [[= -> ->]|Hi]; [lia|]).
    by apply elem_of_nil in Hi.
  - lia.
  - apply mem_tensors_ok.
Defined.

Lemma concat_lookup_block {A} (ls : list (list A)) m p l j :
  Forall (λ l, length l = m) ls → ls !! p = Some l → j < m →
  concat ls !! (p * m + j) = l !! j.
Proof.
  intros Hall. revert p. induction Hall as [|x ls Hx Hall IH]; intros p Hp Hj; [done|].
  destruct p as [|p]; simpl in *.
  - injection Hp as ->. apply lookup_app_l. lia.
  - rewrite lookup_app_r by lia.
    replace (m + p * m + j - length x) with (p * m + j) by lia. by apply IH.
Qed.

Section mem_layout.
Import MemVocab.
Context {E : Type}.
Implicit Types v : @Vocab E.

Lemma rows_concat (blocks : list MemRows) :
  mem_up (foldr rows_app rows_nil blocks) = concat (mem_up <$> blocks)
  ∧ mem_review (foldr rows_app rows_nil blocks) = concat (mem_review <$> blocks)
  ∧ mem_sum (foldr rows_app rows_nil blocks) = concat (mem_sum <$> blocks)
  ∧ mem_gold (foldr rows_app rows_nil blocks) = concat (mem_gold <$> blocks).
Proof.
  induction blocks as [|blk blocks (IH1 & IH2 & IH3 & IH4)]; simpl; [done|].
  by rewrite IH1, IH2, IH3, IH4.
Qed.

End mem_layout.

(** X22.  Where [make_tensors] puts the memory of an example.  The rows
    [p * mem_size .. p * mem_size + mem_size - 1] of the four memory
    lists belong to the example at position [p] of the sorted batch.
    Row [p * mem_size + j] is written from the [j]-th retained entry
    when there is one: the gold label is the entry's [p[2]], the flags
    say whether the corpus example [train_data[p[0]]] has the user and
    the product of the current example (at least one flag is 1), and
    the id rows are the ids of the first [review_max_len] review tokens
    and of the first [sum_max_len] summary tokens of that corpus
    example, padded with PAD; no EOS is appended to a memory summary.
    Otherwise the row is the placeholder: flags [[0, 0]], label 0, PAD
    rows. *)
Theorem mem_row_layout {E : Type} (v : @MemVocab.Vocab E) (b : MemVocab.Batch)
    (train_data : list MemVocab.Example) (t : MemVocab.Tensors) (p i j : nat) :
  MemVocab.make_tensors v b train_data = Ok t →
  MemVocab.batch_order b !! p = Some i → j < MemVocab.mem_size (MemVocab.args v) →
  ∃ user product pr ur kept,
    MemVocab.userID b !! i = Some user ∧ MemVocab.productID b !! i = Some product
    ∧ MemVocab.product_review b !! i = Some pr ∧ MemVocab.user_review b !! i = Some ur
    ∧ MemVocab.retained (MemVocab.mem_size (MemVocab.args v)) (pr ++ ur) = Ok kept
    ∧ let r := p * MemVocab.mem_size (MemVocab.args v) + j in
      match kept !! j with
      | Some (_, piece) =>
          ∃ gold k ex,
            getindexZ piece 2 = Ok gold ∧ getindexZ piece 0 = Ok k
            ∧ getindexZ train_data k = Ok ex
            ∧ (MemVocab.ex_userID ex = user ∨ MemVocab.ex_productID ex = product)
            ∧ MemVocab.mem_gold (MemVocab.mem t) !! r = Some gold
            ∧ MemVocab.mem_up (MemVocab.mem t) !! r
              = Some [ if bool_decide (MemVocab.ex_userID ex = user) then 1 else 0;
                       if bool_decide (MemVocab.ex_productID ex = product) then 1 else 0 ]
            ∧ MemVocab.mem_up (MemVocab.mem t) !! r ≠ Some [0; 0]
            ∧ MemVocab.mem_review (MemVocab.mem t) !! r
              = Some (pad_to (MemVocab.review_max_len (MemVocab.args v))
                        (MemVocab.word_id v
                           <$> take (MemVocab.review_max_len (MemVocab.args v))
                                 (split (MemVocab.ex_reviewText ex))))
            ∧ MemVocab.mem_sum (MemVocab.mem t) !! r
              = Some (pad_to (MemVocab.sum_max_len (MemVocab.args v))
                        (MemVocab.word_id v
                           <$> take (MemVocab.sum_max_len (MemVocab.args v))
                                 (split (MemVocab.ex_summary ex))))
      | None =>
          MemVocab.mem_gold (MemVocab.mem t) !! r = Some 0%Z
          ∧ MemVocab.mem_up (MemVocab.mem t) !! r = Some [0; 0]
          ∧ MemVocab.mem_review (MemVocab.mem t) !! r
            = Some (replicate (MemVocab.review_max_len (MemVocab.args v)) PAD_IDX)
          ∧ MemVocab.mem_sum (MemVocab.mem t) !! r
            = Some (replicate (MemVocab.sum_max_len (MemVocab.args v)) PAD_IDX)
      end.
Proof.
  intros (first & rows & _ & Hrows & ->)%make_tensors_inv Hp Hj. simpl.
  destruct (mem_examples_blocks _ _ _ _ _ Hrows) as (blocks & -> & Hall).
  destruct (Forall2_lookup_l _ _ _ _ _ Hall Hp) as (blk & Hblk & Hex).
  pose proof Hex
    as (user & product & pr & ur & kept & krows & Hu & Hpr & Hprv & Hur & Hkept & Hk & Heq)%mem_example_inv.
  exists user, product, pr, ur, kept. split_and!; [done..|].
  set (m := MemVocab.mem_size (MemVocab.args v)) in *.
  assert (Forall (rows_len m) blocks) as Hlens.
  { apply Forall_forall. intros x Hx. apply list_elem_of_lookup_1 in Hx as [q Hq].
    destruct (Forall2_lookup_r _ _ _ _ _ Hall Hq) as (i' & _ & Hex').
    pose proof Hex'
      as (? & ? & pr' & ur' & kept' & krows' & _ & _ & _ & _ & Hkept' & Hk' & ->)%mem_example_inv.
    destruct (retained_spec _ _ _ Hkept') as (_ & _ & _ & _ & Hlen' & _).
    pose proof (pieces_rows_len _ _ _ _ _ _ Hk') as Hkl. rewrite length_fmap in Hkl.
    replace m with (length kept' + (m - length kept')) at 1 by (unfold m in *; lia).
    apply rows_len_app; [done|apply filler_len]. }
  destruct (rows_concat blocks) as (-> & -> & -> & ->).
  assert (∀ {A} (f : MemVocab.MemRows → list A),
            (∀ x, rows_len m x → length (f x) = m) →
            concat (f <$> blocks) !! (p * m + j) = f blk !! j) as Hget.
  { intros A f Hf. apply concat_lookup_block; [|by rewrite list_lookup_fmap, Hblk|done].
    apply Forall_fmap. eapply Forall_impl; [exact Hlens|]. intros x Hx. by apply Hf. }
  cbv zeta.
  rewrite (Hget _ MemVocab.mem_gold) by (by intros x (_ & _ & _ & ?)).
  rewrite (Hget _ MemVocab.mem_up) by (by intros x (? & _ & _ & _)).
  rewrite (Hget _ MemVocab.mem_review) by (by intros x (_ & ? & _ & _)).
  rewrite (Hget _ MemVocab.mem_sum) by (by intros x (_ & _ & ? & _)).
  subst blk. simpl.
  pose proof (pieces_rows_len _ _ _ _ _ _ Hk) as (Hl1 & Hl2 & Hl3 & Hl4).
  rewrite length_fmap in Hl1, Hl2, Hl3, Hl4.
  destruct (kept !! j) as [[key piece]|] eqn:Hkj.
  - assert (kept.*2 !! j = Some piece) as Hpj.
    { rewrite list_lookup_fmap. exact (f_equal (fmap snd) Hkj). }
    destruct (pieces_rows_lookup _ _ _ _ _ _ _ _ Hk Hpj)
      as (gold & k & ex & Hg & Hk0 & Hexk & Hown & Hgold & Hup & Hrev & Hsum).
    apply lookup_lt_Some in Hkj.
    exists gold, k, ex.
    unfold MemVocab.MemPiece in *.
    rewrite (lookup_app_l (MemVocab.mem_gold krows)) by lia.
    rewrite (lookup_app_l (MemVocab.mem_up krows)) by lia.
    rewrite (lookup_app_l (MemVocab.mem_review krows)) by lia.
    rewrite (lookup_app_l (MemVocab.mem_sum krows)) by lia.
    split_and!; [done|done|done|done|done|done| |done|done].
    rewrite Hup. intros [= H1 H2].
    destruct Hown as [Hown|Hown].
    + by rewrite bool_decide_eq_true_2 in H1.
    + by rewrite bool_decide_eq_true_2 in H2.
  - apply lookup_ge_None_1 in Hkj. unfold MemVocab.MemPiece in *.
    rewrite !lookup_app_r by lia. rewrite Hl1, Hl2, Hl3, Hl4.
    rewrite !lookup_replicate_2 by (unfold m in *; lia). done.
Qed.

Lemma mem_row_layout_witness :
  ∃ user product pr ur kept,
    MemVocab.userID mem_batch !! 0 = Some user
    ∧ MemVocab.productID mem_batch !! 0 = Some product
    ∧ MemVocab.product_review mem_batch !! 0 = Some pr
    ∧ MemVocab.user_review mem_batch !! 0 = Some ur
    ∧ MemVocab.retained (MemVocab.mem_size (MemVocab.args mem_vocab)) (pr ++ ur) = Ok kept
    ∧ let r := 1 * MemVocab.mem_size (MemVocab.args mem_vocab) + 1 in
      match kept !! 1 with
      | Some (_, piece) =>
          ∃ gold k ex,
            getindexZ piece 2 = Ok gold ∧ getindexZ piece 0 = Ok k
            ∧ getindexZ mem_corpus k = Ok ex
            ∧ (MemVocab.ex_userID ex = user ∨ MemVocab.ex_productID ex = product)
            ∧ MemVocab.mem_gold (MemVocab.mem mem_tensors) !! r = Some gold
            ∧ MemVocab.mem_up (MemVocab.mem mem_tensors) !! r
              = Some [ if bool_decide (MemVocab.ex_userID ex = user) then 1 else 0;
                       if bool_decide (MemVocab.ex_productID ex = product) then 1 else 0 ]
            ∧ MemVocab.mem_up (MemVocab.mem mem_tensors) !! r ≠ Some [0; 0]
            ∧ MemVocab.mem_review (MemVocab.mem mem_tensors) !! r
              = Some (pad_to (MemVocab.review_max_len (MemVocab.args mem_vocab))
                        (MemVocab.word_id mem_vocab
                           <$> take (MemVocab.review_max_len (MemVocab.args mem_vocab))
                                 (split (MemVocab.ex_reviewText ex))))
            ∧ MemVocab.mem_sum (MemVocab.mem mem_tensors) !! r
              = Some (pad_to (MemVocab.sum_max_len (MemVocab.args mem_vocab))
                        (MemVocab.word_id mem_vocab
                           <$> take (MemVocab.sum_max_len (MemVocab.args mem_vocab))
                                 (split (MemVocab.ex_summary ex))))
      | None =>
          MemVocab.mem_gold (MemVocab.mem mem_tensors) !! r = Some 0%Z
          ∧ MemVocab.mem_up (MemVocab.mem mem_tensors) !! r = Some [0; 0]
          ∧ MemVocab.mem_review (MemVocab.mem mem_tensors) !! r
            = Some (replicate (MemVocab.review_max_len (MemVocab.args mem_vocab)) PAD_IDX)
          ∧ MemVocab.mem_sum (MemVocab.mem mem_tensors) !! r
            = Some (replicate (MemVocab.sum_max_len (MemVocab.args mem_vocab)) PAD_IDX)
      end.
Proof.
  apply (mem_row_layout mem_vocab mem_batch mem_corpus mem_tensors 1 0 1).
  - apply mem_tensors_ok.
  - reflexivity.
  - simpl. lia.
Defined.

Lemma bind_Raise {A B} (m : result A) (f : A → result B) e :
  m ≫= f = Raise e → m = Raise e ∨ ∃ a, m = Ok a ∧ f a = Raise e.
Proof. destruct m as [a|e']; simpl; [right; by exists a|intros [= ->]; by left]. Qed.

Lemma index_or_assertion_bind {A B} (m : result A) (f : A → result B) :
  index_or_assertion m → (∀ a, m = Ok a → index_or_assertion (f a)) →
  index_or_assertion (m ≫= f).
Proof.
  intros Hm Hf e [He|(a & Ha & He)]%bind_Raise; [by apply Hm|by eapply Hf].
Qed.

Lemma getindex_exn {A} (l : list A) i : index_or_assertion (getindex l i).
Proof. intros e. unfold getindex. destruct (l !! i); [done|]. intros [= <-]. by left. Qed.

Lemma getindexZ_exn {A} (l : list A) z : index_or_assertion (getindexZ l z).
Proof.
  intros e. unfold getindexZ. repeat case_bool_decide; try apply getindex_exn.
  intros [= <-]. by left.
Qed.

Lemma Ok_exn {A} (a : A) : index_or_assertion (Ok a).
Proof. by intros e. Qed.

Section mem_failures.
Import MemVocab.
Context {E : Type}.
Implicit Types v : @Vocab E.

Lemma keyed_exn ps : index_or_assertion (keyed ps).
Proof.
  induction ps as [|p ps IH]; simpl; [apply Ok_exn|].
  apply index_or_assertion_bind; [apply getindexZ_exn|]. intros k _.
  apply index_or_assertion_bind; [done|]. intros rest _. apply Ok_exn.
Qed.

Lemma retained_exn cap ps : index_or_assertion (retained cap ps).
Proof.
  unfold retained. apply index_or_assertion_bind; [apply keyed_exn|].
  intros ks _. apply Ok_exn.
Qed.

Lemma piece_rows_exn v td user product p :
  index_or_assertion (piece_rows v td user product p).
Proof.
  unfold piece_rows.
  apply index_or_assertion_bind; [apply getindexZ_exn|]. intros gold _.
  apply index_or_assertion_bind; [apply getindexZ_exn|]. intros k _.
  apply index_or_assertion_bind; [apply getindexZ_exn|]. intros ex _.
  case_bool_decide; [apply Ok_exn|]. intros e [= <-]. by right.
Qed.

Lemma pieces_rows_exn v td user product ps :
  index_or_assertion (pieces_rows v td user product ps).
Proof.
  induction ps as [|p ps IH]; simpl; [apply Ok_exn|].
  apply index_or_assertion_bind; [apply piece_rows_exn|]. intros a _.
  apply index_or_assertion_bind; [done|]. intros rest _. apply Ok_exn.
Qed.

Lemma mem_example_exn v b td i : index_or_assertion (mem_example v b td i).
Proof.
  unfold mem_example.
  apply index_or_assertion_bind; [apply getindex_exn|]. intros user _.
  apply index_or_assertion_bind; [apply getindex_exn|]. intros product _.
  apply index_or_assertion_bind; [apply getindex_exn|]. intros pr _.
  apply index_or_assertion_bind; [apply getindex_exn|]. intros ur _.
  apply index_or_assertion_bind; [apply retained_exn|]. intros kept _.
  apply index_or_assertion_bind; [apply pieces_rows_exn|]. intros rows _.
  apply Ok_exn.
Qed.

Lemma mem_examples_exn v b td idx : index_or_assertion (mem_examples v b td idx).
Proof.
  induction idx as [|i idx IH]; simpl; [apply Ok_exn|].
  apply index_or_assertion_bind; [apply mem_example_exn|]. intros a _.
  apply index_or_assertion_bind; [done|]. intros rest _. apply Ok_exn.
Qed.

Lemma mem_examples_lookups v b td idx rows i :
  mem_examples v b td idx = Ok rows → i ∈ idx →
  is_Some (userID b !! i) ∧ is_Some (productID b !! i)
  ∧ is_Some (product_review b !! i) ∧ is_Some (user_review b !! i).
Proof.
  intros (blocks & _ & Hall)%mem_examples_blocks Hi.
  apply list_elem_of_lookup_1 in Hi as [p Hp].
  destruct (Forall2_lookup_l _ _ _ _ _ Hall Hp) as (blk & _ & Hex).
  apply mem_example_inv in Hex as (? & ? & ? & ? & ? & ? & -> & -> & -> & -> & _).
  split_and!; by eexists.
Qed.
End mem_failures.

(** X23.  How [make_tensors] fails.  It raises no exception other
    than IndexError and AssertionError (it reads the dictionaries
    through [word_id] only, which maps an unknown word to UNK).  A batch
    without summaries raises IndexError, and so does a batch with more
    summaries than reviews.  When the call returns, the batch has at
    least one summary, and at least as many reviews, user ids, product
    ids and memory lists of both kinds as summaries. *)
Theorem make_tensors_failures {E : Type} (v : @MemVocab.Vocab E) (b : MemVocab.Batch)
    (train_data : list MemVocab.Example) :
  index_or_assertion (MemVocab.make_tensors v b train_data)
  ∧ (MemVocab.summary b = [] → MemVocab.make_tensors v b train_data = Raise IndexError)
  ∧ (length (MemVocab.reviewText b) < length (MemVocab.summary b) →
     MemVocab.make_tensors v b train_data = Raise IndexError)
  ∧ (∀ t, MemVocab.make_tensors v b train_data = Ok t →
       MemVocab.summary b ≠ []
       ∧ length (MemVocab.summary b) ≤ length (MemVocab.reviewText b)
       ∧ length (MemVocab.summary b) ≤ length (MemVocab.userID b)
       ∧ length (MemVocab.summary b) ≤ length (MemVocab.productID b)
       ∧ length (MemVocab.summary b) ≤ length (MemVocab.product_review b)
       ∧ length (MemVocab.summary b) ≤ length (MemVocab.user_review b)).
Proof.
  assert (length (MemVocab.paired_reviews b)
          = length (MemVocab.reviewText b) `min` length (MemVocab.summary b)) as Hpair.
  { unfold MemVocab.paired_reviews. by rewrite length_fmap, length_zip. }
  split_and!.
  - unfold MemVocab.make_tensors. case_bool_decide; [|intros e [= <-]; by left].
    apply index_or_assertion_bind; [apply getindex_exn|]. intros first _.
    apply index_or_assertion_bind; [apply mem_examples_exn|]. intros rows _.
    apply Ok_exn.
  - intros Hs. unfold MemVocab.make_tensors.
    rewrite bool_decide_eq_true_2 by (rewrite Hs; simpl; lia).
    unfold MemVocab.sorted_reviews, MemVocab.batch_order. by rewrite Hs.
  - intros Hlt. unfold MemVocab.make_tensors.
    by rewrite bool_decide_eq_false_2 by lia.
  - intros t Ht.
    assert (length (MemVocab.summary b) ≤ length (MemVocab.reviewText b)) as Hle.
    { unfold MemVocab.make_tensors in Ht. case_bool_decide; [lia|done]. }
    apply make_tensors_inv in Ht as (first & rows & Hfirst & Hrows & _).
    assert (0 < length (MemVocab.summary b)) as Hpos.
    { apply lookup_lt_Some in Hfirst. unfold MemVocab.sorted_reviews in Hfirst.
      rewrite length_fmap, mem_batch_order_perm, length_seq in Hfirst. lia. }
    assert (length (MemVocab.summary b) - 1 ∈ MemVocab.batch_order b) as Hin.
    { rewrite mem_batch_order_perm, elem_of_seq. lia. }
    destruct (mem_examples_lookups _ _ _ _ _ _ Hrows Hin)
      as (Hu%lookup_lt_is_Some_1 & Hp%lookup_lt_is_Some_1
          & Hpr%lookup_lt_is_Some_1 & Hur%lookup_lt_is_Some_1).
    split_and!; [|lia..]. intros Hnil. rewrite Hnil in Hpos. simpl in Hpos. lia.
Qed.
